(** * cockroachdb/metamorphic: sequences, weighted sampling, logger and runner

    A shallow embedding of [seq/sequence.go], [weighted.go] and
    [metamorphic.go], followed by the properties of the specification that
    are settled against it. *)

From Stdlib Require Import ZArith Lia Bool Ascii String DecimalString.
From Stdlib Require PrimFloat.
From stdpp Require Import base tactics numbers option list.

Local Open Scope Z_scope.

(** ** Fixed-width integers

    The type set [ints] of [seq/sequence.go]: every Go integer kind.  A value
    of kind [K] is a [Z] inside [[int_min K, int_max K]]; arithmetic wraps. *)
Module GoInt.

Inductive ints : Type :=
  | Int | Int8 | Int16 | Int32 | Int64
  | Uint | Uint8 | Uint16 | Uint32 | Uint64.

Definition is_signed (K : ints) : bool :=
  match K with
  | Int | Int8 | Int16 | Int32 | Int64 => true
  | _ => false
  end.

(* [int] and [uint] are taken at 64 bits (as on amd64, arm64); on a 32-bit
   target they behave as [Int32] and [Uint32]. *)
Definition bits (K : ints) : Z :=
  match K with
  | Int8 | Uint8 => 8
  | Int16 | Uint16 => 16
  | Int32 | Uint32 => 32
  | Int | Int64 | Uint | Uint64 => 64
  end.

Definition modulus (K : ints) : Z := 2 ^ bits K.

Definition int_min (K : ints) : Z :=
  if is_signed K then - 2 ^ (bits K - 1) else 0.

Definition int_max (K : ints) : Z :=
  if is_signed K then 2 ^ (bits K - 1) - 1 else 2 ^ bits K - 1.

Definition in_range (K : ints) (z : Z) : Prop := int_min K <= z <= int_max K.

(* Two's complement reduction of a mathematical result into kind [K]. *)
Definition wrap (K : ints) (z : Z) : Z :=
  (z - int_min K) mod modulus K + int_min K.

Definition add (K : ints) (a b : Z) : Z := wrap K (a + b).
Definition sub (K : ints) (a b : Z) : Z := wrap K (a - b).

End GoInt.

(** ** Package seq *)
Module Seq.
Import GoInt.

(* type IntsAscending[I ints] struct { Min, Max I; v I } *)
Record IntsAscending := mkAsc { aMin : Z; aMax : Z; av : Z }.

(* func (s *IntsAscending[I]) Next() (I, bool): the pair returned and the
   receiver after the call. *)
Definition IntsAscending_Next (K : ints) (s : IntsAscending)
  : (Z * bool) * IntsAscending :=
  let v := add K (av s) 1 in
  if (aMax s <=? v) || (v <=? aMin s)
  then ((aMin s, true), mkAsc (aMin s) (aMax s) (aMin s))
  else ((v, false), mkAsc (aMin s) (aMax s) v).

(* type IntsDescending[I ints] struct { Min, Max I; v I } *)
Record IntsDescending := mkDesc { dMin : Z; dMax : Z; dv : Z }.

(* func (s *IntsDescending[I]) Next() (I, bool) *)
Definition IntsDescending_Next (K : ints) (s : IntsDescending)
  : (Z * bool) * IntsDescending :=
  let v := sub K (dv s) 1 in
  let top := sub K (dMax s) 1 in
  if (v <? dMin s) || (top <=? v)
  then ((top, true), mkDesc (dMin s) (dMax s) top)
  else ((v, false), mkDesc (dMin s) (dMax s) v).

(* A composite literal [IntsAscending[I]{Min: min, Max: max}]: the
   unexported cursor [v] has its zero value. *)
Definition fresh_ascending (min max : Z) : IntsAscending := mkAsc min max 0.
Definition fresh_descending (min max : Z) : IntsDescending := mkDesc min max 0.

(* [n] consecutive calls of a [Next] method: the pairs returned, in order,
   and the receiver afterwards. *)
Fixpoint calls {St A : Type} (next : St -> A * St) (n : nat) (s : St)
  : list A * St :=
  match n with
  | O => ([], s)
  | S n' =>
      let '(a, s1) := next s in
      let '(rest, s2) := calls next n' s1 in
      (a :: rest, s2)
  end.

(* [n] consecutive integers upwards from [v], and downwards from [v]. *)
Fixpoint ascending_from (v : Z) (n : nat) : list Z :=
  match n with
  | O => []
  | S n' => v :: ascending_from (v + 1) n'
  end.

Fixpoint descending_from (v : Z) (n : nat) : list Z :=
  match n with
  | O => []
  | S n' => v :: descending_from (v - 1) n'
  end.

(* One cycle as the Sequence interface documents it: the values in order,
   [restarted] set on the first of them only. *)
Definition cycle (vals : list Z) : list (Z * bool) :=
  match vals with
  | [] => []
  | v :: rest => (v, true) :: map (fun x => (x, false)) rest
  end.

(* type Slice[I any] struct { Elems []I; index IntsAscending[int] } *)
Record Slice (I : Type) := mkSlice { Elems : list I; index : IntsAscending }.
Arguments mkSlice {I} _ _.
Arguments Elems {I} _.
Arguments index {I} _.

(* [s.Elems[i]]: a run-time panic (None) outside [0, len). *)
Definition slice_at {I : Type} (l : list I) (i : Z) : option I :=
  if i <? 0 then None else l !! Z.to_nat i.

(* func (s *Slice[I]) Next() (I, bool).  The result is None when the
   indexing panics; the receiver has been advanced in either case. *)
Definition Slice_Next {I : Type} (s : Slice I)
  : option (I * bool) * Slice I :=
  let len := Z.of_nat (length (Elems s)) in
  let idx := if negb (aMax (index s) =? len)
             then mkAsc 0 len 0 else index s in
  let '((i, restarted), idx') := IntsAscending_Next Int idx in
  (match slice_at (Elems s) i with
   | Some x => Some (x, restarted)
   | None => None
   end, mkSlice (Elems s) idx').

(* The Slice values a client of the package can hold: [index] is
   unexported, so a Slice starts from a literal [Slice[I]{Elems: e}] and
   changes only through Next and through assignments to [Elems]. *)
Inductive Slice_reachable {I : Type} : Slice I -> Prop :=
  | reach_literal e : Slice_reachable (mkSlice e (mkAsc 0 0 0))
  | reach_Next s : Slice_reachable s -> Slice_reachable (snd (Slice_Next s))
  | reach_assign s e : Slice_reachable s -> Slice_reachable (mkSlice e (index s)).

(* type randomFilter[I any] struct { sequence; prng; probability }.
   [W] is everything the inner sequence and the generator may read or write
   (they may share state); [inner_Next] is [s.sequence.Next] and [Float64] is
   [s.prng.Float64]. *)
Section RandomFilter.
Context {W I : Type}.
Variable inner_Next : W -> (I * bool) * W.
Variable Float64 : W -> PrimFloat.float * W.
Variable probability : PrimFloat.float.

(* The [for] loop of randomFilter.Next, entered with the current value of
   the local [restarted]; [fuel] bounds the number of iterations. *)
Fixpoint randomFilter_loop (fuel : nat) (restarted : bool) (w : W)
  : option ((I * bool) * W) :=
  match fuel with
  | O => None
  | S fuel' =>
      let '((curr, currRestarted), w1) := inner_Next w in
      let restarted := restarted || currRestarted in
      let '(x, w2) := Float64 w1 in
      if PrimFloat.ltb x probability
      then Some ((curr, restarted), w2)
      else randomFilter_loop fuel' restarted w2
  end.

(* func (s *randomFilter[I]) Next() (I, bool) *)
Definition randomFilter_Next (fuel : nat) (w : W) : option ((I * bool) * W) :=
  randomFilter_loop fuel false w.

(* One iteration of the loop seen from outside: the inner pull, whether
   the generator keeps it, and the state after both. *)
Definition pull (w : W) : (I * bool * bool) * W :=
  let '((curr, currRestarted), w1) := inner_Next w in
  let '(x, w2) := Float64 w1 in
  ((curr, currRestarted, PrimFloat.ltb x probability), w2).

(* The first [n] pulls from [w] are all discarded and the next one is
   kept: it is the pair (c, r) and leaves the state [w']. *)
Definition first_kept (n : nat) (w : W) (c : I) (r : bool) (w' : W) : Prop :=
  Forall (fun t => snd t = false) (fst (calls pull n w))
  /\ pull (snd (calls pull n w)) = ((c, r, true), w').

(* Whether some pull of a list reported [restarted]. *)
Definition any_restarted (pulls : list (I * bool * bool)) : bool :=
  existsb (fun t => snd (fst t)) pulls.
End RandomFilter.

(* [n] consecutive calls of randomFilter.Next, each with [fuel]
   iterations at most: the pairs returned and the state afterwards. *)
Fixpoint randomFilter_calls {W I : Type} (inner_Next : W -> (I * bool) * W)
    (Float64 : W -> PrimFloat.float * W) (probability : PrimFloat.float)
    (fuel n : nat) (w : W) : option (list (I * bool) * W) :=
  match n with
  | O => Some ([], w)
  | S n' =>
      match randomFilter_Next inner_Next Float64 probability fuel w with
      | None => None
      | Some (r, w1) =>
          match randomFilter_calls inner_Next Float64 probability fuel n' w1 with
          | None => None
          | Some (rest, w2) => Some (r :: rest, w2)
          end
      end
  end.

(* The position Slice.Next advances from: the cursor of [index] while
   [index] is in step with Elems, 0 once the length of Elems has changed
   (Next then starts over from a new [index]). *)
Definition Slice_cursor {I : Type} (s : Slice I) : Z :=
  if aMax (index s) =? Z.of_nat (length (Elems s)) then av (index s) else 0.

(* A filter for the examples: the inner sequence counts 0, 1, 2, 0, ...
   and the generator keeps every third draw. *)
Definition count3_Next (w : nat * nat) : (nat * bool) * (nat * nat) :=
  ((fst w mod 3, fst w mod 3 =? 0), (S (fst w), snd w))%nat.
Definition half : PrimFloat.float := PrimFloat.div PrimFloat.one PrimFloat.two.
Definition quarter : PrimFloat.float := PrimFloat.div half PrimFloat.two.
Definition third_Float64 (w : nat * nat) : PrimFloat.float * (nat * nat) :=
  (if (snd w mod 3 =? 2)%nat then quarter else PrimFloat.add half quarter,
   (fst w, S (snd w))).
(* A generator whose every draw is 1. *)
Definition one_Float64 (w : nat * nat) : PrimFloat.float * (nat * nat) :=
  (PrimFloat.one, (fst w, S (snd w))).

End Seq.

(** ** Package metamorphic: weighted.go *)
Module Weighted.
Import GoInt.

(* type ItemWeight[I any] struct { Item I; Weight int } *)
Record ItemWeight (I : Type) := mkItemWeight { Item : I; Weight : Z }.
Arguments mkItemWeight {I} _ _.
Arguments Item {I} _.
Arguments Weight {I} _.

(* type Weighted[I any] []ItemWeight[I] *)
Abbreviation Weighted I := (list (ItemWeight I)).

(* func (w Weighted[I]) total() int: the accumulation in int arithmetic. *)
Definition total {I : Type} (w : Weighted I) : Z :=
  fold_left (fun acc e => add Int acc (Weight e)) w 0.

(* The sum of the weights as a mathematical integer. *)
Definition sum_weights {I : Type} (w : Weighted I) : Z :=
  foldr (fun e acc => Weight e + acc) 0 w.

(* The loop of the closure returned by Random, entered with the draw [t];
   None is the trailing panic("unreachable"). *)
Fixpoint scan {I : Type} (w : Weighted I) (t : Z) : option I :=
  match w with
  | [] => None
  | e :: rest =>
      let t := sub Int t (Weight e) in
      if t <? 0 then Some (Item e) else scan rest t
  end.

(* func Generate[I any](n int, fn func() I) []I, of metamorphic.go.  [fn]
   is a closure over a state [St]; None stands for a panic, of [make] for a
   negative [n] or of [fn]. *)
Fixpoint generate_loop {St A : Type} (fn : St -> option (A * St))
    (n : nat) (st : St) : option (list A * St) :=
  match n with
  | O => Some ([], st)
  | S n' =>
      match fn st with
      | None => None
      | Some (a, st1) =>
          match generate_loop fn n' st1 with
          | None => None
          | Some (items, st2) => Some (a :: items, st2)
          end
      end
  end.

Definition Generate {St A : Type} (n : Z) (fn : St -> option (A * St))
    (st : St) : option (list A * St) :=
  if n <? 0 then None else generate_loop fn (Z.to_nat n) st.

Section Random.
Context {I R : Type}.
(* [Intn r n] is rng.Intn(n) for n > 0: the draw and the generator after
   it.  rand.Intn panics for n <= 0. *)
Variable Intn : R -> Z -> Z * R.

(* One call of the closure returned by w.Random(rng); [total] was computed
   when the closure was made. *)
Definition Random_next (w : Weighted I) (r : R) : option (I * R) :=
  let total := total w in
  if total <=? 0 then None
  else
    let '(t, r') := Intn r total in
    match scan w t with
    | Some it => Some (it, r')
    | None => None
    end.
End Random.

(* The slice [deck] built by RandomDeck: index i repeated Weight_i times
   (not at all for a weight below 1), in the order of w. *)
Fixpoint build_deck_from {I : Type} (i : nat) (w : Weighted I) : list nat :=
  match w with
  | [] => []
  | e :: rest => replicate (Z.to_nat (Weight e)) i ++ build_deck_from (S i) rest
  end.

Definition build_deck {I : Type} (w : Weighted I) : list nat :=
  build_deck_from 0 w.

(* deck[i], deck[j] = deck[j], deck[i]; an index out of range panics. *)
Definition swap (deck : list nat) (i j : nat) : option (list nat) :=
  match deck !! i, deck !! j with
  | Some a, Some b => Some (<[j := a]> (<[i := b]> deck))
  | _, _ => None
  end.

Fixpoint apply_swaps (deck : list nat) (swaps : list (nat * nat))
  : option (list nat) :=
  match swaps with
  | [] => Some deck
  | (i, j) :: rest =>
      match swap deck i j with
      | Some deck' => apply_swaps deck' rest
      | None => None
      end
  end.

(* The variables the closure returned by RandomDeck captures. *)
Record deck_gen (R : Type) := mkDeckGen { deck : list nat; index : nat; rng : R }.
Arguments mkDeckGen {R} _ _ _.
Arguments deck {R} _.
Arguments index {R} _.
Arguments rng {R} _.

Section RandomDeck.
Context {I R : Type}.
(* [Shuffle r n] is rng.Shuffle(n, swap): the calls swap(i, j) it makes,
   in order, and the generator afterwards. *)
Variable Shuffle : R -> nat -> list (nat * nat) * R.

(* func (w Weighted[I]) RandomDeck(rng *rand.Rand) func() I.  None: the
   panic of make([]int, 0, total) for a negative capacity.  (What memory
   allows is not modelled: a deck is any list.) *)
Definition RandomDeck (w : Weighted I) (r : R) : option (deck_gen R) :=
  if total w <? 0 then None
  else Some (mkDeckGen (build_deck w) (length (build_deck w)) r).

(* One call of the closure returned by RandomDeck. *)
Definition deck_next (w : Weighted I) (g : deck_gen R)
  : option (I * deck_gen R) :=
  let reshuffled :=
    if (index g =? length (deck g))%nat then
      let '(swaps, r') := Shuffle (rng g) (length (deck g)) in
      match apply_swaps (deck g) swaps with
      | Some d => Some (mkDeckGen d 0 r')
      | None => None
      end
    else Some g in
  match reshuffled with
  | None => None
  | Some g1 =>
      match deck g1 !! index g1 with
      | None => None
      | Some k =>
          match w !! k with
          | None => None
          | Some e => Some (Item e, mkDeckGen (deck g1) (S (index g1)) (rng g1))
          end
      end
  end.
End RandomDeck.

(* The state of the closure between two passes: the cursor at the end of
   a deck that is the built deck reordered. *)
Definition between_passes {I R : Type} (w : Weighted I) (g : deck_gen R) : Prop :=
  index g = length (deck g) /\ deck g ≡ₚ build_deck w.

(* How often [x] occurs in a list of items. *)
Definition occurrences {I : Type} `{EqDecision I} (x : I) (l : list I) : Z :=
  Z.of_nat (length (filter (fun y => y = x) l)).

(* The weight [w] gives to the item value [x]: the sum of the weights of
   the entries that hold it (Weight_i for an item held by entry i alone). *)
Definition weight_of {I : Type} `{EqDecision I} (x : I) (w : Weighted I) : Z :=
  sum_weights (filter (fun e => Item e = x) w).

(* The items a run of deck slots stands for: w[k].Item for every slot k. *)
Definition items_of {I : Type} (w : Weighted I) (slots : list nat) : list I :=
  omap (fun k => Item <$> w !! k) slots.

(* A generator for the examples, driven by a script of raw draws: Intn
   reduces the next draw modulo n, Shuffle is the loop of math/rand,
   for i := n-1; i > 0; i-- { swap(i, Intn(i+1)) }. *)
Definition script_Intn (r : list Z) (n : Z) : Z * list Z :=
  (match r with [] => 0 | x :: _ => x mod n end, tail r).

Fixpoint fisher_yates (i : nat) (r : list Z) : list (nat * nat) * list Z :=
  match i with
  | O => ([], r)
  | S i' =>
      let '(j, r1) := script_Intn r (Z.of_nat (S i)) in
      let '(rest, r2) := fisher_yates i' r1 in
      ((i, Z.to_nat j) :: rest, r2)
  end.

Definition script_Shuffle (r : list Z) (n : nat) : list (nat * nat) * list Z :=
  fisher_yates (n - 1) r.

End Weighted.

(** ** Package metamorphic: metamorphic.go *)
Module Metamorphic.

(* Text is a sequence of bytes, as in bytes.Buffer and io.Writer. *)
Abbreviation bytes := (list ascii).

#[global] Instance ascii_eq_decision : EqDecision ascii := Ascii.ascii_dec.

Definition B (s : string) : bytes := list_ascii_of_string s.

Definition nl : ascii := "010"%char.

(* The verb %d, and %6d: right-justified in a field of 6, never cut. *)
Definition decimal (n : nat) : bytes := B (NilZero.string_of_uint (Nat.to_uint n)).

Definition pad6 (b : bytes) : bytes := replicate (6 - length b) " "%char ++ b.

(* fmt.Sprintf("op %6d: %s = ", opNumber, op) *)
Definition op_prefix (opNumber : nat) (descr : bytes) : bytes :=
  B "op " ++ pad6 (decimal opNumber) ++ B ": " ++ descr ++ B " = ".

(* testing.TB, as far as the package uses it: whether the test has failed
   and the messages it was handed, in order. *)
Record TB := mkTB { failed : bool; output : list bytes }.

(* t.Logf *)
Definition TB_Logf (t : TB) (msg : bytes) : TB := mkTB (failed t) (output t ++ [msg]).
(* t.Error, t.Errorf: the message is logged and the test marked failed;
   execution goes on. *)
Definition TB_Errorf (t : TB) (msg : bytes) : TB := mkTB true (output t ++ [msg]).
(* t.FailNow marks the test failed and then calls runtime.Goexit: the
   caller models the exit. *)
Definition TB_FailNow (t : TB) : TB := mkTB true (output t).

(* type Logger struct.  [w] is always &history and [wIndent] always wraps
   [w] with the indent "  "; [t] is shared and threaded beside the Logger;
   [op] is kept as the descriptor op.String(). *)
Record Logger := mkLogger {
  history : bytes;
  lastByte : ascii;
  opNumber : nat;
  op : bytes;
  logged : bool
}.

(* &Logger{t: t} with w and wIndent set: NewLogger, and the loop at the head
   of RunInTandem. *)
Definition NewLogger : Logger := mkLogger [] "000"%char 0 [] false.

#[global] Instance Logger_inhabited : Inhabited Logger := populate NewLogger.

(* func (w *newlineIndentingWriter) Write(b []byte): what reaches the
   underlying writer.  The loop writes b up to and including each '\n' and
   then the indent, and the rest of b after the last one: every '\n' of b is
   followed by the indent. *)
Fixpoint indent_newlines (b : bytes) : bytes :=
  match b with
  | [] => []
  | c :: rest =>
      if Ascii.eqb c nl then c :: B "  " ++ indent_newlines rest
      else c :: indent_newlines rest
  end.

(* bytes.IndexByte(b, c): the index of the first c in b, -1 when there is
   none. *)
Fixpoint IndexByte (b : bytes) (c : ascii) : Z :=
  match b with
  | [] => -1
  | x :: rest =>
      if Ascii.eqb x c then 0
      else let i := IndexByte rest c in if i <? 0 then -1 else i + 1
  end.

(* The loop of newlineIndentingWriter.Write as it is written, over a
   bytes.Buffer, whose Write takes all it is given and returns no error:
   [out] is what has reached the buffer and [n] the count returned, a sum of
   lengths of slices.  [fuel] bounds the number of iterations; None is fuel
   run out. *)
Fixpoint newlineIndentingWriter_loop (fuel : nat) (indent b out : bytes) (n : Z)
  : option (bytes * Z) :=
  match fuel with
  | O => None
  | Datatypes.S fuel' =>
      if (0 <? length b)%nat then
        let i := IndexByte b nl in
        if 0 <=? i then
          let out := out ++ take (Z.to_nat (i + 1)) b in
          let n := n + Z.of_nat (length (take (Z.to_nat (i + 1)) b)) in
          let b := drop (Z.to_nat (i + 1)) b in
          let out := out ++ indent in
          let n := n + Z.of_nat (length indent) in
          newlineIndentingWriter_loop fuel' indent b out n
        else Some (out ++ b, n + Z.of_nat (length b))
      else Some (out, n)
  end.

Definition newlineIndentingWriter_Write (fuel : nat) (indent b : bytes)
  : option (bytes * Z) :=
  newlineIndentingWriter_loop fuel indent b [] 0.

(* A write through l.wIndent: it goes to l.w, that is to history, not
   through l.Write, so lastByte is not touched. *)
Definition wIndent_Write (l : Logger) (b : bytes) : Logger :=
  mkLogger (history l ++ indent_newlines b) (lastByte l) (opNumber l) (op l) (logged l).

(* func (l *Logger) Write(b []byte) (int, error); bytes.Buffer takes all
   of b. *)
Definition Logger_Write (l : Logger) (b : bytes) : Logger :=
  mkLogger (history l ++ b)
           (match last b with Some c => c | None => lastByte l end)
           (opNumber l) (op l) (logged l).

Definition set_logged (l : Logger) (v : bool) : Logger :=
  mkLogger (history l) (lastByte l) (opNumber l) (op l) v.

(* func (l *Logger) Logf(format, args...), and Log(args...): [text] is the
   formatted text. *)
Definition Logger_Logf (l : Logger) (text : bytes) : Logger :=
  wIndent_Write (set_logged l true) text.

(* func (l *Logger) Commentf(format, args...): [text] is format with its
   arguments put in. *)
Definition Logger_Commentf (l : Logger) (text : bytes) : Logger :=
  let l1 := if Ascii.eqb (lastByte l) nl then l else wIndent_Write l [nl] in
  Logger_Logf l1 (B "// " ++ text ++ [nl]).

(* func (l *Logger) Errorf, and Error: [text] is the message. *)
Definition Logger_Errorf (l : Logger) (t : TB) (text : bytes) : Logger * TB :=
  (Logger_Logf l (B "error: " ++ text), TB_Errorf t text).

(* func (l *Logger) FailNow(): the state in which the goroutine exits. *)
Definition Logger_FailNow (l : Logger) (t : TB) : Logger * TB :=
  (l, TB_FailNow (TB_Logf t (B "History:" ++ [nl; nl] ++ history l))).

(* func (l *Logger) Fatal(args...) *)
Definition Logger_Fatal (l : Logger) (t : TB) (text : bytes) : Logger * TB :=
  let '(l1, t1) := Logger_Errorf l t text in Logger_FailNow l1 t1.

(* How a piece of code ends: it returns, or the goroutine has exited
   (runtime.Goexit, reached through t.FailNow) in the given state. *)
Inductive outcome (A : Type) : Type :=
  | Returned (a : A)
  | Exited (a : A).
Arguments Returned {A} _.
Arguments Exited {A} _.

(* What an operation does to its Logger: the calls it makes on it, in
   order.  CPanic is a panic of the operation with value r, [text] being
   fmt.Sprint(r); the calls after it are not made. *)
Inductive call : Type :=
  | CLog (text : bytes)        (* l.Log, l.Logf *)
  | CCommentf (text : bytes)   (* l.Commentf *)
  | CError (text : bytes)      (* l.Error, l.Errorf *)
  | CFailNow                   (* l.FailNow *)
  | CFatal (text : bytes)      (* l.Fatal *)
  | CWrite (b : bytes)         (* l.Write *)
  | CPanic (text : bytes).

(* type Op[S any] interface { String() string; Run(l *Logger, s S) }.  [H] is
   the memory an operation may read and write, the state behind [S]
   included, so that states which share memory are covered; Run is given,
   for a state and a memory, by the calls it makes on the Logger and the
   memory it leaves. *)
Record Op (S H : Type) := mkOp {
  op_String : bytes;
  op_Run : S -> H -> list call * H
}.
Arguments mkOp {S H} _ _.
Arguments op_String {S H} _.
Arguments op_Run {S H} _ _ _.

(* op.Run(l, s) as the runner sees it, inside the deferred recover:
   a panic is handed to l.Fatal. *)
Fixpoint run_calls (cs : list call) (l : Logger) (t : TB) : outcome (Logger * TB) :=
  match cs with
  | [] => Returned (l, t)
  | c :: rest =>
      match c with
      | CLog text => run_calls rest (Logger_Logf l text) t
      | CCommentf text => run_calls rest (Logger_Commentf l text) t
      | CError text =>
          let '(l1, t1) := Logger_Errorf l t text in run_calls rest l1 t1
      | CFailNow => Exited (Logger_FailNow l t)
      | CFatal text => Exited (Logger_Fatal l t text)
      | CWrite b => run_calls rest (Logger_Write l b) t
      | CPanic text => Exited (Logger_Fatal l t text)
      end
  end.

(* The state in which a piece of code ended, returned or exited. *)
Definition state_of {A : Type} (o : outcome A) : A :=
  match o with
  | Returned a => a
  | Exited a => a
  end.

Section Runner.
Context {S H : Type}.
(* The text %s prints for the error compareOpResults returns,
   errors.Newf("divergence:\n%s\n%s\n", aResult, bResult).  It is made by
   the package github.com/cockroachdb/errors, which is not part of the code
   at hand: the text is taken as a parameter, a function of the two
   results. *)
Variable divergence : bytes -> bytes -> bytes.

(* func Step[S any](l *Logger, s S, op Op[S]) *)
Definition Step (l : Logger) (t : TB) (h : H) (s : S) (o : Op S H)
  : outcome (Logger * TB) * H :=
  let l1 := mkLogger (history l) (lastByte l) (opNumber l) (op_String o) false in
  let l2 := Logger_Write l1 (op_prefix (opNumber l1) (op l1)) in
  let '(cs, h') := op_Run o s h in
  match run_calls cs l2 t with
  | Exited lt => (Exited lt, h')
  | Returned (l3, t3) =>
      let l4 := if logged l3 then l3 else Logger_Write l3 (B "-") in
      let l5 := Logger_Write l4 [nl] in
      (Returned (mkLogger (history l5) (lastByte l5) (Datatypes.S (opNumber l5))
                          (op l5) (logged l5), t3), h')
  end.

(* The loop of Run. *)
Fixpoint Run_loop (l : Logger) (t : TB) (h : H) (s : S) (ops : list (Op S H))
  : outcome (Logger * TB) * H :=
  match ops with
  | [] => (Returned (l, t), h)
  | o :: rest =>
      match Step l t h s o with
      | (Exited lt, h') => (Exited lt, h')
      | (Returned (l', t'), h') => Run_loop l' t' h' s rest
      end
  end.

(* func Run[S any](t testing.TB, initial S, ops []Op[S]): the Logger it
   worked on, the test handle and the memory, when it returns or when it
   exits. *)
Definition Run (t : TB) (h : H) (initial : S) (ops : list (Op S H))
  : outcome (Logger * TB) * H :=
  match Run_loop NewLogger t h initial ops with
  | (Exited lt, h') => (Exited lt, h')
  | (Returned (l, t'), h') =>
      let l' := Logger_Write l (B "done" ++ [nl]) in
      let t'' := if failed t'
                 then TB_Logf t' (B "History:" ++ [nl; nl] ++ history l')
                 else t' in
      (Returned (l', t''), h')
  end.

(* func compareOpResults(a *Logger, offA int, b *Logger, offB int) error:
   the text of the error, None for nil. *)
Definition compareOpResults (a : Logger) (offA : nat) (b : Logger) (offB : nat)
  : option bytes :=
  let aResult := drop offA (history a) in
  let bResult := drop offB (history b) in
  if decide (aResult = bResult) then None
  else Some (divergence aResult bResult).

(* fmt.Sprintf("state %d and %d diverged at op %d:\n%s", 0, j, i, err) *)
Definition diverged (j i : nat) (err : bytes) : bytes :=
  B "state " ++ decimal 0 ++ B " and " ++ decimal j ++ B " diverged at op "
    ++ decimal i ++ B ":" ++ [nl] ++ err.

(* The variables of RunInTandem. *)
Record Tandem := mkTandem {
  tb : TB;
  logs : list Logger;
  logOpOffsets : list (list nat);
  heap : H
}.

(* The body of the inner loop of RunInTandem, for operation [o] = ops[i]
   and timeline [j]. *)
Definition tandem_step (initial : list S) (o : Op S H) (i j : nat) (st : Tandem)
  : outcome Tandem :=
  match logs st !! j, initial !! j with
  | Some l, Some s =>
      let l1 := mkLogger (history l) (lastByte l) i (op_String o) false in
      let offs := <[j := <[i := length (history l1)]> (logOpOffsets st !!! j)]>
                    (logOpOffsets st) in
      let l2 := Logger_Write l1 (op_prefix (opNumber l1) (op l1)) in
      let '(cs, h') := op_Run o s (heap st) in
      match run_calls cs l2 (tb st) with
      | Exited (l3, t3) => Exited (mkTandem t3 (<[j := l3]> (logs st)) offs h')
      | Returned (l3, t3) =>
          let l4 := if logged l3 then l3 else Logger_Write l3 (B "-") in
          let l5 := Logger_Write l4 [nl] in
          let logs' := <[j := l5]> (logs st) in
          let t4 := if failed t3
                    then TB_Logf t3 (B "Aborting; History:" ++ [nl; nl] ++ history l5)
                    else t3 in
          let t5 :=
            if (0 <? j)%nat then
              match compareOpResults (logs' !!! 0%nat) ((offs !!! 0%nat) !!! i)
                                     l5 ((offs !!! j) !!! i) with
              | Some err => TB_Errorf t4 (diverged j i err)
              | None => t4
              end
            else t4 in
          Returned (mkTandem t5 logs' offs h')
      end
  | _, _ => Returned st
  end.

(* for j, l := range logs { ... }: [n] timelines from [j] on. *)
Fixpoint tandem_timelines (initial : list S) (o : Op S H) (i n j : nat)
    (st : Tandem) : outcome Tandem :=
  match n with
  | O => Returned st
  | Datatypes.S n' =>
      match tandem_step initial o i j st with
      | Exited st' => Exited st'
      | Returned st' => tandem_timelines initial o i n' (Datatypes.S j) st'
      end
  end.

(* for i := 0; i < len(ops); i++ { ... }: the operations from [i] on. *)
Fixpoint tandem_ops (initial : list S) (ops : list (Op S H)) (i : nat)
    (st : Tandem) : outcome Tandem :=
  match ops with
  | [] => Returned st
  | o :: rest =>
      match tandem_timelines initial o i (length (logs st)) 0 st with
      | Exited st' => Exited st'
      | Returned st' => tandem_ops initial rest (Datatypes.S i) st'
      end
  end.

(* func RunInTandem[S any](t testing.TB, initial []S, ops []Op[S]) []*Logger:
   its variables when it returns ([logs] is the value returned) or when it
   exits. *)
Definition RunInTandem (t : TB) (h : H) (initial : list S) (ops : list (Op S H))
  : outcome Tandem :=
  tandem_ops initial ops 0
    (mkTandem t (replicate (length initial) NewLogger)
              (replicate (length initial) (replicate (length ops) 0%nat)) h).

(** Describing what the operations do *)

(* The calls each operation of a single run makes, the memory being handed
   from one operation to the next. *)
Fixpoint run_trace (ops : list (Op S H)) (s : S) (h : H) : list (list call) :=
  match ops with
  | [] => []
  | o :: rest => let '(cs, h') := op_Run o s h in cs :: run_trace rest s h'
  end.

(* The calls operation [o] makes on each timeline in turn, and the memory
   after the last one. *)
Fixpoint timeline_trace (o : Op S H) (states : list S) (h : H)
  : list (list call) * H :=
  match states with
  | [] => ([], h)
  | s :: rest =>
      let '(cs, h1) := op_Run o s h in
      let '(tr, h2) := timeline_trace o rest h1 in
      (cs :: tr, h2)
  end.

(* The same for every operation of a tandem run, in the order of the run:
   entry i, j is what operation i does on timeline j. *)
Fixpoint tandem_trace (ops : list (Op S H)) (states : list S) (h : H)
  : list (list (list call)) :=
  match ops with
  | [] => []
  | o :: rest =>
      let '(tr, h1) := timeline_trace o states h in
      tr :: tandem_trace rest states h1
  end.
End Runner.
Arguments Tandem : clear implicits.

(* A call that returns to the operation: not FailNow, Fatal or a panic. *)
Definition returns (c : call) : Prop :=
  match c with
  | CFailNow | CFatal _ | CPanic _ => False
  | _ => True
  end.

(* A call through one of the logging methods; these set [logged]. *)
Definition is_logging (c : call) : bool :=
  match c with
  | CWrite _ => false
  | _ => true
  end.

(* The bytes returning calls add to history, [lb] being lastByte before
   them. *)
Fixpoint appended (lb : ascii) (cs : list call) : bytes :=
  match cs with
  | [] => []
  | CLog text :: rest => indent_newlines text ++ appended lb rest
  | CCommentf text :: rest =>
      (if Ascii.eqb lb nl then [] else indent_newlines [nl])
        ++ indent_newlines (B "// " ++ text ++ [nl]) ++ appended lb rest
  | CError text :: rest => indent_newlines (B "error: " ++ text) ++ appended lb rest
  | CWrite b :: rest =>
      b ++ appended (match last b with Some c => c | None => lb end) rest
  | _ :: rest => appended lb rest
  end.

(* lastByte after returning calls: only l.Write moves it. *)
Fixpoint last_after (lb : ascii) (cs : list call) : ascii :=
  match cs with
  | [] => lb
  | CWrite b :: rest =>
      last_after (match last b with Some c => c | None => lb end) rest
  | _ :: rest => last_after lb rest
  end.

(* The Logger and the test handle after returning calls. *)
Definition after_calls (cs : list call) (l : Logger) : Logger :=
  mkLogger (history l ++ appended (lastByte l) cs) (last_after (lastByte l) cs)
           (opNumber l) (op l) (logged l || existsb is_logging cs).

Fixpoint tb_after (cs : list call) (t : TB) : TB :=
  match cs with
  | [] => t
  | CError text :: rest => tb_after rest (TB_Errorf t text)
  | _ :: rest => tb_after rest t
  end.

(* The messages handed to t.Error and t.Errorf by the calls. *)
Definition error_texts (cs : list call) : list bytes :=
  omap (fun c => match c with CError text => Some text | _ => None end) cs.

(* The text FailNow and Run hand to t.Logf: "History:\n\n%s". *)
Definition history_dump (l : Logger) : bytes :=
  B "History:" ++ [nl; nl] ++ history l.

(* The bytes operation number [n], described by [descr] and making the
   returning calls [cs], adds to the log of its timeline. *)
Definition op_segment (n : nat) (descr : bytes) (cs : list call) : bytes :=
  op_prefix n descr ++ appended " "%char cs
    ++ (if existsb is_logging cs then [] else B "-") ++ [nl].

(* An operation's output with no line break in it: calls of Log, Logf,
   Error, Errorf or Write whose text has no newline. *)
Definition plain (c : call) : Prop :=
  match c with
  | CLog text | CError text | CWrite text => nl ∉ text
  | _ => False
  end.

(* The text of such calls, as the log shows it. *)
Definition shown (c : call) : bytes :=
  match c with
  | CLog text | CWrite text => text
  | CError text => B "error: " ++ text
  | _ => []
  end.

(* The transcript line of operation number [n]: the prefix, what the
   operation put out, and "-" when it called no logging method. *)
Definition op_line (n : nat) (descr : bytes) (cs : list call) : bytes :=
  op_prefix n descr ++ concat (map shown cs)
    ++ (if existsb is_logging cs then [] else B "-").

(* The segments, and the lines, of consecutive operations numbered from
   [n], given their descriptors and the calls each makes. *)
Fixpoint segments (n : nat) (descrs : list bytes) (trace : list (list call))
  : list bytes :=
  match descrs, trace with
  | d :: descrs', cs :: trace' => op_segment n d cs :: segments (S n) descrs' trace'
  | _, _ => []
  end.

Fixpoint op_lines (n : nat) (descrs : list bytes) (trace : list (list call))
  : list bytes :=
  match descrs, trace with
  | d :: descrs', cs :: trace' => op_line n d cs :: op_lines (S n) descrs' trace'
  | _, _ => []
  end.

(* A transcript made of the given lines, each ended by a newline. *)
Definition transcript (lines : list bytes) : bytes :=
  concat (map (fun line => line ++ [nl]) lines).

(* The shape of the variables of RunInTandem with [m] timelines and [N]
   operations: a Logger and a row of [N] offsets per timeline. *)
Definition tandem_wf {H : Type} (m N : nat) (st : Tandem H) : Prop :=
  length (logs st) = m /\ length (logOpOffsets st) = m
  /\ Forall (fun row => length row = N) (logOpOffsets st).

(* The test handle only grows: a failure stays, messages are added. *)
Definition tb_le (t t' : TB) : Prop :=
  (failed t = true -> failed t' = true)
  /\ exists more, output t' = output t ++ more.

(* What timeline [j] does, operation by operation, in a tandem trace. *)
Definition timeline_calls (j : nat) (trace : list (list (list call)))
  : list (list call) :=
  (fun tr => tr !!! j) <$> trace.

(* Operations for the examples, on a state that is a number and with no
   memory: one that logs, one that logs nothing, one that only comments, one
   that panics, one whose behaviour depends on the state. *)
Definition get_op : Op nat unit :=
  mkOp (B "Get(x)") (fun _ h => ([CLog (B "hello")], h)).
Definition put_op : Op nat unit :=
  mkOp (B "Put(x)") (fun _ h => ([], h)).
Definition note_op : Op nat unit :=
  mkOp (B "Note") (fun _ h => ([CCommentf (B "note")], h)).
Definition crash_op : Op nat unit :=
  mkOp (B "Crash") (fun _ h => ([CPanic (B "boom")], h)).
Definition dep_op : Op nat unit :=
  mkOp (B "Dep") (fun s h => ([CLog (if (s =? 1)%nat then B "one" else B "other")], h)).
Definition fatal_op : Op nat unit :=
  mkOp (B "Dep")
       (fun s h => (if (s =? 1)%nat then [CFatal (B "boom")] else [CLog (B "ok")], h)).
(* A text of the error of a divergence for the examples, the two results
   in brackets; it stands for no library, and every property holds whatever
   the text is. *)
Definition bracketed (aResult bResult : bytes) : bytes :=
  B "[" ++ aResult ++ B "][" ++ bResult ++ B "]".

End Metamorphic.

(** * Properties *)

(** ** Fixed-width arithmetic *)
Module GoIntFacts.
Import GoInt.

(* Decide the integer comparisons of a goal and finish by arithmetic. *)
Ltac zbool :=
  repeat first
    [ case Z.leb_spec; intros ?
    | case Z.ltb_spec; intros ?
    | case Z.eqb_spec; intros ? ];
  cbn [orb andb negb fst snd]; try done; try lia.

Lemma wrap_small K z : in_range K z -> wrap K z = z.
Proof.
  unfold in_range, wrap, int_min, int_max, modulus.
  destruct K; cbn; intros Hz; rewrite Z.mod_small; lia.
Qed.

Lemma wrap_in_range K z : in_range K (wrap K z).
Proof.
  unfold in_range, wrap, int_min, int_max, modulus.
  destruct K; cbn;
    match goal with |- context [?a mod ?m] =>
      pose proof (Z.mod_pos_bound a m ltac:(lia)) end; lia.
Qed.

Lemma in_range_0 K : in_range K 0.
Proof. unfold in_range, int_min, int_max; destruct K; cbn; lia. Qed.

Lemma in_range_1 K : in_range K 1.
Proof. unfold in_range, int_min, int_max; destruct K; cbn; lia. Qed.

(* Decrementing the smallest value of a kind yields its largest one. *)
Lemma sub_int_min K : sub K (int_min K) 1 = int_max K.
Proof. destruct K; reflexivity. Qed.

(* Decrementing zero: -1 for a signed kind, the largest value otherwise. *)
Lemma sub_0_1 K : sub K 0 1 = if is_signed K then -1 else int_max K.
Proof. destruct K; reflexivity. Qed.

End GoIntFacts.

(** ** Integer sequences *)
Module SeqFacts.
Import GoInt GoIntFacts Seq.

(* Inside the range the ascending cursor just counts up. *)
Lemma ascending_climb K lo hi n v :
  in_range K lo -> in_range K hi ->
  lo <= v -> v + Z.of_nat n < hi ->
  calls (IntsAscending_Next K) n (mkAsc lo hi v) =
  (map (fun x => (x, false)) (ascending_from (v + 1) n),
   mkAsc lo hi (v + Z.of_nat n)).
Proof.
  intros Hlo Hhi. revert v; induction n as [|n IH]; intros v Hv Hn.
  - simpl. by rewrite Z.add_0_r.
  - cbn [calls]. unfold IntsAscending_Next at 1. cbn [aMin aMax av].
    unfold add. rewrite wrap_small by (unfold in_range in *; lia).
    replace ((hi <=? v + 1) || (v + 1 <=? lo)) with false by zbool.
    rewrite IH by lia. cbn [ascending_from map]. f_equal. f_equal. lia.
Qed.

(* A call that restarts leaves the cursor on Min, whatever it was. *)
Lemma ascending_restart_state K s :
  snd (fst (IntsAscending_Next K s)) = true ->
  IntsAscending_Next K s = ((aMin s, true), mkAsc (aMin s) (aMax s) (aMin s)).
Proof.
  unfold IntsAscending_Next.
  by destruct ((aMax s <=? add K (av s) 1) || (add K (av s) 1 <=? aMin s)).
Qed.

Lemma ascending_top_restarts K lo hi :
  in_range K lo -> in_range K hi -> lo < hi ->
  IntsAscending_Next K (mkAsc lo hi (hi - 1)) = ((lo, true), mkAsc lo hi lo).
Proof.
  intros Hlo Hhi Hlt. unfold IntsAscending_Next; cbn [aMin aMax av].
  unfold add. replace (hi - 1 + 1) with hi by lia. rewrite wrap_small by done.
  by replace ((hi <=? hi) || (hi <=? lo)) with true by zbool.
Qed.

(** X1.  Whenever a call of IntsAscending.Next restarts (for every integer
    kind, Min < Max, from any cursor), that call and the Max - Min - 1 calls
    after it return Min, Min + 1, ..., Max - 1 in order, with [restarted] on
    the first of them only, and the call after them restarts at Min again. *)
Lemma ascending_cycle_after_restart K lo hi v :
  in_range K lo -> in_range K hi -> lo < hi ->
  snd (fst (IntsAscending_Next K (mkAsc lo hi v))) = true ->
  let n := Z.to_nat (hi - lo) in
  fst (calls (IntsAscending_Next K) n (mkAsc lo hi v)) = cycle (ascending_from lo n)
  /\ fst (IntsAscending_Next K (snd (calls (IntsAscending_Next K) n (mkAsc lo hi v))))
     = (lo, true).
Proof.
  intros Hlo Hhi Hlt Hr n.
  assert (Hn : n = S (Z.to_nat (hi - lo - 1))) by lia.
  rewrite Hn. cbn [calls].
  rewrite (ascending_restart_state _ _ Hr). cbn [aMin aMax].
  rewrite ascending_climb by (assumption || lia). cbn [fst snd ascending_from cycle].
  split; [done|].
  replace (lo + Z.of_nat (Z.to_nat (hi - lo - 1))) with (hi - 1) by lia.
  by rewrite ascending_top_restarts.
Qed.

(** X3.  The first call of Next on a fresh IntsAscending (cursor at its
    zero value, Min < Max, any integer kind) reports [restarted] exactly
    when 1 <= Min or Max <= 1, and then returns Min and leaves the cursor
    there; otherwise it returns 1 without a restart and leaves the cursor at
    1. *)
Lemma fresh_ascending_first K lo hi :
  lo < hi ->
  (snd (fst (IntsAscending_Next K (fresh_ascending lo hi))) = true <->
   (1 <= lo \/ hi <= 1))
  /\ IntsAscending_Next K (fresh_ascending lo hi)
     = (if (1 <=? lo) || (hi <=? 1)
        then ((lo, true), mkAsc lo hi lo)
        else ((1, false), mkAsc lo hi 1)).
Proof.
  intros Hlt. unfold IntsAscending_Next, fresh_ascending; cbn [aMin aMax av].
  unfold add. rewrite (wrap_small K (0 + 1)) by apply in_range_1.
  change (0 + 1) with 1.
  destruct (Z.leb_spec hi 1), (Z.leb_spec 1 lo); cbn; (split; [|done]);
    split; try done; lia.
Qed.

(* Inside the range the descending cursor just counts down. *)
Lemma descending_descend K lo hi n v :
  in_range K lo -> in_range K hi -> lo < hi ->
  v <= hi - 1 -> lo <= v - Z.of_nat n ->
  calls (IntsDescending_Next K) n (mkDesc lo hi v) =
  (map (fun x => (x, false)) (descending_from (v - 1) n),
   mkDesc lo hi (v - Z.of_nat n)).
Proof.
  intros Hlo Hhi Hlt. revert v; induction n as [|n IH]; intros v Hv Hn.
  - simpl. by rewrite Z.sub_0_r.
  - cbn [calls]. unfold IntsDescending_Next at 1. cbn [dMin dMax dv].
    unfold sub. rewrite !wrap_small by (unfold in_range in *; lia).
    replace ((v - 1 <? lo) || (hi - 1 <=? v - 1)) with false by zbool.
    rewrite IH by lia. cbn [descending_from map]. f_equal. f_equal. lia.
Qed.

Lemma descending_restart_state K s :
  snd (fst (IntsDescending_Next K s)) = true ->
  IntsDescending_Next K s =
  ((sub K (dMax s) 1, true), mkDesc (dMin s) (dMax s) (sub K (dMax s) 1)).
Proof.
  unfold IntsDescending_Next.
  by destruct ((sub K (dv s) 1 <? dMin s) || (sub K (dMax s) 1 <=? sub K (dv s) 1)).
Qed.

(* Stepping below Min restarts, also when Min is the least value of the
   kind and the decrement wraps to the greatest one. *)
Lemma descending_bottom_restarts K lo hi :
  in_range K lo -> in_range K hi -> lo < hi ->
  IntsDescending_Next K (mkDesc lo hi lo) = ((hi - 1, true), mkDesc lo hi (hi - 1)).
Proof.
  intros Hlo Hhi Hlt. unfold IntsDescending_Next; cbn [dMin dMax dv].
  assert (Htop : sub K hi 1 = hi - 1).
  { unfold sub. apply wrap_small. unfold in_range in *; lia. }
  assert (Hv : sub K lo 1 < lo \/ hi - 1 <= sub K lo 1).
  { destruct (decide (lo = int_min K)) as [->|Hne].
    - rewrite sub_int_min. unfold in_range in *; lia.
    - unfold sub. rewrite wrap_small by (unfold in_range in *; lia). lia. }
  rewrite Htop.
  by replace ((sub K lo 1 <? lo) || (hi - 1 <=? sub K lo 1)) with true by zbool.
Qed.

(** X2.  Whenever a call of IntsDescending.Next restarts (for every
    integer kind, Min < Max, from any cursor), that call and the
    Max - Min - 1 calls after it return Max - 1, Max - 2, ..., Min in order,
    with [restarted] on the first of them only, and the call after them
    restarts at Max - 1 again, also when Min is the least value of the kind
    and the decrement wraps. *)
Lemma descending_cycle_after_restart K lo hi v :
  in_range K lo -> in_range K hi -> lo < hi ->
  snd (fst (IntsDescending_Next K (mkDesc lo hi v))) = true ->
  let n := Z.to_nat (hi - lo) in
  fst (calls (IntsDescending_Next K) n (mkDesc lo hi v))
    = cycle (descending_from (hi - 1) n)
  /\ fst (IntsDescending_Next K (snd (calls (IntsDescending_Next K) n (mkDesc lo hi v))))
     = (hi - 1, true).
Proof.
  intros Hlo Hhi Hlt Hr n.
  assert (Hn : n = S (Z.to_nat (hi - lo - 1))) by lia.
  rewrite Hn. cbn [calls].
  rewrite (descending_restart_state _ _ Hr). cbn [dMin dMax].
  unfold sub. rewrite wrap_small by (unfold in_range in *; lia).
  rewrite descending_descend by (assumption || lia).
  cbn [fst snd descending_from cycle]. split; [done|].
  replace (hi - 1 - Z.of_nat (Z.to_nat (hi - lo - 1))) with lo by lia.
  by rewrite descending_bottom_restarts.
Qed.

(** X4.  The first call of Next on a fresh IntsDescending (cursor at its
    zero value, Min < Max) reports [restarted] exactly when the kind is
    unsigned, or 0 <= Min, or Max <= 0. *)
Lemma fresh_descending_first K lo hi :
  in_range K lo -> in_range K hi -> lo < hi ->
  snd (fst (IntsDescending_Next K (fresh_descending lo hi))) = true <->
  (is_signed K = false \/ 0 <= lo \/ hi <= 0).
Proof.
  intros Hlo Hhi Hlt. unfold IntsDescending_Next, fresh_descending; cbn [dMin dMax dv].
  assert (Htop : sub K hi 1 = hi - 1).
  { unfold sub. apply wrap_small. unfold in_range in *; lia. }
  rewrite Htop, sub_0_1. clear Htop. unfold in_range in *.
  destruct (is_signed K); zbool; split; intros; try done; try lia; auto.
Qed.

(** C2 (the code departs from the claim).  A fresh ascending sequence over
    [0, 3) does not start with 0 flagged as a restart: the zero value of the
    cursor is taken for a position already reached, so three calls return
    1, 2 (not restarted) and then 0 (restarted). *)
Theorem fresh_ascending_skips_min :
  fst (calls (IntsAscending_Next Int) 3 (fresh_ascending 0 3))
    = [(1, false); (2, false); (0, true)]
  /\ cycle (ascending_from 0 3) = [(0, true); (1, false); (2, false)].
Proof. split; reflexivity. Qed.

(** C3 (the code departs from the claim).  A fresh descending sequence over
    [-2, 2) does not start with 1 flagged as a restart: four calls return
    -1, -2 (not restarted), then 1 (restarted) and 0. *)
Theorem fresh_descending_skips_top :
  fst (calls (IntsDescending_Next Int) 4 (fresh_descending (-2) 2))
    = [(-1, false); (-2, false); (1, true); (0, false)]
  /\ cycle (descending_from 1 4) = [(1, true); (0, false); (-1, false); (-2, false)].
Proof. split; reflexivity. Qed.

Section RandomFilterFacts.
Context {W I : Type}.
Variable inner_Next : W -> (I * bool) * W.
Variable Float64 : W -> PrimFloat.float * W.
Variable probability : PrimFloat.float.

Local Abbreviation pull := (pull inner_Next Float64 probability).
Local Abbreviation loop := (randomFilter_loop inner_Next Float64 probability).

Lemma randomFilter_loop_step fuel acc w :
  loop (S fuel) acc w =
  let '((c, r, keep), w') := pull w in
  if keep then Some ((c, acc || r), w') else loop fuel (acc || r) w'.
Proof.
  cbn [randomFilter_loop]. unfold Seq.pull.
  destruct (inner_Next w) as [[c r] w1]. by destruct (Float64 w1) as [x w2].
Qed.

(* The loop entered with [restarted = acc]. *)
Lemma randomFilter_loop_kept n : forall acc w c r w' fuel,
  first_kept inner_Next Float64 probability n w c r w' ->
  (n < fuel)%nat ->
  loop fuel acc w =
  Some ((c, acc || any_restarted (fst (calls pull n w) ++ [(c, r, true)])), w').
Proof.
  induction n as [|n IH]; intros acc w c r w' fuel [Hd Hk] Hfuel;
    (destruct fuel as [|fuel]; [lia|]); rewrite randomFilter_loop_step.
  - cbn in Hk. rewrite Hk. cbn. by rewrite orb_false_r.
  - cbn [calls] in Hd, Hk |- *.
    destruct (pull w) as [[[c0 r0] k0] w0].
    destruct (calls pull n w0) as [rest w1] eqn:E.
    cbn [fst snd] in Hd, Hk |- *.
    apply Forall_cons_1 in Hd as [Hk0 Hd]. cbn in Hk0. subst k0.
    assert (Hfk : first_kept inner_Next Float64 probability n w0 c r w').
    { unfold first_kept. by rewrite E. }
    rewrite (IH _ _ c r w' fuel Hfk) by lia.
    rewrite E. cbn. by rewrite orb_assoc.
Qed.

Lemma randomFilter_loop_returns fuel : forall acc w res,
  loop fuel acc w = Some res ->
  exists n c r w',
    (n < fuel)%nat /\ first_kept inner_Next Float64 probability n w c r w'.
Proof.
  induction fuel as [|fuel IH]; intros acc w res; [done|].
  rewrite randomFilter_loop_step.
  destruct (pull w) as [[[c0 r0] k0] w0] eqn:E. destruct k0.
  - intros _. exists O, c0, r0, w0. split; [lia|]. split; [by constructor|done].
  - intros (n & c & r & w' & Hn & Hd & Hk)%IH.
    exists (S n), c, r, w'. split; [lia|].
    unfold first_kept. cbn [calls]. rewrite E.
    destruct (calls pull n w0) as [rest w1]. cbn [fst snd] in *.
    split; [by constructor|done].
Qed.

(** C8.  A call of randomFilter.Next terminates exactly when some pull is
    kept.  If the first [n] pulls are discarded and the next is kept, the
    call returns (given fuel for its n+1 iterations) the value of that
    kept pull, with [restarted] true if and only if one of the n+1 inner
    pulls of the call, discarded or kept, reported a restart; and every
    call that returns is of this kind. *)
Theorem randomFilter_Next_first_kept (w : W) :
  (forall n c r w' fuel,
     first_kept inner_Next Float64 probability n w c r w' ->
     (n < fuel)%nat ->
     randomFilter_Next inner_Next Float64 probability fuel w =
     Some ((c, any_restarted (fst (calls pull n w) ++ [(c, r, true)])), w'))
  /\ (forall fuel res,
       randomFilter_Next inner_Next Float64 probability fuel w = Some res ->
       exists n c r w',
         (n < fuel)%nat /\
         first_kept inner_Next Float64 probability n w c r w' /\
         res = ((c, any_restarted (fst (calls pull n w) ++ [(c, r, true)])), w')).
Proof.
  unfold randomFilter_Next. split.
  - intros n c r w' fuel Hk Hn.
    by rewrite (randomFilter_loop_kept n false w c r w').
  - intros fuel res Hres.
    destruct (randomFilter_loop_returns _ _ _ _ Hres) as (n & c & r & w' & Hn & Hk).
    exists n, c, r, w'. split; [done|]. split; [done|].
    rewrite (randomFilter_loop_kept n false w c r w') in Hres by done.
    by injection Hres.
Qed.
End RandomFilterFacts.

(* Pulls 0 (a restart) and 1 are discarded, pull 2 is kept: the call returns
   2 with the restart of the discarded pull 0. *)
Lemma randomFilter_Next_first_kept_witness :
  randomFilter_Next count3_Next third_Float64 half 5 (O, O)
    = Some ((2%nat, true), (3%nat, 3%nat)).
Proof.
  apply (proj1 (randomFilter_Next_first_kept count3_Next third_Float64
                  half (O, O)) 2%nat 2%nat false (3%nat, 3%nat) 5%nat).
  - split; [repeat constructor | reflexivity].
  - lia.
Defined.

Lemma Slice_reachable_Min {I} (s : Slice I) :
  Slice_reachable s -> aMin (index s) = 0.
Proof.
  induction 1 as [e|s Hs IH|s e Hs IH]; [done| |done].
  unfold Slice_Next, IntsAscending_Next.
  repeat case_match; simplify_eq; cbn; try done;
    match goal with H : (if _ then _ else _) = _ |- _ => revert H end;
    case_match; intros; simplify_eq; done.
Qed.

(** C10.  With Min < Max, IntsAscending.Next returns a value in [Min, Max)
    from every cursor value, whatever the integer kind and also when the
    increment wraps; and on every Slice a client can hold whose Elems is not
    empty, Slice.Next indexes inside Elems: it returns an element, never
    panics. *)
Theorem IntsAscending_Next_in_range :
  (forall K s, aMin s < aMax s ->
     aMin s <= fst (fst (IntsAscending_Next K s)) < aMax s)
  /\ (forall (I : Type) (s : Slice I),
       Slice_reachable s -> Elems s <> [] ->
       exists (i : nat) x restarted,
         (i < length (Elems s))%nat /\ Elems s !! i = Some x /\
         fst (Slice_Next s) = Some (x, restarted)).
Proof.
  assert (Hasc : forall K s, aMin s < aMax s ->
     aMin s <= fst (fst (IntsAscending_Next K s)) < aMax s).
  { intros K s Hlt. unfold IntsAscending_Next.
    destruct ((aMax s <=? add K (av s) 1) || (add K (av s) 1 <=? aMin s)) eqn:E;
      cbn [fst]; [lia|].
    apply orb_false_iff in E as [?%Z.leb_gt ?%Z.leb_gt]. lia. }
  split; [exact Hasc|].
  intros I s Hs Hne. pose proof (Slice_reachable_Min s Hs) as HMin.
  unfold Slice_Next.
  set (len := Z.of_nat (length (Elems s))).
  assert (Hlen : 0 < len) by (destruct (Elems s); [done|cbn in len; lia]).
  set (idx := if negb (aMax (index s) =? len) then mkAsc 0 len 0 else index s).
  assert (Hidx : aMin idx = 0 /\ aMax idx = len).
  { subst idx. destruct (Z.eqb_spec (aMax (index s)) len); cbn; auto. }
  destruct Hidx as [Hlo Hhi].
  specialize (Hasc Int idx ltac:(lia)).
  destruct (IntsAscending_Next Int idx) as [[i r] idx']; cbn [fst] in *.
  unfold slice_at. replace (i <? 0) with false by zbool.
  destruct (lookup_lt_is_Some_2 (Elems s) (Z.to_nat i) ltac:(lia)) as [x Hx].
  exists (Z.to_nat i), x, r. rewrite Hx. split; [lia|done].
Qed.

Lemma IntsAscending_Next_in_range_witness :
  0 <= fst (fst (IntsAscending_Next Int8 (mkAsc 0 5 127))) < 5.
Proof.
  apply (proj1 IntsAscending_Next_in_range Int8 (mkAsc 0 5 127)). cbn. lia.
Defined.

Lemma ascending_cycle_after_restart_witness :
  fst (calls (IntsAscending_Next Int8) (Z.to_nat (127 - 125)) (mkAsc 125 127 126))
    = cycle (ascending_from 125 (Z.to_nat (127 - 125)))
  /\ fst (IntsAscending_Next Int8
            (snd (calls (IntsAscending_Next Int8) (Z.to_nat (127 - 125))
                    (mkAsc 125 127 126))))
     = (125, true).
Proof.
  apply (ascending_cycle_after_restart Int8 125 127 126).
  - unfold in_range. cbn. lia.
  - unfold in_range. cbn. lia.
  - lia.
  - reflexivity.
Defined.

Lemma descending_cycle_after_restart_witness :
  fst (calls (IntsDescending_Next Int8) (Z.to_nat (-126 - -128)) (mkDesc (-128) (-126) (-128)))
    = cycle (descending_from (-126 - 1) (Z.to_nat (-126 - -128)))
  /\ fst (IntsDescending_Next Int8
            (snd (calls (IntsDescending_Next Int8) (Z.to_nat (-126 - -128))
                    (mkDesc (-128) (-126) (-128)))))
     = (-126 - 1, true).
Proof.
  apply (descending_cycle_after_restart Int8 (-128) (-126) (-128)).
  - unfold in_range. cbn. lia.
  - unfold in_range. cbn. lia.
  - lia.
  - reflexivity.
Defined.

Lemma fresh_ascending_first_witness :
  (snd (fst (IntsAscending_Next Uint8 (fresh_ascending 0 3))) = true <->
   (1 <= 0 \/ 3 <= 1))
  /\ IntsAscending_Next Uint8 (fresh_ascending 0 3)
     = (if (1 <=? 0) || (3 <=? 1)
        then ((0, true), mkAsc 0 3 0)
        else ((1, false), mkAsc 0 3 1)).
Proof. apply (fresh_ascending_first Uint8 0 3). lia. Defined.

Lemma fresh_descending_first_witness :
  snd (fst (IntsDescending_Next Int16 (fresh_descending (-2) 2))) = true <->
  (is_signed Int16 = false \/ 0 <= -2 \/ 2 <= 0).
Proof.
  apply (fresh_descending_first Int16 (-2) 2).
  - unfold in_range. cbn. lia.
  - unfold in_range. cbn. lia.
  - lia.
Defined.

(* What every Slice a client can hold keeps: [index] starts at 0 and its
   cursor is 0 or a position below Max. *)
Lemma Slice_reachable_index {I} (s : Slice I) :
  Slice_reachable s ->
  aMin (index s) = 0
  /\ (av (index s) = 0 \/ 0 < av (index s) < aMax (index s)).
Proof.
  induction 1 as [e|s Hs IH|s e Hs IH]; [by split; [|left]| |done].
  unfold Slice_Next.
  set (idx := if negb _ then _ else index s).
  assert (Hidx : aMin idx = 0).
  { subst idx. destruct (negb _); [done|apply IH]. }
  unfold IntsAscending_Next.
  destruct ((aMax idx <=? add Int (av idx) 1) || (add Int (av idx) 1 <=? aMin idx)) eqn:E;
    cbn [snd index aMin aMax av].
  - split; [done|]. left. done.
  - apply orb_false_iff in E as [?%Z.leb_gt ?%Z.leb_gt]. split; [done|]. right. lia.
Qed.

(** X5.  On every Slice a client can hold whose Elems is not empty (its
    length an int), Next returns the element after the cursor, without a
    restart, while there is one, and element 0 with [restarted] otherwise;
    the cursor moves there and Elems is left as it is.  The cursor is 0
    on a fresh Slice and after the length of Elems has changed, so the first
    call on a Slice of two or more elements returns Elems[1], not Elems[0]. *)
Theorem Slice_Next_successor {I} (s : Slice I) :
  Slice_reachable s ->
  Elems s <> [] ->
  Z.of_nat (length (Elems s)) <= int_max Int ->
  let len := Z.of_nat (length (Elems s)) in
  let c := Slice_cursor s in
  let c' := if c + 1 <? len then c + 1 else 0 in
  fst (Slice_Next s)
    = (fun x => (x, negb (c + 1 <? len))) <$> (Elems s !! Z.to_nat c')
  /\ Elems (snd (Slice_Next s)) = Elems s
  /\ Slice_cursor (snd (Slice_Next s)) = c'
  /\ 0 <= c' < len.
Proof.
  intros Hs Hne Hint len c c'.
  destruct (Slice_reachable_index s Hs) as [HMin Hv].
  assert (Hlen : 0 < len) by (subst len; destruct (Elems s); [done|cbn; lia]).
  unfold Slice_Next. fold len.
  set (idx := if negb _ then _ else index s).
  assert (Hidx : idx = mkAsc 0 len c /\ 0 <= c < len).
  { subst idx c. unfold Slice_cursor. fold len.
    destruct (Z.eqb_spec (aMax (index s)) len) as [Heq|Hneq]; cbn [negb].
    - destruct (index s) as [lo hi v]. cbn in *. subst. split; [done|lia].
    - split; [done|lia]. }
  destruct Hidx as [-> Hc].
  unfold IntsAscending_Next. cbn [aMin aMax av]. unfold add.
  rewrite wrap_small by (unfold in_range, int_min, int_max in *; cbn in *; lia).
  subst c'. unfold Slice_cursor.
  destruct (Z.ltb_spec (c + 1) len) as [Hlt|Hge].
  - replace ((len <=? c + 1) || (c + 1 <=? 0)) with false by zbool.
    cbn [fst snd Elems index aMax av negb]. fold len. rewrite Z.eqb_refl.
    unfold slice_at. replace (c + 1 <? 0) with false by zbool.
    split; [by destruct (Elems s !! Z.to_nat (c + 1))|]. split; [done|].
    split; [done|lia].
  - replace ((len <=? c + 1) || (c + 1 <=? 0)) with true by zbool.
    cbn [fst snd Elems index aMax av negb]. fold len. rewrite Z.eqb_refl.
    unfold slice_at. cbn. split; [by destruct (Elems s)|]. split; [done|].
    split; [done|lia].
Qed.

Lemma Slice_Next_successor_witness :
  let s := mkSlice [7; 8; 9]%nat (mkAsc 0 0 0) in
  let len := Z.of_nat (length (Elems s)) in
  let c := Slice_cursor s in
  let c' := if c + 1 <? len then c + 1 else 0 in
  fst (Slice_Next s)
    = (fun x => (x, negb (c + 1 <? len))) <$> (Elems s !! Z.to_nat c')
  /\ Elems (snd (Slice_Next s)) = Elems s
  /\ Slice_cursor (snd (Slice_Next s)) = c'
  /\ 0 <= c' < len.
Proof.
  apply (Slice_Next_successor (mkSlice [7; 8; 9]%nat (mkAsc 0 0 0))).
  - apply reach_literal.
  - discriminate.
  - cbn. lia.
Defined.

(** X6.  Slice.Next on a Slice whose Elems is empty panics (the index it
    computes is out of range), whatever the state of [index]. *)
Theorem Slice_Next_empty_panics {I} (s : Slice I) :
  Elems s = [] -> fst (Slice_Next s) = None.
Proof.
  intros He. unfold Slice_Next. rewrite He.
  destruct (IntsAscending_Next Int _) as [[i r] idx']. cbn [fst].
  unfold slice_at. by destruct (i <? 0).
Qed.

Lemma Slice_Next_empty_panics_witness :
  fst (Slice_Next (mkSlice (@nil nat) (mkAsc 0 0 0))) = None.
Proof. by apply (Slice_Next_empty_panics (mkSlice (@nil nat) (mkAsc 0 0 0))). Defined.

Lemma calls_add {St A} (next : St -> A * St) n m s :
  calls next (n + m) s =
  (fst (calls next n s) ++ fst (calls next m (snd (calls next n s))),
   snd (calls next m (snd (calls next n s)))).
Proof.
  revert s; induction n as [|n IH]; intros s; simpl.
  - by destruct (calls next m s).
  - destruct (next s) as [a s1]. rewrite IH.
    destruct (calls next n s1) as [r s2]; simpl.
    by destruct (calls next m s2).
Qed.

Section RandomFilterRuns.
Context {W I : Type}.
Variable inner_Next : W -> (I * bool) * W.
Variable Float64 : W -> PrimFloat.float * W.
Variable probability : PrimFloat.float.

Local Abbreviation pull := (pull inner_Next Float64 probability).
Local Abbreviation loop := (randomFilter_loop inner_Next Float64 probability).
Local Abbreviation Next := (randomFilter_Next inner_Next Float64 probability).
Local Abbreviation Nexts := (randomFilter_calls inner_Next Float64 probability).

(** X7.  If the generator keeps no draw (as with a probability of 0, the
    draws of Float64 being at least 0), randomFilter.Next never returns:
    every number of iterations leaves the loop running. *)
Theorem randomFilter_Next_never_returns :
  (forall w, snd (fst (pull w)) = false) ->
  forall fuel w, Next fuel w = None.
Proof.
  intros Hno fuel. unfold randomFilter_Next. generalize false.
  induction fuel as [|fuel IH]; intros acc w; [done|].
  rewrite randomFilter_loop_step. specialize (Hno w).
  destruct (pull w) as [[[c r] k] w']. cbn in Hno. subst k. apply IH.
Qed.

(* The pulls of one call that returns: some discarded ones, then the kept
   one, which is returned with the restarts of all of them. *)
Lemma randomFilter_Next_pulls fuel w c rf w' :
  Next fuel w = Some ((c, rf), w') ->
  exists k r,
    Forall (fun t => snd t = false) (fst (calls pull k w))
    /\ calls pull (S k) w = (fst (calls pull k w) ++ [(c, r, true)], w')
    /\ rf = any_restarted (fst (calls pull k w) ++ [(c, r, true)]).
Proof.
  unfold randomFilter_Next. intros HN.
  destruct (randomFilter_loop_returns inner_Next Float64 probability _ _ _ _ HN)
    as (k & c0 & r & w0 & Hk & Hfk).
  rewrite (randomFilter_loop_kept inner_Next Float64 probability k false w c0 r w0
             fuel Hfk Hk) in HN.
  injection HN as <- <- <-. destruct Hfk as [Hd Hp].
  exists k, r. split; [done|]. split; [|done].
  replace (S k) with (k + 1)%nat by lia. rewrite calls_add. cbn [calls].
  by rewrite Hp.
Qed.

Lemma filter_kept_discarded (pulls : list (I * bool * bool)) :
  Forall (fun t => snd t = false) pulls ->
  filter (fun t => snd t = true) pulls = [].
Proof.
  induction 1 as [|t pulls Ht _ IH]; [done|]. rewrite filter_cons.
  destruct (decide (snd t = true)) as [Hk|_]; [congruence|done].
Qed.

(** X8.  Over any number of consecutive calls of randomFilter.Next that
    return, the values returned are, in order, the values of the inner
    pulls the generator kept, one call per kept pull, and some call
    reports [restarted] exactly when some inner pull made during these
    calls, kept or discarded, did. *)
Theorem randomFilter_calls_kept_pulls fuel n : forall w outs w',
  Nexts fuel n w = Some (outs, w') ->
  exists P,
    snd (calls pull P w) = w'
    /\ map fst outs
       = map (fun t => fst (fst t))
           (filter (fun t => snd t = true) (fst (calls pull P w)))
    /\ existsb snd outs = any_restarted (fst (calls pull P w))
    /\ length outs = n.
Proof.
  induction n as [|n IH]; intros w outs w' HN; cbn [randomFilter_calls] in HN.
  - injection HN as <- <-. by exists O.
  - destruct (Next fuel w) as [[[c rf] w1]|] eqn:H1; [|done].
    destruct (Nexts fuel n w1) as [[rest w2]|] eqn:H2; [|done].
    injection HN as <- <-.
    destruct (randomFilter_Next_pulls fuel w c rf w1 H1) as (k & r & Hd & Hc & Hrf).
    destruct (IH w1 rest w2 H2) as (P & Hw & Hvals & Hres & Hlen).
    exists (S k + P)%nat. rewrite calls_add, Hc. cbn [fst snd].
    split; [done|]. split; [|split].
    + rewrite !filter_app, (filter_kept_discarded _ Hd). cbn [app].
      rewrite filter_cons. rewrite decide_True by done.
      rewrite filter_nil. cbn [app map fst]. by rewrite Hvals.
    + unfold any_restarted in *. cbn [existsb snd]. rewrite !existsb_app.
      rewrite Hres, Hrf, existsb_app. done.
    + cbn. by rewrite Hlen.
Qed.
End RandomFilterRuns.

(* Every draw is 1, the probability a half: nothing is kept. *)
Lemma randomFilter_Next_never_returns_witness :
  randomFilter_Next count3_Next one_Float64 half 100 (O, O) = None.
Proof.
  refine (randomFilter_Next_never_returns count3_Next one_Float64 half _
            100%nat (O, O)).
  intros w. reflexivity.
Defined.

(* Two calls on the filter of the examples: six pulls, the third and the
   sixth kept. *)
Lemma randomFilter_calls_kept_pulls_witness :
  exists P,
    snd (calls (pull count3_Next third_Float64 half) P (O, O)) = (6%nat, 6%nat)
    /\ map fst [(2%nat, true); (2%nat, true)]
       = map (fun t => fst (fst t))
           (filter (fun t => snd t = true)
              (fst (calls (pull count3_Next third_Float64 half) P (O, O))))
    /\ existsb snd [(2%nat, true); (2%nat, true)]
       = any_restarted (fst (calls (pull count3_Next third_Float64 half) P (O, O)))
    /\ length [(2%nat, true); (2%nat, true)] = 2%nat.
Proof.
  apply (randomFilter_calls_kept_pulls count3_Next third_Float64 half 5 2 (O, O)
           [(2%nat, true); (2%nat, true)] (6%nat, 6%nat)).
  reflexivity.
Defined.

End SeqFacts.

(** ** Weighted sampling *)
Module WeightedFacts.
Import GoInt GoIntFacts Weighted.

(* Wrapping changes a value by a multiple of the modulus. *)
Lemma wrap_shift K z : exists q, wrap K z = z + q * modulus K.
Proof.
  unfold wrap. exists (- ((z - int_min K) / modulus K)).
  assert (Hm : modulus K <> 0) by (unfold modulus; destruct K; cbn; lia).
  pose proof (Z.div_mod (z - int_min K) (modulus K) Hm). lia.
Qed.

Lemma total_from_shift {I} (w : Weighted I) : forall acc,
  exists q,
    fold_left (fun acc e => add Int acc (Weight e)) w acc
    = acc + sum_weights w + q * modulus Int.
Proof.
  induction w as [|e w IH]; intros acc; cbn [fold_left sum_weights foldr].
  - exists 0. lia.
  - destruct (IH (add Int acc (Weight e))) as [q1 ->].
    destruct (wrap_shift Int (acc + Weight e)) as [q2 Hq2].
    unfold add. rewrite Hq2. exists (q1 + q2). fold (sum_weights w). lia.
Qed.

Lemma sum_weights_nonneg {I} (w : Weighted I) :
  Forall (fun e => 0 <= Weight e) w -> 0 <= sum_weights w.
Proof.
  induction 1 as [|e w He _ IH]; cbn [sum_weights foldr]; [lia|].
  fold (sum_weights w). lia.
Qed.

Lemma total_in_range {I} (w : Weighted I) : in_range Int (total w).
Proof.
  unfold total. destruct w as [|e w _] using rev_ind; [apply in_range_0|].
  rewrite fold_left_app. cbn [fold_left]. apply wrap_in_range.
Qed.

(* Without overflow the computed total is the sum. *)
Lemma total_no_overflow {I} (w : Weighted I) :
  Forall (fun e => 0 <= Weight e) w -> sum_weights w <= int_max Int ->
  total w = sum_weights w.
Proof.
  intros Hw Hsum. unfold total.
  enough (forall acc, 0 <= acc -> acc + sum_weights w <= int_max Int ->
    fold_left (fun acc e => add Int acc (Weight e)) w acc = acc + sum_weights w)
    as H by (rewrite H; lia).
  clear Hsum. induction Hw as [|e w He Hw IH]; intros acc Hacc Hsum;
    cbn [fold_left sum_weights foldr] in *; [lia|].
  fold (sum_weights w) in *. pose proof (sum_weights_nonneg w Hw).
  unfold add. rewrite wrap_small by (unfold in_range; cbn in *; lia).
  rewrite IH; lia.
Qed.

(* A positive computed total never exceeds the sum of non-negative
   weights, also when the accumulation wrapped. *)
Lemma total_le_sum {I} (w : Weighted I) :
  Forall (fun e => 0 <= Weight e) w -> 0 < total w -> total w <= sum_weights w.
Proof.
  intros Hw Hpos. unfold total in *.
  destruct (total_from_shift w 0) as [q Hq].
  pose proof (sum_weights_nonneg w Hw) as Hs.
  assert (Hr : in_range Int (fold_left (fun acc e => add Int acc (Weight e)) w 0)).
  { destruct w as [|e w] using rev_ind; [apply in_range_0|].
    rewrite fold_left_app. cbn [fold_left]. apply wrap_in_range. }
  rewrite Hq in *. unfold in_range, int_min, int_max, modulus in *. cbn in *.
  lia.
Qed.

(* The scan stops on the entry whose partition holds the draw. *)
Lemma scan_owner {I} (w : Weighted I) : forall t,
  Forall (fun e => 0 <= Weight e <= int_max Int) w ->
  0 <= t <= int_max Int -> t < sum_weights w ->
  exists i e, w !! i = Some e /\
    sum_weights (take i w) <= t < sum_weights (take i w) + Weight e /\
    scan w t = Some (Item e).
Proof.
  induction w as [|e w IH]; intros t Hw Ht Hsum;
    cbn [sum_weights foldr scan] in *; [lia|].
  fold (sum_weights w) in *. apply Forall_cons_1 in Hw as [He Hw].
  unfold sub. rewrite wrap_small by (unfold in_range, int_min, int_max in *; cbn in *; lia).
  destruct (Z.ltb_spec (t - Weight e) 0) as [Hneg|Hpos].
  - exists O, e. cbn. split; [done|]. split; [lia|done].
  - destruct (IH (t - Weight e) Hw ltac:(lia) ltac:(lia)) as (i & e' & Hi & Hb & Hs).
    exists (S i), e'. cbn [lookup list_lookup take sum_weights foldr].
    fold (sum_weights (take i w)). split; [done|]. split; [lia|done].
Qed.

Section RandomFacts.
Context {I R : Type}.
Variable Intn : R -> Z -> Z * R.

(** C9.  For weights that are all non-negative ints and a computed total
    above 0: for every draw t in [0, total) the scan of the closure returned
    by Random stops on the entry whose weight partition holds t (the sum of
    the weights before it is at most t, and t lies below that sum plus its
    own weight); and every call of the closure in which rand.Intn keeps its
    contract, its draw lying in [0, total), returns the item of the entry
    whose partition holds that draw, and so never reaches
    panic("unreachable"). *)
Theorem Random_scan_finds_owner (w : Weighted I) :
  Forall (fun e => 0 <= Weight e <= int_max Int) w ->
  0 < total w ->
  (forall t, 0 <= t < total w ->
     exists i e, w !! i = Some e /\
       sum_weights (take i w) <= t < sum_weights (take i w) + Weight e /\
       scan w t = Some (Item e))
  /\ (forall r, 0 <= fst (Intn r (total w)) < total w ->
       exists i e, w !! i = Some e /\
         sum_weights (take i w) <= fst (Intn r (total w))
           < sum_weights (take i w) + Weight e /\
         Random_next Intn w r = Some (Item e, snd (Intn r (total w)))).
Proof.
  intros Hw Hpos.
  assert (Hw0 : Forall (fun e => 0 <= Weight e) w).
  { clear Hpos. induction Hw; constructor; [lia|done]. }
  pose proof (total_le_sum w Hw0 Hpos) as Hle.
  assert (Hmax : total w <= int_max Int).
  { unfold total. destruct w as [|e w] using rev_ind; [done|].
    rewrite fold_left_app. cbn [fold_left]. apply wrap_in_range. }
  assert (Hscan : forall t, 0 <= t < total w ->
     exists i e, w !! i = Some e /\
       sum_weights (take i w) <= t < sum_weights (take i w) + Weight e /\
       scan w t = Some (Item e)).
  { intros t Ht. apply scan_owner; [done|lia|lia]. }
  split; [exact Hscan|].
  intros r Ht. unfold Random_next.
  replace (total w <=? 0) with false by zbool.
  destruct (Intn r (total w)) as [t r']. cbn [fst snd] in *.
  destruct (Hscan t Ht) as (i & e & Hi & Hin & Hs).
  exists i, e. by rewrite Hs.
Qed.
End RandomFacts.

Lemma script_Intn_range (r : list Z) n : 0 < n -> 0 <= fst (script_Intn r n) < n.
Proof.
  intros Hn. unfold script_Intn. cbn [fst].
  destruct r as [|x r]; [lia|]. apply Z.mod_pos_bound. lia.
Qed.

(* Weights 2, 0, 3 and a generator whose next draw is 4: it falls in the
   partition [2, 5) of the last entry, whose item the closure returns, not
   that of the first. *)
Lemma Random_scan_finds_owner_witness :
  let w := [mkItemWeight 10%nat 2; mkItemWeight 20%nat 0; mkItemWeight 30%nat 3] in
  exists i e, w !! i = Some e /\
    sum_weights (take i w) <= fst (script_Intn [4] (total w))
      < sum_weights (take i w) + Weight e /\
    Random_next script_Intn w [4] = Some (Item e, snd (script_Intn [4] (total w))).
Proof.
  apply (proj2 (Random_scan_finds_owner script_Intn
    [mkItemWeight 10%nat 2; mkItemWeight 20%nat 0; mkItemWeight 30%nat 3]
    ltac:(repeat constructor; cbn; lia) ltac:(vm_compute; reflexivity)) [4]).
  change (0 <= 4 < 5). lia.
Defined.

(** *** The deck *)

Lemma insert_Permutation {A} (l : list A) i x y :
  l !! i = Some x -> <[i := y]> l ≡ₚ y :: delete i l.
Proof.
  intros Hi. pose proof (lookup_lt_Some _ _ _ Hi) as Hlt.
  rewrite (delete_Permutation (<[i := y]> l) i y)
    by (by apply list_lookup_insert_eq).
  f_equiv. revert i Hi Hlt. induction l as [|a l IH]; intros [|i] Hi Hlt;
    cbn in *; try done; try lia.
  f_equiv. apply IH; [done|lia].
Qed.

Lemma swap_Permutation d i j d' : swap d i j = Some d' -> d' ≡ₚ d.
Proof.
  unfold swap. destruct (d !! i) as [a|] eqn:Hi; [|done].
  destruct (d !! j) as [b|] eqn:Hj; [|done]. intros [= <-].
  destruct (decide (i = j)) as [->|Hne].
  - assert (a = b) as -> by congruence.
    by rewrite !list_insert_id by (by rewrite ?list_insert_id).
  - assert (Hj1 : <[i := b]> d !! j = Some b) by (by rewrite list_lookup_insert_ne).
    pose proof (insert_Permutation _ j b a Hj1) as H1.
    pose proof (delete_Permutation _ j b Hj1) as H2.
    pose proof (insert_Permutation d i a b Hi) as H3.
    pose proof (delete_Permutation d i a Hi) as H4.
    assert (H5 : delete i d ≡ₚ delete j (<[i := b]> d)).
    { apply (Permutation_cons_inv (a := b)). by rewrite <- H3, <- H2. }
    by rewrite H1, <- H5, <- H4.
Qed.

Lemma swap_in_range d i j :
  (i < length d)%nat -> (j < length d)%nat -> is_Some (swap d i j).
Proof.
  intros [a Ha]%lookup_lt_is_Some_2 [b Hb]%lookup_lt_is_Some_2.
  unfold swap. rewrite Ha, Hb. eauto.
Qed.

Lemma apply_swaps_Permutation swaps : forall d,
  Forall (fun ij => (fst ij < length d)%nat /\ (snd ij < length d)%nat) swaps ->
  exists d', apply_swaps d swaps = Some d' /\ d' ≡ₚ d.
Proof.
  induction swaps as [|[i j] swaps IH]; intros d Hr; cbn [apply_swaps].
  - by exists d.
  - apply Forall_cons_1 in Hr as [[Hi Hj] Hr]. cbn in Hi, Hj.
    destruct (swap_in_range d i j Hi Hj) as [d1 Hd1]. rewrite Hd1.
    pose proof (swap_Permutation _ _ _ _ Hd1) as Hp.
    destruct (IH d1) as (d' & Hd' & Hp').
    { by rewrite (Permutation_length Hp). }
    exists d'. split; [done|]. by rewrite Hp'.
Qed.

#[global] Instance items_of_Permutation {I} (w : Weighted I) :
  Proper ((≡ₚ) ==> (≡ₚ)) (items_of w).
Proof. intros d1 d2 Hd. unfold items_of. by rewrite Hd. Qed.

Lemma items_of_app {I} (w : Weighted I) d1 d2 :
  items_of w (d1 ++ d2) = items_of w d1 ++ items_of w d2.
Proof. apply omap_app. Qed.

Lemma items_of_valid_length {I} (w : Weighted I) d :
  Forall (fun k => (k < length w)%nat) d -> length (items_of w d) = length d.
Proof.
  induction 1 as [|k d Hk _ IH]; [done|]. unfold items_of in *.
  cbn [omap list_omap].
  destruct (lookup_lt_is_Some_2 w k Hk) as [e ->]. cbn. by rewrite IH.
Qed.

Lemma build_deck_from_valid {I} (rest : Weighted I) : forall i,
  Forall (fun k => (i <= k < i + length rest)%nat) (build_deck_from i rest).
Proof.
  induction rest as [|e rest IH]; intros i; cbn [build_deck_from]; [constructor|].
  apply Forall_app. split.
  - apply Forall_replicate. cbn. lia.
  - eapply Forall_impl; [apply IH|]. cbn. lia.
Qed.

Lemma build_deck_valid {I} (w : Weighted I) :
  Forall (fun k => (k < length w)%nat) (build_deck w).
Proof.
  eapply Forall_impl; [apply (build_deck_from_valid w 0)|]. cbn. lia.
Qed.

Lemma build_deck_from_length {I} (rest : Weighted I) : forall i,
  Forall (fun e => 0 <= Weight e) rest ->
  Z.of_nat (length (build_deck_from i rest)) = sum_weights rest.
Proof.
  induction rest as [|e rest IH]; intros i Hw;
    cbn [build_deck_from sum_weights foldr]; [done|].
  apply Forall_cons_1 in Hw as [He Hw]. fold (sum_weights rest).
  rewrite length_app, length_replicate, Nat2Z.inj_add, (IH _ Hw). lia.
Qed.

Lemma occurrences_app {I} `{EqDecision I} (x : I) l1 l2 :
  occurrences x (l1 ++ l2) = occurrences x l1 + occurrences x l2.
Proof. unfold occurrences. rewrite filter_app, length_app. lia. Qed.

Lemma occurrences_replicate {I} `{EqDecision I} (x y : I) n :
  occurrences x (replicate n y) = if decide (y = x) then Z.of_nat n else 0.
Proof.
  unfold occurrences. induction n as [|n IH]; [by destruct (decide (y = x))|].
  cbn [replicate]. rewrite filter_cons.
  destruct (decide (y = x)); cbn [length]; lia.
Qed.

Lemma occurrences_Permutation {I} `{EqDecision I} (x : I) l1 l2 :
  l1 ≡ₚ l2 -> occurrences x l1 = occurrences x l2.
Proof. intros Hp. unfold occurrences. by rewrite Hp. Qed.

Lemma occurrences_take_le {I} `{EqDecision I} (x : I) n l :
  occurrences x (take n l) <= occurrences x l.
Proof.
  rewrite <- (take_drop n l) at 2. rewrite occurrences_app.
  unfold occurrences. lia.
Qed.

Lemma weight_of_cons {I} `{EqDecision I} (x : I) e (w : Weighted I) :
  weight_of x (e :: w) =
  (if decide (Item e = x) then Weight e else 0) + weight_of x w.
Proof.
  unfold weight_of. rewrite filter_cons.
  destruct (decide (Item e = x)); [reflexivity|lia].
Qed.

(* The deck holds every item value as often as its weight says. *)
Lemma build_deck_from_occurrences {I} `{EqDecision I} (x : I)
    (rest : Weighted I) : forall pre,
  Forall (fun e => 0 <= Weight e) rest ->
  occurrences x (items_of (pre ++ rest) (build_deck_from (length pre) rest))
  = weight_of x rest.
Proof.
  induction rest as [|e rest IH]; intros pre Hw; cbn [build_deck_from]; [done|].
  apply Forall_cons_1 in Hw as [He Hw].
  rewrite items_of_app, occurrences_app, weight_of_cons.
  assert (Hrep : items_of (pre ++ e :: rest)
                   (replicate (Z.to_nat (Weight e)) (length pre))
                 = replicate (Z.to_nat (Weight e)) (Item e)).
  { induction (Z.to_nat (Weight e)) as [|n IHn]; [done|].
    unfold items_of in *. cbn. rewrite list_lookup_middle by done. cbn.
    by rewrite IHn. }
  rewrite Hrep, occurrences_replicate.
  specialize (IH (pre ++ [e]) Hw).
  rewrite <- (assoc_L (++)) in IH. cbn in IH.
  rewrite length_app in IH. cbn in IH.
  replace (length pre + 1)%nat with (S (length pre)) in IH by lia.
  rewrite IH. destruct (decide (Item e = x)); lia.
Qed.

Lemma build_deck_occurrences {I} `{EqDecision I} (x : I) (w : Weighted I) :
  Forall (fun e => 0 <= Weight e) w ->
  occurrences x (items_of w (build_deck w)) = weight_of x w.
Proof. apply (build_deck_from_occurrences x w []). Qed.

Lemma generate_loop_app {St A} (fn : St -> option (A * St)) n m st :
  generate_loop fn (n + m) st =
  match generate_loop fn n st with
  | None => None
  | Some (l1, st1) =>
      match generate_loop fn m st1 with
      | None => None
      | Some (l2, st2) => Some (l1 ++ l2, st2)
      end
  end.
Proof.
  revert st; induction n as [|n IH]; intros st; cbn [generate_loop Nat.add].
  - by destruct (generate_loop fn m st) as [[l2 st2]|].
  - destruct (fn st) as [[a st1]|]; [|done]. rewrite IH.
    destruct (generate_loop fn n st1) as [[l1 st2]|]; [|done].
    by destruct (generate_loop fn m st2) as [[l2 st3]|].
Qed.

(* A run depends on its starting state through the first call only. *)
Lemma generate_loop_first {St A} (fn : St -> option (A * St)) n st st' :
  (0 < n)%nat -> fn st = fn st' ->
  generate_loop fn n st = generate_loop fn n st'.
Proof. destruct n; [lia|]. cbn [generate_loop]. by intros _ ->. Qed.

Lemma occurrences_concat {I} `{EqDecision I} (x : I) (ps : list (list I)) c :
  Forall (fun p => occurrences x p = c) ps ->
  occurrences x (concat ps) = Z.of_nat (length ps) * c.
Proof.
  induction 1 as [|p ps Hp _ IH]; [done|].
  cbn [concat length]. rewrite occurrences_app, IH, Hp. lia.
Qed.

(* The draws of pass [p] inside a run of whole passes of length [T]. *)
Lemma drop_concat_passes {A} (ps : list (list A)) T : forall p,
  Forall (fun q => length q = T) ps ->
  drop (p * T) (concat ps) = concat (drop p ps).
Proof.
  induction ps as [|q ps IH]; intros p Hl; [cbn; by rewrite !drop_nil|].
  apply Forall_cons_1 in Hl as [Hq Hl]. destruct p as [|p]; [done|].
  cbn [concat drop Nat.mul]. rewrite drop_app_ge by lia.
  replace (T + p * T - length q)%nat with (p * T)%nat by lia. by apply IH.
Qed.

Section RandomDeckFacts.
Context {I R : Type} `{EqDecision I}.
Variable Shuffle : R -> nat -> list (nat * nat) * R.
(* The contract of rand.Shuffle(n, swap): swap is called with indexes
   below n only. *)
Hypothesis Shuffle_range : forall r n,
  Forall (fun ij => (fst ij < n)%nat /\ (snd ij < n)%nat) (fst (Shuffle r n)).
Variable w : Weighted I.

Local Abbreviation next := (deck_next Shuffle w).

(* Between two reshuffles the closure reads the deck slot by slot. *)
Lemma deck_next_draws n : forall d i r,
  Forall (fun k => (k < length w)%nat) d ->
  (i + n = length d)%nat ->
  generate_loop next n (mkDeckGen d i r) =
  Some (items_of w (drop i d), mkDeckGen d (length d) r).
Proof.
  induction n as [|n IH]; intros d i r Hv Hn; cbn [generate_loop].
  - replace i with (length d) by lia. by rewrite drop_all.
  - destruct (lookup_lt_is_Some_2 d i ltac:(lia)) as [k Hk].
    destruct (lookup_lt_is_Some_2 w k) as [e He].
    { by eapply (Forall_lookup_1 _ _ _ _ Hv). }
    unfold deck_next at 1. cbn [index deck rng].
    replace (i =? length d)%nat with false by (symmetry; apply Nat.eqb_neq; lia).
    cbn [index deck rng].
    rewrite Hk, He, (IH d (S i) r Hv) by lia.
    rewrite (drop_S d k i Hk). unfold items_of. cbn [omap list_omap].
    by rewrite He.
Qed.

(* One pass: a reshuffle, then every slot of the reshuffled deck once. *)
Lemma deck_next_pass g :
  between_passes w g ->
  exists out g',
    generate_loop next (length (build_deck w)) g = Some (out, g')
    /\ out ≡ₚ items_of w (build_deck w) /\ between_passes w g'.
Proof.
  intros [Hi Hp]. rewrite <- (Permutation_length Hp).
  destruct g as [d i r]. cbn [index deck] in *. subst i.
  destruct (decide (length d = 0%nat)) as [Hz|Hnz].
  { apply nil_length_inv in Hz as ->.
    exists [], (mkDeckGen [] 0%nat r). cbn [length generate_loop].
    split; [done|]. split; [|done]. by rewrite <- Hp. }
  destruct (Shuffle r (length d)) as [swaps r'] eqn:HS.
  destruct (apply_swaps_Permutation swaps d) as (d1 & Hd1 & Hp1).
  { pose proof (Shuffle_range r (length d)) as Hr. by rewrite HS in Hr. }
  assert (Hlen : length d1 = length d) by (by rewrite Hp1).
  assert (Hv : Forall (fun k => (k < length w)%nat) d1).
  { rewrite Hp1, Hp. apply build_deck_valid. }
  assert (Hstep : next (mkDeckGen d (length d) r) = next (mkDeckGen d1 0%nat r')).
  { unfold deck_next. cbn [index deck rng].
    rewrite Nat.eqb_refl, HS, Hd1.
    replace (0 =? length d1)%nat with false; [done|].
    symmetry. apply Nat.eqb_neq. lia. }
  assert (Hrun : generate_loop next (length d) (mkDeckGen d (length d) r)
                 = generate_loop next (length d1) (mkDeckGen d1 0%nat r')).
  { rewrite Hlen. apply generate_loop_first; [lia|done]. }
  rewrite Hrun, (deck_next_draws (length d1) d1 0%nat r' Hv) by lia.
  exists (items_of w d1), (mkDeckGen d1 (length d1) r').
  split; [done|]. unfold between_passes. cbn [index deck].
  split; [by rewrite Hp1, Hp|]. split; [done|]. by rewrite Hp1.
Qed.

(* Whole passes, one after the other. *)
Lemma deck_next_passes k : forall g,
  between_passes w g ->
  exists ps g',
    generate_loop next (k * length (build_deck w)) g = Some (concat ps, g')
    /\ length ps = k
    /\ Forall (fun p => p ≡ₚ items_of w (build_deck w)) ps
    /\ between_passes w g'.
Proof.
  induction k as [|k IH]; intros g Hg.
  - exists [], g. cbn. split; [done|]. split; [done|]. split; [constructor|done].
  - destruct (deck_next_pass g Hg) as (out & g1 & Hrun & Hp & Hg1).
    destruct (IH g1 Hg1) as (ps & g' & Hrun' & Hlen & Hps & Hg').
    exists (out :: ps), g'. cbn [Nat.mul].
    rewrite generate_loop_app, Hrun, Hrun'. cbn [concat length].
    split; [done|]. split; [lia|]. split; [by constructor|done].
Qed.

(* The generator returned by RandomDeck, [m] whole passes later, and [k]
   whole passes from there. *)
Lemma RandomDeck_passes (r : R) (m k : nat) :
  Forall (fun e => 0 <= Weight e) w ->
  sum_weights w <= int_max Int ->
  exists g out0 g0 ps g',
    RandomDeck w r = Some g
    /\ Generate (Z.of_nat m * total w) next g = Some (out0, g0)
    /\ Generate (Z.of_nat k * total w) next g0 = Some (concat ps, g')
    /\ length ps = k
    /\ Forall (fun p => p ≡ₚ items_of w (build_deck w)) ps
    /\ length (build_deck w) = Z.to_nat (total w).
Proof.
  intros Hw Hsum. pose proof (total_no_overflow w Hw Hsum) as Htot.
  pose proof (sum_weights_nonneg w Hw) as Hs.
  pose proof (build_deck_from_length w 0%nat Hw) as HT. fold (build_deck w) in HT.
  assert (HT' : length (build_deck w) = Z.to_nat (total w)) by lia.
  assert (Hgen : forall n, Generate (Z.of_nat n * total w) next =
                           generate_loop next (n * length (build_deck w))).
  { intros n. unfold Generate. replace (Z.of_nat n * total w <? 0) with false by zbool.
    f_equal. rewrite HT'. lia. }
  unfold RandomDeck. replace (total w <? 0) with false by zbool.
  set (g := mkDeckGen (build_deck w) (length (build_deck w)) r).
  assert (Hg : between_passes w g) by done.
  destruct (deck_next_passes m g Hg) as (ps0 & g0 & Hrun0 & _ & _ & Hg0).
  destruct (deck_next_passes k g0 Hg0) as (ps & g' & Hrun & Hlen & Hps & _).
  exists g, (concat ps0), g0, ps, g'. rewrite !Hgen, Hrun0, Hrun. done.
Qed.

Lemma pass_occurrences (x : I) (ps : list (list I)) :
  Forall (fun e => 0 <= Weight e) w ->
  Forall (fun p => p ≡ₚ items_of w (build_deck w)) ps ->
  Forall (fun p => occurrences x p = weight_of x w) ps
  /\ Forall (fun p => length p = length (build_deck w)) ps.
Proof.
  intros Hw Hps. split; (eapply Forall_impl; [exact Hps|]); cbn; intros p Hp.
  - by rewrite (occurrences_Permutation x _ _ Hp), build_deck_occurrences.
  - rewrite (Permutation_length Hp). apply items_of_valid_length, build_deck_valid.
Qed.

(* Pass [p] of a run of [k] whole passes. *)
Lemma pass_window (ps : list (list I)) p :
  Forall (fun q => length q = length (build_deck w)) ps ->
  (p < length ps)%nat ->
  exists q rest,
    q ∈ ps /\ drop (p * length (build_deck w)) (concat ps) = q ++ rest.
Proof.
  intros Hl Hp. rewrite (drop_concat_passes ps _ p Hl).
  destruct (lookup_lt_is_Some_2 ps p Hp) as [q Hq].
  exists q, (concat (drop (S p) ps)). split; [by eapply list_elem_of_lookup_2|].
  by rewrite (drop_S ps q p Hq).
Qed.

(** C1.  For weights that are all positive, with total() their sum (no
    overflow: the deck has that many slots), the generator returned by
    RandomDeck, taken at the start of a pass (fresh, or [m] whole passes
    later), returns in [k] times [total] consecutive calls every item value
    exactly [k] times its weight, and no prefix of any of these passes holds
    an item value more often than its weight: whatever swaps the shuffle
    makes.  [weight_of x w] is the weight of [x] in [w], Weight_i for the
    item of an entry i that no other entry repeats (weight_of_unique). *)
Theorem RandomDeck_full_passes (r : R) (m k : nat) :
  Forall (fun e => 0 < Weight e) w ->
  total w = sum_weights w ->
  exists g out0 g0 out g',
    RandomDeck w r = Some g
    /\ Generate (Z.of_nat m * total w) next g = Some (out0, g0)
    /\ Generate (Z.of_nat k * total w) next g0 = Some (out, g')
    /\ (forall x, occurrences x out = Z.of_nat k * weight_of x w)
    /\ (forall p n x,
          (p < k)%nat -> (n <= Z.to_nat (total w))%nat ->
          occurrences x (take n (drop (p * Z.to_nat (total w)) out))
          <= weight_of x w).
Proof.
  intros Hpos Htotal.
  assert (Hsum : sum_weights w <= int_max Int).
  { rewrite <- Htotal. apply total_in_range. }
  assert (Hw : Forall (fun e => 0 <= Weight e) w).
  { eapply Forall_impl; [exact Hpos|]. cbn. lia. }
  destruct (RandomDeck_passes r m k Hw Hsum)
    as (g & out0 & g0 & ps & g' & HR & H0 & Hk & Hlen & Hps & HT).
  exists g, out0, g0, (concat ps), g'.
  split; [done|]. split; [done|]. split; [done|]. split.
  - intros x. destruct (pass_occurrences x ps Hw Hps) as [Hocc _].
    by rewrite (occurrences_concat x ps _ Hocc), Hlen.
  - intros p n x Hp Hn. destruct (pass_occurrences x ps Hw Hps) as [Hocc Hl].
    rewrite <- HT in *.
    destruct (pass_window ps p Hl ltac:(lia)) as (q & rest & Hq & ->).
    pose proof (proj1 (Forall_forall _ _) Hocc q Hq) as Hoq.
    pose proof (proj1 (Forall_forall _ _) Hl q Hq) as Hlq.
    cbn in Hoq, Hlq. rewrite take_app_le by lia.
    rewrite <- Hoq. apply occurrences_take_le.
Qed.

(** C4 (as amended).  For non-negative weights with a total above 0,
    total() being their sum, over every window of [total] consecutive draws
    that starts on a pass boundary, that is at draw p * total of the
    generator returned by RandomDeck, every item value appears exactly as
    often as its weight, whatever swaps the shuffle makes. *)
Theorem RandomDeck_aligned_windows (r : R) (k : nat) :
  Forall (fun e => 0 <= Weight e) w ->
  total w = sum_weights w ->
  0 < total w ->
  exists g out g',
    RandomDeck w r = Some g
    /\ Generate (Z.of_nat k * total w) next g = Some (out, g')
    /\ (forall p x,
          (p < k)%nat ->
          occurrences x (take (Z.to_nat (total w))
                           (drop (p * Z.to_nat (total w)) out))
          = weight_of x w).
Proof.
  intros Hw Htotal _.
  assert (Hsum : sum_weights w <= int_max Int).
  { rewrite <- Htotal. apply total_in_range. }
  destruct (RandomDeck_passes r 0 k Hw Hsum)
    as (g & out0 & g0 & ps & g' & HR & H0 & Hk & Hlen & Hps & HT).
  assert (g0 = g) as ->.
  { unfold Generate in H0. change (Z.of_nat 0) with 0 in H0.
    rewrite Z.mul_0_l in H0. change (Some ([], g) = Some (out0, g0)) in H0.
    congruence. }
  exists g, (concat ps), g'. split; [done|]. split; [done|].
  intros p x Hp. destruct (pass_occurrences x ps Hw Hps) as [Hocc Hl].
  rewrite <- HT in *.
  destruct (pass_window ps p Hl ltac:(lia)) as (q & rest & Hq & ->).
  pose proof (proj1 (Forall_forall _ _) Hocc q Hq) as Hoq.
  pose proof (proj1 (Forall_forall _ _) Hl q Hq) as Hlq.
  cbn in Hoq, Hlq. by rewrite <- Hlq, take_app_length.
Qed.
End RandomDeckFacts.

(* An item value with no entry has weight 0; the item of an entry that no
   other entry repeats has the weight of that entry. *)
Lemma weight_of_absent {I} `{EqDecision I} (x : I) (w : Weighted I) :
  (forall j e', w !! j = Some e' -> Item e' <> x) -> weight_of x w = 0.
Proof.
  induction w as [|e0 w IH]; intros Hab; [done|]. rewrite weight_of_cons.
  destruct (decide (Item e0 = x)) as [Heq|_]; [by destruct (Hab O e0)|].
  rewrite IH; [done|]. intros j e' Hj. apply (Hab (S j) e' Hj).
Qed.

Lemma weight_of_unique {I} `{EqDecision I} (w : Weighted I) : forall i e,
  w !! i = Some e ->
  (forall j e', w !! j = Some e' -> Item e' = Item e -> j = i) ->
  weight_of (Item e) w = Weight e.
Proof.
  induction w as [|e0 w IH]; intros i e Hi Hu; [done|]. rewrite weight_of_cons.
  destruct i as [|i]; cbn in Hi.
  - injection Hi as ->. rewrite decide_True by done.
    rewrite weight_of_absent; [lia|].
    intros j e' Hj Heq. by specialize (Hu (S j) e' Hj Heq).
  - rewrite decide_False.
    + rewrite (IH i e Hi); [lia|].
      intros j e' Hj Heq. specialize (Hu (S j) e' Hj Heq). lia.
    + intros Heq. by specialize (Hu O e0 eq_refl Heq).
Qed.

Lemma fisher_yates_range i : forall r,
  Forall (fun ij => (fst ij < S i)%nat /\ (snd ij < S i)%nat) (fst (fisher_yates i r)).
Proof.
  induction i as [|i IH]; intros r; cbn [fisher_yates]; [constructor|].
  destruct (script_Intn r (Z.of_nat (S (S i)))) as [j r1] eqn:Ej.
  pose proof (script_Intn_range r (Z.of_nat (S (S i))) ltac:(lia)) as Hj.
  rewrite Ej in Hj. cbn [fst] in Hj.
  specialize (IH r1). destruct (fisher_yates i r1) as [rest r2]. cbn [fst] in *.
  constructor; [cbn; lia|].
  eapply Forall_impl; [exact IH|]. cbn. lia.
Qed.

Lemma script_Shuffle_range (r : list Z) n :
  Forall (fun ij => (fst ij < n)%nat /\ (snd ij < n)%nat) (fst (script_Shuffle r n)).
Proof.
  unfold script_Shuffle. destruct n as [|n]; [constructor|].
  replace (S n - 1)%nat with n by lia. apply fisher_yates_range.
Qed.

(* Weights 1 and 2, two passes from the fresh generator. *)
Lemma RandomDeck_full_passes_witness :
  let w := [mkItemWeight 10%nat 1; mkItemWeight 20%nat 2] in
  exists g out0 g0 out g',
    RandomDeck w [2; 0; 1; 1] = Some g
    /\ Generate (Z.of_nat 0 * total w) (deck_next script_Shuffle w) g = Some (out0, g0)
    /\ Generate (Z.of_nat 2 * total w) (deck_next script_Shuffle w) g0 = Some (out, g')
    /\ (forall x, occurrences x out = Z.of_nat 2 * weight_of x w)
    /\ (forall p n x,
          (p < 2)%nat -> (n <= Z.to_nat (total w))%nat ->
          occurrences x (take n (drop (p * Z.to_nat (total w)) out))
          <= weight_of x w).
Proof.
  apply (RandomDeck_full_passes script_Shuffle script_Shuffle_range
           [mkItemWeight 10%nat 1; mkItemWeight 20%nat 2] [2; 0; 1; 1] 0 2).
  - repeat constructor.
  - reflexivity.
Defined.

Lemma RandomDeck_aligned_windows_witness :
  let w := [mkItemWeight 10%nat 1; mkItemWeight 20%nat 0; mkItemWeight 30%nat 2] in
  exists g out g',
    RandomDeck w [2; 0; 1; 1] = Some g
    /\ Generate (Z.of_nat 2 * total w) (deck_next script_Shuffle w) g = Some (out, g')
    /\ (forall p x,
          (p < 2)%nat ->
          occurrences x (take (Z.to_nat (total w))
                           (drop (p * Z.to_nat (total w)) out))
          = weight_of x w).
Proof.
  apply (RandomDeck_aligned_windows script_Shuffle script_Shuffle_range
           [mkItemWeight 10%nat 1; mkItemWeight 20%nat 0; mkItemWeight 30%nat 2]
           [2; 0; 1; 1] 2).
  - repeat constructor; cbn; lia.
  - reflexivity.
  - reflexivity.
Defined.

(** C4 (the claim as stated fails).  Two items of weight 1, so total = 2.
    The first shuffle leaves the deck as it is and the second swaps its two
    slots: four draws return 10, 20, 20, 10.  The window of 2 consecutive
    draws that starts at the second draw holds 20 twice and 10 not at all,
    although each has weight 1. *)
Lemma RandomDeck_unaligned_window :
  let w := [mkItemWeight 10%nat 1; mkItemWeight 20%nat 1] in
  exists g out g',
    RandomDeck w [1; 0] = Some g
    /\ Generate (2 * total w) (deck_next script_Shuffle w) g = Some (out, g')
    /\ out = [10; 20; 20; 10]%nat
    /\ total w = 2
    /\ occurrences 20%nat (take 2 (drop 1 out)) = 2
    /\ weight_of 20%nat w = 1
    /\ occurrences 10%nat (take 2 (drop 1 out)) = 0
    /\ weight_of 10%nat w = 1.
Proof.
  cbv zeta. do 3 eexists.
  split; [reflexivity|]. split; [reflexivity|]. repeat split.
Qed.

(** X9.  For weights that are all non-negative ints, the scan of the
    closure returned by Random gives entry i every draw of its own interval:
    for a draw t (an int, not negative) with the sum of the weights before
    entry i at most t and t below that sum plus Weight_i, it returns the
    item of entry i.  So entry i is drawn for exactly Weight_i values of
    t. *)
Theorem Random_scan_interval {I} (w : Weighted I) : forall i e t,
  Forall (fun e => 0 <= Weight e <= int_max Int) w ->
  w !! i = Some e ->
  0 <= t <= int_max Int ->
  sum_weights (take i w) <= t < sum_weights (take i w) + Weight e ->
  scan w t = Some (Item e).
Proof.
  induction w as [|e0 w IH]; intros i e t Hw Hi Ht Hin; [done|].
  apply Forall_cons_1 in Hw as [He0 Hw]. cbn [scan]. unfold sub.
  rewrite wrap_small by (unfold in_range, int_min, int_max in *; cbn in *; lia).
  destruct i as [|i]; cbn in Hi, Hin.
  - injection Hi as ->. by replace (t - Weight e <? 0) with true by zbool.
  - fold (sum_weights (take i w)) in Hin.
    pose proof (sum_weights_nonneg (take i w)) as Hp.
    assert (0 <= sum_weights (take i w)).
    { apply Hp. apply Forall_take. eapply Forall_impl; [exact Hw|]. cbn. lia. }
    replace (t - Weight e0 <? 0) with false by zbool.
    apply (IH i e); [done|done|lia|lia].
Qed.

Lemma Random_scan_interval_witness :
  scan [mkItemWeight 10%nat 2; mkItemWeight 20%nat 0; mkItemWeight 30%nat 3] 2
    = Some (Item (mkItemWeight 30%nat 3)).
Proof.
  apply (Random_scan_interval
           [mkItemWeight 10%nat 2; mkItemWeight 20%nat 0; mkItemWeight 30%nat 3]
           2%nat (mkItemWeight 30%nat 3) 2).
  - repeat constructor; cbn; lia.
  - reflexivity.
  - cbn. lia.
  - cbn. lia.
Defined.

(** X10.  For weights that are all non-negative ints, whatever the scan of
    the closure returned by Random returns for a draw that is not negative
    is the item of an entry of the set whose weight is above 0: an entry of
    weight 0 is never drawn. *)
Theorem Random_scan_positive_weight {I} (w : Weighted I) : forall t x,
  Forall (fun e => 0 <= Weight e <= int_max Int) w ->
  0 <= t <= int_max Int ->
  scan w t = Some x ->
  exists e, e ∈ w /\ Item e = x /\ 0 < Weight e.
Proof.
  induction w as [|e0 w IH]; intros t x Hw Ht Hs; [done|].
  apply Forall_cons_1 in Hw as [He0 Hw]. cbn [scan] in Hs. unfold sub in Hs.
  rewrite wrap_small in Hs
    by (unfold in_range, int_min, int_max in *; cbn in *; lia).
  destruct (Z.ltb_spec (t - Weight e0) 0) as [Hneg|Hpos].
  - injection Hs as <-. exists e0. split; [by left|]. split; [done|lia].
  - destruct (IH (t - Weight e0) x Hw ltac:(lia) Hs) as (e & Hin & Hx & Hpos').
    exists e. split; [by right|done].
Qed.

Lemma Random_scan_positive_weight_witness :
  exists e,
    e ∈ [mkItemWeight 10%nat 2; mkItemWeight 20%nat 0; mkItemWeight 30%nat 3]
    /\ Item e = 30%nat /\ 0 < Weight e.
Proof.
  apply (Random_scan_positive_weight
           [mkItemWeight 10%nat 2; mkItemWeight 20%nat 0; mkItemWeight 30%nat 3]
           2 30%nat).
  - repeat constructor; cbn; lia.
  - cbn. lia.
  - reflexivity.
Defined.

Lemma total_zero_weights {I} (w : Weighted I) :
  Forall (fun e => Weight e = 0) w -> total w = 0.
Proof.
  unfold total. induction 1 as [|e w He _ IH]; [done|].
  cbn [fold_left]. rewrite He. exact IH.
Qed.

Lemma build_deck_zero_weights {I} (w : Weighted I) :
  Forall (fun e => Weight e = 0) w -> build_deck w = [].
Proof.
  intros Hz. unfold build_deck. generalize 0%nat.
  induction Hz as [|e w He _ IH]; intros i; [done|].
  cbn [build_deck_from]. rewrite He. cbn. apply IH.
Qed.

(** X11.  On a set whose weights are all 0, the empty set included, every
    call of the closure returned by Random panics (rand.Intn is called with
    0), whatever the generator. *)
Theorem Random_zero_weights_panics {I R} (Intn : R -> Z -> Z * R)
    (w : Weighted I) (r : R) :
  Forall (fun e => Weight e = 0) w -> Random_next Intn w r = None.
Proof.
  intros Hz. unfold Random_next. by rewrite (total_zero_weights w Hz).
Qed.

Lemma Random_zero_weights_panics_witness :
  Random_next script_Intn [mkItemWeight 10%nat 0; mkItemWeight 20%nat 0] [3; 1]
    = None.
Proof.
  apply (Random_zero_weights_panics script_Intn
           [mkItemWeight 10%nat 0; mkItemWeight 20%nat 0] [3; 1]).
  repeat constructor.
Defined.

(** X12.  On a set whose weights are all 0, the empty set included,
    RandomDeck returns a closure over an empty deck, and every call of it
    panics (the deck is indexed out of range after the reshuffle), whatever
    the shuffle does. *)
Theorem RandomDeck_zero_weights_panics {I R}
    (Shuffle : R -> nat -> list (nat * nat) * R) (w : Weighted I) (r : R) :
  Forall (fun e => Weight e = 0) w ->
  RandomDeck w r = Some (mkDeckGen [] 0%nat r)
  /\ deck_next Shuffle w (mkDeckGen [] 0%nat r) = None.
Proof.
  intros Hz. split.
  - unfold RandomDeck. by rewrite (total_zero_weights w Hz), (build_deck_zero_weights w Hz).
  - unfold deck_next. cbn [index deck rng length Nat.eqb].
    destruct (Shuffle r 0%nat) as [[|[i j] swaps] r']; cbn; [done|].
    unfold swap. by rewrite !lookup_nil.
Qed.

Lemma RandomDeck_zero_weights_panics_witness :
  RandomDeck [mkItemWeight 10%nat 0] [3; 1] = Some (mkDeckGen [] 0%nat [3; 1])
  /\ deck_next script_Shuffle [mkItemWeight 10%nat 0] (mkDeckGen [] 0%nat [3; 1])
     = None.
Proof.
  apply (RandomDeck_zero_weights_panics script_Shuffle [mkItemWeight 10%nat 0] [3; 1]).
  repeat constructor.
Defined.

Lemma generate_loop_length {St A} (fn : St -> option (A * St)) n : forall st l st',
  generate_loop fn n st = Some (l, st') -> length l = n.
Proof.
  induction n as [|n IH]; intros st l st' Hg; cbn [generate_loop] in Hg.
  - by injection Hg as <- <-.
  - destruct (fn st) as [[a st1]|]; [|done].
    destruct (generate_loop fn n st1) as [[l1 st2]|] eqn:E; [|done].
    injection Hg as <- <-. cbn. by rewrite (IH _ _ _ E).
Qed.

(** X14.  Generate panics for a negative n; when it returns, n is not
    negative and it returns exactly n items; and for n, m >= 0, generating
    n + m items is generating n items and then m more with the closure as
    the first run left it, the results being appended (and a panic of
    either run being a panic of the whole). *)
Theorem Generate_length_and_split {St A} (fn : St -> option (A * St)) (st : St) :
  (forall n, n < 0 -> Generate n fn st = None)
  /\ (forall n l st',
        Generate n fn st = Some (l, st') -> 0 <= n /\ Z.of_nat (length l) = n)
  /\ (forall n m,
        0 <= n -> 0 <= m ->
        Generate (n + m) fn st =
        match Generate n fn st with
        | None => None
        | Some (l1, st1) =>
            match Generate m fn st1 with
            | None => None
            | Some (l2, st2) => Some (l1 ++ l2, st2)
            end
        end).
Proof.
  split; [|split].
  - intros n Hn. unfold Generate. by replace (n <? 0) with true by zbool.
  - intros n l st' Hg. unfold Generate in Hg.
    destruct (Z.ltb_spec n 0) as [|Hn]; [done|].
    apply generate_loop_length in Hg. lia.
  - intros n m Hn Hm. unfold Generate.
    replace (n + m <? 0) with false by zbool.
    replace (n <? 0) with false by zbool.
    replace (m <? 0) with false by zbool.
    rewrite Z2Nat.inj_add by lia. apply generate_loop_app.
Qed.

Lemma Generate_length_and_split_witness :
  Generate (1 + 2) (deck_next script_Shuffle [mkItemWeight 10%nat 1; mkItemWeight 20%nat 2])
           (mkDeckGen [0; 1; 1]%nat 3%nat [2; 0; 1; 1]) =
  match Generate 1 (deck_next script_Shuffle [mkItemWeight 10%nat 1; mkItemWeight 20%nat 2])
                 (mkDeckGen [0; 1; 1]%nat 3%nat [2; 0; 1; 1]) with
  | None => None
  | Some (l1, st1) =>
      match Generate 2 (deck_next script_Shuffle
                          [mkItemWeight 10%nat 1; mkItemWeight 20%nat 2]) st1 with
      | None => None
      | Some (l2, st2) => Some (l1 ++ l2, st2)
      end
  end.
Proof.
  apply (proj2 (proj2 (Generate_length_and_split
           (deck_next script_Shuffle [mkItemWeight 10%nat 1; mkItemWeight 20%nat 2])
           (mkDeckGen [0; 1; 1]%nat 3%nat [2; 0; 1; 1]))) 1 2); lia.
Defined.

Section RandomDeckDraws.
Context {I R : Type} `{EqDecision I}.
Variable Shuffle : R -> nat -> list (nat * nat) * R.
Hypothesis Shuffle_range : forall r n,
  Forall (fun ij => (fst ij < n)%nat /\ (snd ij < n)%nat) (fst (Shuffle r n)).
Variable w : Weighted I.

(** X13.  For non-negative weights with a total above 0, total() being
    their sum, the generator returned by RandomDeck never panics: any
    number n of consecutive calls on the fresh generator returns n items,
    and among them every item value appears at least as often as its weight
    times the number of whole passes made (n / total), and at most once
    more its weight, whatever swaps the shuffle makes. *)
Theorem RandomDeck_draws_bounded (r : R) (n : nat) :
  Forall (fun e => 0 <= Weight e) w ->
  total w = sum_weights w ->
  0 < total w ->
  exists g out g',
    RandomDeck w r = Some g
    /\ Generate (Z.of_nat n) (deck_next Shuffle w) g = Some (out, g')
    /\ length out = n
    /\ (forall x,
          Z.of_nat (n / Z.to_nat (total w)) * weight_of x w
          <= occurrences x out
          <= (Z.of_nat (n / Z.to_nat (total w)) + 1) * weight_of x w).
Proof.
  intros Hw Htotal Hpos.
  assert (Hsum : sum_weights w <= int_max Int).
  { rewrite <- Htotal. apply total_in_range. }
  set (T := Z.to_nat (total w)).
  assert (HT : (0 < T)%nat) by lia.
  set (q := (n / T)%nat).
  destruct (RandomDeck_passes Shuffle Shuffle_range w r 0 (S q) Hw Hsum)
    as (g & out0 & g0 & ps & g' & HR & H0 & Hk & Hlen & Hps & HTd).
  assert (g0 = g) as ->.
  { unfold Generate in H0. change (Z.of_nat 0) with 0 in H0.
    rewrite Z.mul_0_l in H0. change (Some ([], g) = Some (out0, g0)) in H0.
    congruence. }
  fold T in HTd.
  assert (Hn : (n = q * T + n mod T)%nat).
  { subst q. rewrite (Nat.div_mod_eq n T) at 1. lia. }
  pose proof (Nat.mod_upper_bound n T ltac:(lia)) as Hr.
  unfold Generate in Hk. replace (Z.of_nat (S q) * total w <? 0) with false in Hk by zbool.
  replace (Z.to_nat (Z.of_nat (S q) * total w)) with (n + (T - n mod T))%nat in Hk
    by (subst T; nia).
  rewrite generate_loop_app in Hk.
  destruct (generate_loop (deck_next Shuffle w) n g) as [[l1 g1]|] eqn:Hg; [|done].
  destruct (generate_loop (deck_next Shuffle w) (T - n mod T) g1) as [[l2 g2]|];
    [|done].
  injection Hk as Hcat <-.
  pose proof (generate_loop_length _ _ _ _ _ Hg) as Hl1.
  exists g, l1, g1. split; [done|]. split.
  { unfold Generate. replace (Z.of_nat n <? 0) with false by zbool.
    by rewrite Nat2Z.id. }
  split; [done|]. intros x.
  destruct (pass_occurrences w x ps Hw Hps) as [Hocc Hl]. rewrite HTd in Hl.
  assert (Hl1' : l1 = take n (concat ps)).
  { rewrite <- Hcat. by rewrite take_app_length'. }
  assert (Hfull : take (q * T) (concat ps) = concat (take q ps)).
  { rewrite <- (take_drop q ps) at 1. rewrite concat_app.
    apply take_app_length'.
    assert (Hq : (q <= length ps)%nat) by lia.
    clear -Hl Hq. generalize dependent q.
    induction ps as [|p ps IH]; intros q Hq.
    { rewrite take_nil. cbn in *. lia. }
    apply Forall_cons_1 in Hl as [Hp Hl]. destruct q as [|q0]; [done|].
    cbn [take concat]. rewrite length_app, Hp. cbn [Nat.mul]. f_equal.
    apply IH; [done|]. cbn in Hq. lia. }
  destruct (pass_window w ps q) as (pq & rest & Hpq & Hdrop).
  { by rewrite HTd. }
  { lia. }
  rewrite HTd in Hdrop.
  pose proof (proj1 (Forall_forall _ _) Hocc pq Hpq) as Hoq.
  pose proof (proj1 (Forall_forall _ _) Hl pq Hpq) as Hlq. cbn in Hoq, Hlq.
  rewrite Hl1', Hn, <- take_take_drop, Hfull, Hdrop.
  rewrite take_app_le by lia. rewrite occurrences_app.
  rewrite (occurrences_concat x (take q ps) (weight_of x w))
    by (by apply Forall_take).
  rewrite length_take, Hlen, Nat.min_l by lia.
  pose proof (occurrences_take_le x (n mod T) pq) as Hle.
  assert (0 <= occurrences x (take (n mod T) pq)) by (unfold occurrences; lia).
  replace ((q * T + n mod T) / T)%nat with q.
  2:{ rewrite Nat.div_add_l by lia. rewrite (Nat.div_small (n mod T)) by lia. lia. }
  lia.
Qed.
End RandomDeckDraws.

(* Weights 1 and 2: four draws, one whole pass and one draw of the next. *)
Lemma RandomDeck_draws_bounded_witness :
  let w := [mkItemWeight 10%nat 1; mkItemWeight 20%nat 2] in
  exists g out g',
    RandomDeck w [2; 0; 1; 1] = Some g
    /\ Generate (Z.of_nat 4) (deck_next script_Shuffle w) g = Some (out, g')
    /\ length out = 4%nat
    /\ (forall x,
          Z.of_nat (4 / Z.to_nat (total w)) * weight_of x w
          <= occurrences x out
          <= (Z.of_nat (4 / Z.to_nat (total w)) + 1) * weight_of x w).
Proof.
  apply (RandomDeck_draws_bounded script_Shuffle script_Shuffle_range
           [mkItemWeight 10%nat 1; mkItemWeight 20%nat 2] [2; 0; 1; 1] 4).
  - repeat constructor; cbn; lia.
  - reflexivity.
  - reflexivity.
Defined.

End WeightedFacts.

(** ** Logger and runner *)
Module MetamorphicFacts.
Import Metamorphic.

Lemma indent_newlines_plain (b : bytes) : nl ∉ b -> indent_newlines b = b.
Proof.
  induction b as [|c b IH]; intros Hn; [done|]. cbn [indent_newlines].
  apply not_elem_of_cons in Hn as [Hc Hb].
  destruct (Ascii.eqb_spec c nl) as [->|_]; [done|]. by rewrite IH.
Qed.

Lemma run_calls_returns cs : forall l t,
  Forall returns cs ->
  run_calls cs l t = Returned (after_calls cs l, tb_after cs t).
Proof.
  induction cs as [|c cs IH]; intros l t Hr.
  - cbn. unfold after_calls. cbn. rewrite app_nil_r, orb_false_r. by destruct l.
  - apply Forall_cons_1 in Hr as [Hc Hr]. destruct c; try done;
      cbn [run_calls Logger_Errorf]; rewrite (IH _ _ Hr); do 2 f_equal;
      unfold after_calls, Logger_Commentf; cbn [appended];
      try destruct (Ascii.eqb (lastByte l) nl);
      unfold Logger_Logf, Logger_Write, wIndent_Write, set_logged;
      cbn [history lastByte opNumber op logged last_after existsb
           is_logging orb];
      rewrite ?orb_true_r, ?app_nil_l; by rewrite <- ?(assoc_L (++)).
Qed.

Lemma last_op_prefix n d : last (op_prefix n d) = Some " "%char.
Proof. unfold op_prefix. by rewrite !last_app. Qed.

(* A text given byte by byte holds no newline. *)
Ltac no_nl :=
  cbn; rewrite ?not_elem_of_cons;
  repeat split; try (unfold nl; discriminate); try apply not_elem_of_nil; try done.

Lemma string_of_uint_no_nl (d : Decimal.uint) :
  nl ∉ B (NilEmpty.string_of_uint d).
Proof. induction d; no_nl. Qed.

Lemma decimal_no_nl n : nl ∉ decimal n.
Proof.
  unfold decimal, NilZero.string_of_uint.
  destruct (Nat.to_uint n) eqn:E; try (rewrite <- E; apply string_of_uint_no_nl);
    try apply string_of_uint_no_nl.
  no_nl.
Qed.

Lemma op_prefix_no_nl n d : nl ∉ d -> nl ∉ op_prefix n d.
Proof.
  intros Hd. unfold op_prefix, pad6. rewrite !not_elem_of_app.
  repeat split; try done; try apply decimal_no_nl; try no_nl.
  intros [Hin _]%elem_of_replicate. revert Hin. unfold nl. discriminate.
Qed.

Lemma plain_returns c : plain c -> returns c.
Proof. by destruct c. Qed.

Lemma shown_no_nl c : plain c -> nl ∉ shown c.
Proof.
  destruct c; cbn; try done. intros Hn. no_nl.
Qed.

(* Plain calls add their text as it is. *)
Lemma appended_plain cs : forall lb,
  Forall plain cs -> appended lb cs = concat (map shown cs).
Proof.
  induction cs as [|c cs IH]; intros lb Hp; [done|].
  apply Forall_cons_1 in Hp as [Hc Hp].
  destruct c; try done; cbn [appended map concat shown];
    rewrite ?indent_newlines_plain, ?(IH _ Hp); try done.
  apply (shown_no_nl (CError text) Hc).
Qed.

Lemma op_segment_plain n d cs :
  Forall plain cs -> op_segment n d cs = op_line n d cs ++ [nl].
Proof.
  intros Hp. unfold op_segment, op_line. rewrite (appended_plain cs _ Hp).
  by rewrite <- !(assoc_L (++)).
Qed.

Lemma op_line_no_nl n d cs :
  nl ∉ d -> Forall plain cs -> nl ∉ op_line n d cs.
Proof.
  intros Hd Hp. unfold op_line. rewrite !not_elem_of_app.
  split; [by apply op_prefix_no_nl|]. split.
  - induction Hp as [|c cs Hc _ IH]; [apply not_elem_of_nil|].
    cbn [map concat]. rewrite not_elem_of_app. split; [by apply shown_no_nl|done].
  - destruct (existsb is_logging cs); no_nl.
Qed.

Lemma transcript_app l1 l2 : transcript (l1 ++ l2) = transcript l1 ++ transcript l2.
Proof. unfold transcript. by rewrite map_app, concat_app. Qed.

Lemma segments_plain descrs : forall n trace,
  Forall (Forall plain) trace ->
  concat (segments n descrs trace) = transcript (op_lines n descrs trace).
Proof.
  induction descrs as [|d descrs IH]; intros n trace Hp; [done|].
  destruct Hp as [|cs trace Hcs Hp]; [done|].
  cbn [segments op_lines concat]. unfold transcript in *. cbn [map concat].
  by rewrite (op_segment_plain n d cs Hcs), IH.
Qed.

Lemma op_lines_no_nl descrs : forall n trace,
  Forall (fun d => nl ∉ d) descrs ->
  Forall (Forall plain) trace ->
  Forall (fun line => nl ∉ line) (op_lines n descrs trace).
Proof.
  induction descrs as [|d descrs IH]; intros n trace Hd Hp; [constructor|].
  apply Forall_cons_1 in Hd as [Hd0 Hd].
  destruct Hp as [|cs trace Hcs Hp]; [constructor|].
  cbn [op_lines]. constructor; [by apply op_line_no_nl|by apply IH].
Qed.

Lemma op_lines_length descrs : forall n trace,
  length descrs = length trace -> length (op_lines n descrs trace) = length descrs.
Proof.
  induction descrs as [|d descrs IH]; intros n [|cs trace] Hl; cbn in *; try done.
  f_equal. apply IH. lia.
Qed.

Section RunnerFacts.
Context {S H : Type}.
Implicit Types (o : Op S H) (ops : list (Op S H)) (l : Logger) (t : TB).

(* One step of Run with an operation that returns. *)
Lemma Step_returns l t (h : H) (s : S) o :
  Forall returns (fst (op_Run o s h)) ->
  Step l t h s o =
  (Returned
     (mkLogger (history l ++ op_segment (opNumber l) (op_String o) (fst (op_Run o s h)))
               nl (Datatypes.S (opNumber l)) (op_String o)
               (existsb is_logging (fst (op_Run o s h))),
      tb_after (fst (op_Run o s h)) t),
   snd (op_Run o s h)).
Proof.
  intros Hr. unfold Step. destruct (op_Run o s h) as [cs h']. cbn [fst snd] in *.
  rewrite (run_calls_returns cs _ _ Hr). do 3 f_equal.
  unfold after_calls, Logger_Write.
  cbn [history lastByte opNumber op logged orb]. rewrite last_op_prefix.
  unfold op_segment. destruct (existsb is_logging cs);
    cbn [history lastByte opNumber op logged last]; f_equal;
    by rewrite <- ?(assoc_L (++)).
Qed.

Lemma run_trace_cons o ops (s : S) (h : H) :
  run_trace (o :: ops) s h
  = fst (op_Run o s h) :: run_trace ops s (snd (op_Run o s h)).
Proof. cbn [run_trace]. by destruct (op_Run o s h). Qed.

Lemma Run_loop_returns ops : forall l t (h : H) (s : S),
  Forall (Forall returns) (run_trace ops s h) ->
  exists l' t' h',
    Run_loop l t h s ops = (Returned (l', t'), h')
    /\ history l' = history l
         ++ concat (segments (opNumber l) (map op_String ops) (run_trace ops s h)).
Proof.
  induction ops as [|o ops IH]; intros l t h s Hna.
  - exists l, t, h. cbn. by rewrite app_nil_r.
  - rewrite run_trace_cons in Hna. apply Forall_cons_1 in Hna as [Ho Hna].
    rewrite run_trace_cons. cbn [Run_loop map].
    rewrite (Step_returns l t h s o Ho).
    destruct (op_Run o s h) as [cs h1]. cbn [fst snd] in *.
    destruct (IH (mkLogger (history l ++ op_segment (opNumber l) (op_String o) cs)
                           nl (Datatypes.S (opNumber l)) (op_String o)
                           (existsb is_logging cs)) (tb_after cs t) h1 s Hna)
      as (l' & t' & h' & Hrun & Hh).
    exists l', t', h'. split; [done|]. rewrite Hh. cbn [history opNumber segments concat].
    by rewrite <- (assoc_L (++)).
Qed.

(* A run whose operations all return ends with the segments of its
   operations, in order, and the done line. *)
Lemma Run_returns t (h : H) (s : S) ops :
  Forall (Forall returns) (run_trace ops s h) ->
  exists l t' h',
    Run t h s ops = (Returned (l, t'), h')
    /\ history l = concat (segments 0 (map op_String ops) (run_trace ops s h))
                   ++ B "done" ++ [nl].
Proof.
  intros Hna. unfold Run.
  destruct (Run_loop_returns ops NewLogger t h s Hna) as (l & t' & h' & -> & Hh).
  eexists _, _, h'. split; [done|]. unfold Logger_Write. cbn [history].
  by rewrite Hh.
Qed.

Lemma run_trace_length ops : forall (s : S) (h : H),
  length (run_trace ops s h) = length ops.
Proof.
  induction ops as [|o ops IH]; intros s h; [done|]. cbn [run_trace].
  destruct (op_Run o s h) as [cs h']. cbn. by rewrite IH.
Qed.

(** C5 (as amended).  If, in the run, every operation of the list
    returns, puts out its text through Log, Logf, Error, Errorf or Write
    only, and neither the descriptors nor these texts hold a newline
    ([run_trace] gives the calls each operation makes in the run), Run
    returns and the transcript is one line per operation, in order, then the
    line done, each ended by a newline.  Line i is the prefix of operation i, [op ], the
    number right-justified in six columns, [: ], the descriptor and [ = ],
    followed by what the operation put out, and by [-] exactly when it called
    no logging method; no such line holds a newline.  For the empty list the
    transcript is the done line alone. *)
Theorem Run_transcript t (h : H) (initial : S) ops :
  Forall (fun o => nl ∉ op_String o) ops ->
  Forall (Forall plain) (run_trace ops initial h) ->
  exists l t' h',
    Run t h initial ops = (Returned (l, t'), h')
    /\ history l
       = transcript (op_lines 0 (map op_String ops) (run_trace ops initial h)
                       ++ [B "done"])
    /\ length (op_lines 0 (map op_String ops) (run_trace ops initial h))
       = length ops
    /\ Forall (fun line => nl ∉ line)
         (op_lines 0 (map op_String ops) (run_trace ops initial h))
    /\ (ops = [] -> history l = B "done" ++ [nl]).
Proof.
  intros Hd Htr.
  assert (Hna : Forall (Forall returns) (run_trace ops initial h)).
  { eapply Forall_impl; [exact Htr|]. cbn. intros cs Hcs.
    eapply Forall_impl; [exact Hcs|]. apply plain_returns. }
  destruct (Run_returns t h initial ops Hna) as (l & t' & h' & HR & Hh).
  exists l, t', h'. split; [done|].
  assert (Hlines : history l
       = transcript (op_lines 0 (map op_String ops) (run_trace ops initial h)
                       ++ [B "done"])).
  { by rewrite Hh, transcript_app, (segments_plain _ _ _ Htr). }
  split; [exact Hlines|]. split; [|split].
  - rewrite op_lines_length, length_map; [done|].
    by rewrite length_map, run_trace_length.
  - apply op_lines_no_nl; [|done]. by apply Forall_fmap.
  - intros ->. by rewrite Hlines.
Qed.

(** C7 (as amended).  Commentf leaves [logged] set, whatever it was: it
    writes the comment through Logf.  So an operation that only calls
    Commentf counts as having logged: after the prefix its segment holds a
    newline and the indent (lastByte is the space that ends the prefix), the
    comment line followed by the indent, and the closing newline, and no
    [-]. *)
Theorem Commentf_sets_logged l t (h : H) (s : S) (d text : bytes) :
  logged (Logger_Commentf l text) = true
  /\ exists l',
      Step l t h s (mkOp d (fun _ h => ([CCommentf text], h))) = (Returned (l', t), h)
      /\ logged l' = true
      /\ history l' = history l ++ op_prefix (opNumber l) d
                        ++ [nl] ++ B "  "
                        ++ indent_newlines (B "// " ++ text ++ [nl])
                        ++ [nl].
Proof.
  split.
  - unfold Logger_Commentf. by destruct (Ascii.eqb (lastByte l) nl).
  - rewrite Step_returns by (cbn; repeat constructor).
    eexists. split; [reflexivity|]. split; [done|].
    cbn [history op_String op_Run fst]. unfold op_segment.
    cbn [appended existsb is_logging orb]. change (Ascii.eqb " " nl) with false.
    cbn [indent_newlines]. change (Ascii.eqb nl nl) with true.
    cbn [indent_newlines]. by rewrite <- !(assoc_L (++)), !app_nil_r.
Qed.
End RunnerFacts.

(* The second operation would call Fatal in state 1; the run is on state
   0, where it logs. *)
Lemma Run_transcript_witness :
  exists l t' h',
    Run (mkTB false []) tt 0%nat [put_op; fatal_op] = (Returned (l, t'), h')
    /\ history l
       = transcript (op_lines 0 (map op_String [put_op; fatal_op])
                       (run_trace [put_op; fatal_op] 0%nat tt) ++ [B "done"])
    /\ length (op_lines 0 (map op_String [put_op; fatal_op])
                 (run_trace [put_op; fatal_op] 0%nat tt))
       = length [put_op; fatal_op]
    /\ Forall (fun line => nl ∉ line)
         (op_lines 0 (map op_String [put_op; fatal_op])
            (run_trace [put_op; fatal_op] 0%nat tt))
    /\ ([put_op; fatal_op] = [] -> history l = B "done" ++ [nl]).
Proof.
  apply (Run_transcript (mkTB false []) tt 0%nat [put_op; fatal_op]).
  - repeat constructor; no_nl.
  - repeat constructor; no_nl.
Defined.

(** C5 (the claim as stated fails).  An operation that panics has a
    descriptor and an output without newline, yet Run does not return: the
    goroutine exits in Fatal, the transcript stops after the logged error,
    no line of it is ended and there is no done line. *)
Lemma Run_panicking_op_no_done :
  exists l t',
    Run (mkTB false []) tt 0%nat [crash_op] = (Exited (l, t'), tt)
    /\ history l = B "op      0: Crash = error: boom"
    /\ nl ∉ history l.
Proof.
  do 2 eexists. split; [reflexivity|]. split; [reflexivity|]. no_nl.
Qed.

(** C7 (the claim as stated fails).  Commentf on a Logger that has logged
    nothing sets [logged], and an operation that only comments gets no [-]
    placeholder: its segment is the prefix, a newline, the indented comment
    line, and an indented empty line. *)
Lemma Commentf_changes_logged :
  logged NewLogger = false
  /\ logged (Logger_Commentf NewLogger (B "note")) = true
  /\ exists l t',
      Step NewLogger (mkTB false []) tt 0%nat note_op = (Returned (l, t'), tt)
      /\ history l = B "op      0: Note = " ++ [nl]
                      ++ B "  // note" ++ [nl] ++ B "  " ++ [nl].
Proof.
  split; [reflexivity|]. split; [reflexivity|].
  do 2 eexists. split; reflexivity.
Qed.

Lemma tb_le_refl t : tb_le t t.
Proof. split; [done|]. exists []. by rewrite app_nil_r. Qed.

Lemma tb_le_trans t1 t2 t3 : tb_le t1 t2 -> tb_le t2 t3 -> tb_le t1 t3.
Proof.
  intros [Hf1 [m1 Ho1]] [Hf2 [m2 Ho2]]. split; [auto|].
  exists (m1 ++ m2). by rewrite Ho2, Ho1, <- (assoc_L (++)).
Qed.

Lemma tb_le_Logf t msg : tb_le t (TB_Logf t msg).
Proof. split; [done|]. by exists [msg]. Qed.

Lemma tb_le_Errorf t msg : tb_le t (TB_Errorf t msg).
Proof. split; [done|]. by exists [msg]. Qed.

Lemma tb_le_after cs : forall t, tb_le t (tb_after cs t).
Proof.
  induction cs as [|c cs IH]; intros t; [apply tb_le_refl|].
  destruct c; cbn [tb_after]; try apply IH.
  eapply tb_le_trans; [apply tb_le_Errorf|apply IH].
Qed.

Lemma tb_le_output t t' msg : tb_le t t' -> msg ∈ output t -> msg ∈ output t'.
Proof. intros [_ [more ->]] Hin. apply elem_of_app. by left. Qed.

Lemma tb_le_FailNow t : tb_le t (TB_FailNow t).
Proof. split; [done|]. exists []. cbn. by rewrite app_nil_r. Qed.

(* Whatever the calls, and whether they return or not. *)
Lemma run_calls_tb_le cs : forall l t,
  tb_le t (snd (state_of (run_calls cs l t))).
Proof.
  induction cs as [|c cs IH]; intros l t; [apply tb_le_refl|].
  destruct c; cbn [run_calls Logger_Errorf]; try apply IH.
  - eapply tb_le_trans; [apply tb_le_Errorf|apply IH].
  - cbn. eapply tb_le_trans; [apply tb_le_Logf|apply tb_le_FailNow].
  - cbn. eapply tb_le_trans; [apply tb_le_Errorf|].
    eapply tb_le_trans; [apply tb_le_Logf|apply tb_le_FailNow].
  - cbn. eapply tb_le_trans; [apply tb_le_Errorf|].
    eapply tb_le_trans; [apply tb_le_Logf|apply tb_le_FailNow].
Qed.

Lemma timeline_trace_cons {S H} (o : Op S H) (s : S) states (h : H) :
  timeline_trace o (s :: states) h
  = (fst (op_Run o s h) :: fst (timeline_trace o states (snd (op_Run o s h))),
     snd (timeline_trace o states (snd (op_Run o s h)))).
Proof.
  cbn [timeline_trace]. destruct (op_Run o s h) as [cs h1]. cbn [fst snd].
  by destruct (timeline_trace o states h1).
Qed.

Lemma tandem_trace_cons {S H} (o : Op S H) ops (states : list S) (h : H) :
  tandem_trace (o :: ops) states h
  = fst (timeline_trace o states h)
      :: tandem_trace ops states (snd (timeline_trace o states h)).
Proof. cbn [tandem_trace]. by destruct (timeline_trace o states h). Qed.

Section TandemFacts.
Context {S H : Type}.
Implicit Types (o : Op S H) (ops : list (Op S H)) (st : Tandem H).
Variable divergence : bytes -> bytes -> bytes.
Variable initial : list S.

(* One pass through the body of the inner loop, for an operation that
   returns.  [base0 ++ seg0] is the log of timeline 0, which ran the
   operation before, [base0] being what it held until then. *)
Lemma tandem_step_returns o i j st l s N base0 seg0 :
  logs st !! j = Some l ->
  initial !! j = Some s ->
  Forall returns (fst (op_Run o s (heap st))) ->
  tandem_wf (length initial) N st ->
  (i < N)%nat ->
  ((0 < j)%nat -> exists l0,
      logs st !! 0%nat = Some l0 /\ history l0 = base0 ++ seg0
      /\ (logOpOffsets st !!! 0%nat) !!! i = length base0) ->
  let cs := fst (op_Run o s (heap st)) in
  let seg := op_segment i (op_String o) cs in
  exists st',
    tandem_step divergence initial o i j st = Returned st'
    /\ logs st' = <[j := mkLogger (history l ++ seg) nl i (op_String o)
                          (existsb is_logging cs)]> (logs st)
    /\ logOpOffsets st'
       = <[j := <[i := length (history l)]> (logOpOffsets st !!! j)]> (logOpOffsets st)
    /\ heap st' = snd (op_Run o s (heap st))
    /\ tb_le (tb st) (tb st')
    /\ ((0 < j)%nat -> seg <> seg0 ->
          diverged j i (divergence seg0 seg) ∈ output (tb st')
          /\ failed (tb st') = true).
Proof.
  intros Hl Hs Hr (Hlen & Hlen' & Hrows) Hi H0 cs seg.
  unfold tandem_step. rewrite Hl, Hs. subst cs seg.
  destruct (op_Run o s (heap st)) as [cs h']. cbn [fst snd] in *.
  rewrite (run_calls_returns cs _ _ Hr).
  set (l5 := Logger_Write _ [nl]).
  assert (Hl5 : l5 = mkLogger (history l ++ op_segment i (op_String o) cs) nl i
                       (op_String o) (existsb is_logging cs)).
  { subst l5. unfold after_calls, Logger_Write.
    cbn [history lastByte opNumber op logged orb]. rewrite last_op_prefix.
    unfold op_segment. destruct (existsb is_logging cs);
      cbn [history lastByte opNumber op logged last]; f_equal;
      by rewrite <- ?(assoc_L (++)). }
  clearbody l5. subst l5.
  eexists. split; [reflexivity|]. cbn [logs logOpOffsets heap tb history].
  split; [done|]. split; [done|]. split; [done|].
  set (t3 := tb_after cs (tb st)).
  set (t4 := if failed t3 then _ else t3).
  assert (H34 : tb_le (tb st) t4).
  { eapply tb_le_trans; [apply tb_le_after|]. subst t4.
    destruct (failed t3); [apply tb_le_Logf|apply tb_le_refl]. }
  destruct j as [|j]; [cbn; split; [done|lia]|].
  change (0 <? Datatypes.S j)%nat with true. cbn match.
  destruct (H0 ltac:(lia)) as (l0 & Hl0 & Hh0 & Hoff0).
  assert (Hj : (Datatypes.S j < length (logOpOffsets st))%nat).
  { rewrite Hlen', <- Hlen. by eapply lookup_lt_Some. }
  rewrite list_lookup_total_insert_ne by lia.
  rewrite (list_lookup_total_correct _ _ _ Hl0).
  rewrite (list_lookup_total_insert_ne (logOpOffsets st)) by lia.
  rewrite (list_lookup_total_insert_eq (logOpOffsets st)) by lia.
  rewrite list_lookup_total_insert_eq.
  2:{ rewrite (Forall_lookup_total_1 _ _ _ Hrows) by lia. done. }
  unfold compareOpResults. cbn [history]. rewrite Hoff0, Hh0.
  rewrite !drop_app_length.
  destruct (decide (seg0 = op_segment i (op_String o) cs)) as [Heq|Hne].
  - split; [done|]. intros _ Hne. by destruct Hne.
  - split; [eapply tb_le_trans; [exact H34|apply tb_le_Errorf]|].
    intros _ _. cbn. split; [|done]. apply elem_of_app. right. apply list_elem_of_singleton.
    done.
Qed.

Lemma tandem_wf_insert N st t' l' row' (h' : H) j :
  tandem_wf (length initial) N st ->
  length row' = N ->
  tandem_wf (length initial) N
    (mkTandem t' (<[j := l']> (logs st)) (<[j := row']> (logOpOffsets st)) h').
Proof.
  intros (Hlen & Hlen' & Hrows) Hrow. unfold tandem_wf. cbn [logs logOpOffsets].
  rewrite !length_insert. split; [done|]. split; [done|]. by apply Forall_insert.
Qed.

(* The inner loop from timeline [j] >= 1 on, timeline 0 having run the
   operation. *)
Lemma tandem_timelines_returns o i N base0 seg0 : forall n j st,
  Forall (Forall returns) (fst (timeline_trace o (drop j initial) (heap st))) ->
  (i < N)%nat ->
  tandem_wf (length initial) N st ->
  (j + n = length initial)%nat ->
  (0 < j)%nat ->
  (exists l0, logs st !! 0%nat = Some l0 /\ history l0 = base0 ++ seg0
              /\ (logOpOffsets st !!! 0%nat) !!! i = length base0) ->
  exists st',
    tandem_timelines divergence initial o i n j st = Returned st'
    /\ tandem_wf (length initial) N st'
    /\ heap st' = snd (timeline_trace o (drop j initial) (heap st))
    /\ tb_le (tb st) (tb st')
    /\ (forall j', (j' < j)%nat -> logs st' !! j' = logs st !! j')
    /\ (forall k cs l,
          fst (timeline_trace o (drop j initial) (heap st)) !! k = Some cs ->
          logs st !! (j + k)%nat = Some l ->
          exists l',
            logs st' !! (j + k)%nat = Some l'
            /\ history l' = history l ++ op_segment i (op_String o) cs
            /\ (op_segment i (op_String o) cs <> seg0 ->
                  diverged (j + k) i (divergence seg0 (op_segment i (op_String o) cs))
                    ∈ output (tb st')
                  /\ failed (tb st') = true)).
Proof.
  induction n as [|n IH]; intros j st Hr Hi Hwf Hn Hj H0.
  - exists st. cbn [tandem_timelines]. rewrite drop_ge by lia. cbn.
    split; [done|]. split; [done|]. split; [done|]. split; [apply tb_le_refl|].
    split; [done|]. intros k cs l Hk. by rewrite lookup_nil in Hk.
  - destruct (lookup_lt_is_Some_2 initial j ltac:(lia)) as [s Hs].
    destruct (lookup_lt_is_Some_2 (logs st) j) as [l Hl].
    { destruct Hwf as [-> _]. lia. }
    rewrite (drop_S initial s j Hs), timeline_trace_cons in Hr. cbn [fst] in Hr.
    apply Forall_cons_1 in Hr as [Hr0 Hr].
    destruct (tandem_step_returns o i j st l s N base0 seg0 Hl Hs Hr0 Hwf Hi
                (fun _ => H0))
      as (st1 & Hstep & Hlogs1 & Hoffs1 & Hheap1 & Hle1 & Hrep1).
    cbn zeta in *. rewrite <- Hheap1 in Hr.
    cbn [tandem_timelines]. rewrite Hstep.
    rewrite (drop_S initial s j Hs). cbn [timeline_trace].
    destruct (op_Run o s (heap st)) as [cs h1] eqn:Hrun. cbn [fst snd] in *.
    assert (Hwf1 : tandem_wf (length initial) N st1).
    { destruct st1 as [t1 logs1 offs1 hp1]. cbn [logs logOpOffsets heap] in *. subst.
      apply tandem_wf_insert; [done|]. rewrite length_insert.
      destruct Hwf as (Hlen & Hlen' & Hrows).
      apply (Forall_lookup_total_1 _ _ _ Hrows). rewrite Hlen'. lia. }
    destruct H0 as (l0 & Hl0 & Hh0 & Hoff0).
    destruct (IH (Datatypes.S j) st1 Hr Hi Hwf1 ltac:(lia) ltac:(lia))
      as (st' & Hrun' & Hwf' & Hheap' & Hle' & Hkeep & Hsegs).
    { exists l0. rewrite Hlogs1, Hoffs1.
      rewrite list_lookup_insert_ne by lia.
      rewrite list_lookup_total_insert_ne by lia. done. }
    rewrite Hheap1 in *.
    destruct (timeline_trace o (drop (Datatypes.S j) initial) h1) as [tr h2] eqn:Htr.
    cbn [fst snd] in *.
    exists st'. split; [done|]. split; [done|]. split; [done|].
    split; [by eapply tb_le_trans|]. split.
    + intros j' Hj'. rewrite Hkeep by lia. rewrite Hlogs1.
      by rewrite list_lookup_insert_ne by lia.
    + intros k cs' l' Hk Hl'. destruct k as [|k].
      * cbn in Hk. injection Hk as <-. rewrite Nat.add_0_r in *.
        assert (l' = l) as -> by congruence.
        eexists. rewrite Hkeep by lia. rewrite Hlogs1.
        rewrite list_lookup_insert_eq by (by eapply lookup_lt_Some).
        split; [reflexivity|]. split; [done|].
        intros Hne. destruct (Hrep1 Hj Hne) as [Hin Hf].
        split; [by eapply tb_le_output|]. by apply Hle'.
      * cbn in Hk.
        replace (j + Datatypes.S k)%nat with (Datatypes.S j + k)%nat in * by lia.
        apply (Hsegs k cs' l' Hk). rewrite Hlogs1.
        by rewrite list_lookup_insert_ne by lia.
Qed.

Lemma timeline_trace_length o (states : list S) : forall (h : H),
  length (fst (timeline_trace o states h)) = length states.
Proof.
  induction states as [|s states IH]; intros h; [done|]. cbn [timeline_trace].
  destruct (op_Run o s h) as [cs h1]. specialize (IH h1).
  destruct (timeline_trace o states h1) as [tr h2]. cbn in *. by rewrite IH.
Qed.

(* One whole pass of the inner loop: operation [o], number [i], on every
   timeline. *)
Lemma tandem_round_returns o i N st :
  Forall (Forall returns) (fst (timeline_trace o initial (heap st))) ->
  (i < N)%nat ->
  tandem_wf (length initial) N st ->
  exists st',
    tandem_timelines divergence initial o i (length (logs st)) 0 st = Returned st'
    /\ tandem_wf (length initial) N st'
    /\ heap st' = snd (timeline_trace o initial (heap st))
    /\ tb_le (tb st) (tb st')
    /\ (forall k cs l,
          fst (timeline_trace o initial (heap st)) !! k = Some cs ->
          logs st !! k = Some l ->
          exists l',
            logs st' !! k = Some l'
            /\ history l' = history l ++ op_segment i (op_String o) cs)
    /\ (forall k cs cs0,
          fst (timeline_trace o initial (heap st)) !! 0%nat = Some cs0 ->
          fst (timeline_trace o initial (heap st)) !! k = Some cs ->
          (0 < k)%nat ->
          op_segment i (op_String o) cs <> op_segment i (op_String o) cs0 ->
          diverged k i (divergence (op_segment i (op_String o) cs0)
                                   (op_segment i (op_String o) cs))
            ∈ output (tb st')
          /\ failed (tb st') = true).
Proof.
  intros Hr Hi Hwf. pose proof Hwf as (Hlen & Hlen' & Hrows).
  destruct (decide (length initial = 0%nat)) as [Hz|Hnz].
  { rewrite Hlen, Hz. apply nil_length_inv in Hz. rewrite Hz. cbn.
    exists st. split; [done|]. split; [by rewrite Hz in Hwf|]. split; [done|].
    split; [apply tb_le_refl|]. split; intros k cs; by rewrite lookup_nil. }
  destruct (lookup_lt_is_Some_2 initial 0%nat ltac:(lia)) as [s0 Hs0].
  destruct (lookup_lt_is_Some_2 (logs st) 0%nat ltac:(lia)) as [l0 Hl0].
  change (timeline_trace o initial (heap st))
    with (timeline_trace o (drop 0 initial) (heap st)) in Hr.
  rewrite (drop_S initial s0 0%nat Hs0), timeline_trace_cons in Hr. cbn [fst] in Hr.
  apply Forall_cons_1 in Hr as [Hr0 Hr].
  destruct (tandem_step_returns o i 0%nat st l0 s0 N [] [] Hl0 Hs0 Hr0 Hwf Hi
              ltac:(lia))
    as (st1 & Hstep & Hlogs1 & Hoffs1 & Hheap1 & Hle1 & _).
  cbn zeta in *. rewrite <- Hheap1 in Hr.
  rewrite Hlen. destruct (length initial) as [|n] eqn:Hm; [done|].
  cbn [tandem_timelines]. rewrite Hstep. rewrite <- Hm in *.
  change (timeline_trace o initial (heap st))
    with (timeline_trace o (drop 0 initial) (heap st)).
  rewrite (drop_S initial s0 0%nat Hs0). cbn [timeline_trace].
  destruct (op_Run o s0 (heap st)) as [cs0 h1] eqn:Hrun. cbn [fst snd] in *.
  assert (Hwf1 : tandem_wf (length initial) N st1).
  { destruct st1 as [t1 logs1 offs1 hp1]. cbn [logs logOpOffsets heap] in *. subst.
    apply tandem_wf_insert; [done|]. rewrite length_insert.
    apply (Forall_lookup_total_1 _ _ _ Hrows). lia. }
  destruct (tandem_timelines_returns o i N (history l0)
              (op_segment i (op_String o) cs0) n 1%nat st1 Hr Hi Hwf1
              ltac:(lia) ltac:(lia))
    as (st' & Hrun' & Hwf' & Hheap' & Hle' & Hkeep & Hsegs).
  { eexists. rewrite Hlogs1, Hoffs1.
    rewrite list_lookup_insert_eq by lia.
    rewrite list_lookup_total_insert_eq by lia.
    rewrite list_lookup_total_insert_eq.
    2:{ rewrite (Forall_lookup_total_1 _ _ _ Hrows) by lia. done. }
    done. }
  rewrite Hheap1 in *.
  pose proof (timeline_trace_length o (drop 1 initial) h1) as Htl.
  destruct (timeline_trace o (drop 1 initial) h1) as [tr h2] eqn:Htr.
  cbn [fst snd] in *. rewrite length_drop in Htl.
  exists st'. split; [done|]. split; [done|]. split; [done|].
  split; [by eapply tb_le_trans|]. split.
  - intros k cs l Hk Hl. destruct k as [|k].
    + cbn in Hk. injection Hk as <-. assert (l = l0) as -> by congruence.
      eexists. rewrite Hkeep by lia. rewrite Hlogs1.
      rewrite list_lookup_insert_eq by lia. done.
    + cbn in Hk.
      destruct (Hsegs k cs l Hk) as (l' & Hl' & Hh' & _).
      { rewrite Hlogs1. by rewrite list_lookup_insert_ne by lia. }
      by exists l'.
  - intros k cs cs0' Hk0 Hk Hpos Hne. cbn in Hk0. injection Hk0 as <-.
    destruct k as [|k]; [lia|]. cbn in Hk.
    pose proof (lookup_lt_Some _ _ _ Hk) as Hklt.
    destruct (lookup_lt_is_Some_2 (logs st1) (1 + k)%nat) as [l Hl].
    { destruct Hwf1 as [-> _]. lia. }
    destruct (Hsegs k cs l Hk Hl) as (l' & _ & _ & Hrep).
    apply (Hrep Hne).
Qed.

Lemma tandem_trace_length ops : forall (h : H),
  length (tandem_trace ops initial h) = length ops.
Proof.
  induction ops as [|o ops IH]; intros h; [done|]. cbn [tandem_trace].
  destruct (timeline_trace o initial h) as [tr h1]. cbn. by rewrite IH.
Qed.

(* The outer loop, for the operations numbered from [i] on. *)
Lemma tandem_ops_returns N ops : forall i st,
  Forall (Forall (Forall returns)) (tandem_trace ops initial (heap st)) ->
  (i + length ops <= N)%nat ->
  tandem_wf (length initial) N st ->
  exists st',
    tandem_ops divergence initial ops i st = Returned st'
    /\ tandem_wf (length initial) N st'
    /\ tb_le (tb st) (tb st')
    /\ (forall j l,
          logs st !! j = Some l ->
          exists l',
            logs st' !! j = Some l'
            /\ history l' = history l
                 ++ concat (segments i (map op_String ops)
                              (timeline_calls j (tandem_trace ops initial (heap st)))))
    /\ (forall k o tr cs0 cs j,
          ops !! k = Some o ->
          tandem_trace ops initial (heap st) !! k = Some tr ->
          tr !! 0%nat = Some cs0 ->
          tr !! j = Some cs ->
          (0 < j)%nat ->
          op_segment (i + k) (op_String o) cs <> op_segment (i + k) (op_String o) cs0 ->
          diverged j (i + k) (divergence (op_segment (i + k) (op_String o) cs0)
                                         (op_segment (i + k) (op_String o) cs))
            ∈ output (tb st')
          /\ failed (tb st') = true).
Proof.
  induction ops as [|o ops IH]; intros i st Hna HN Hwf.
  - exists st. cbn. split; [done|]. split; [done|]. split; [apply tb_le_refl|].
    split.
    + intros j l Hl. exists l. by rewrite app_nil_r.
    + intros k o tr cs0 cs j Hk. by rewrite lookup_nil in Hk.
  - rewrite tandem_trace_cons in Hna.
    apply Forall_cons_1 in Hna as [Ho Hna]. cbn [length] in HN.
    destruct (tandem_round_returns o i N st Ho ltac:(lia) Hwf)
      as (st1 & Hround & Hwf1 & Hheap1 & Hle1 & Hseg1 & Hrep1).
    rewrite <- Hheap1 in Hna.
    destruct (IH (Datatypes.S i) st1 Hna ltac:(lia) Hwf1)
      as (st' & Hrun & Hwf' & Hle' & Hsegs & Hreps).
    cbn [tandem_ops tandem_trace]. rewrite Hround, Hrun.
    pose proof (timeline_trace_length o initial (heap st)) as Htl.
    destruct (timeline_trace o initial (heap st)) as [tr0 h1] eqn:Htr.
    cbn [fst snd] in *. rewrite Hheap1 in *.
    exists st'. split; [done|]. split; [done|].
    split; [by eapply tb_le_trans|]. split.
    + intros j l Hl.
      destruct (lookup_lt_is_Some_2 tr0 j) as [cs Hcs].
      { rewrite Htl. destruct Hwf as [<- _]. by eapply lookup_lt_Some. }
      destruct (Hseg1 j cs l Hcs Hl) as (l1 & Hl1 & Hh1).
      destruct (Hsegs j l1 Hl1) as (l' & Hl' & Hh').
      exists l'. split; [done|]. rewrite Hh', Hh1.
      unfold timeline_calls. cbn [map fmap list_fmap segments concat].
      rewrite (list_lookup_total_correct _ _ _ Hcs).
      by rewrite <- (assoc_L (++)).
    + intros k o' tr cs0 cs j Hk Htrk Hcs0 Hcs Hj Hne. destruct k as [|k].
      * cbn in Hk, Htrk. injection Hk as <-. injection Htrk as <-.
        rewrite Nat.add_0_r in *.
        destruct (Hrep1 j cs cs0 Hcs0 Hcs Hj Hne) as [Hin Hf].
        split; [by eapply tb_le_output|]. by apply Hle'.
      * cbn in Hk, Htrk.
        replace (i + Datatypes.S k)%nat with (Datatypes.S i + k)%nat in * by lia.
        by apply (Hreps k o' tr cs0 cs j).
Qed.

(* The test handle only grows through the loops, whatever the operations
   do. *)
Lemma tandem_step_tb_le o i j st :
  tb_le (tb st) (tb (state_of (tandem_step divergence initial o i j st))).
Proof.
  unfold tandem_step. destruct (logs st !! j) as [l|]; [|apply tb_le_refl].
  destruct (initial !! j) as [s|]; [|apply tb_le_refl].
  destruct (op_Run o s (heap st)) as [cs h1].
  match goal with
  | |- context [run_calls cs ?l2 ?t2] => pose proof (run_calls_tb_le cs l2 t2) as Hle
  end.
  destruct (run_calls cs _ _) as [[l3 t3]|[l3 t3]]; cbn [state_of snd tb] in *;
    [|exact Hle].
  set (t4 := if failed t3 then _ else t3).
  assert (H34 : tb_le t3 t4).
  { subst t4. destruct (failed t3); [apply tb_le_Logf|apply tb_le_refl]. }
  eapply tb_le_trans; [exact Hle|]. eapply tb_le_trans; [exact H34|].
  destruct (0 <? j)%nat; [|apply tb_le_refl].
  destruct (compareOpResults _ _ _ _ _); [apply tb_le_Errorf|apply tb_le_refl].
Qed.

Lemma tandem_timelines_tb_le o i : forall n j st,
  tb_le (tb st) (tb (state_of (tandem_timelines divergence initial o i n j st))).
Proof.
  induction n as [|n IH]; intros j st; [apply tb_le_refl|].
  cbn [tandem_timelines]. pose proof (tandem_step_tb_le o i j st) as Hle.
  destruct (tandem_step divergence initial o i j st) as [st1|st1];
    cbn [state_of] in *; [|exact Hle].
  eapply tb_le_trans; [exact Hle|apply IH].
Qed.

Lemma tandem_ops_tb_le ops : forall i st,
  tb_le (tb st) (tb (state_of (tandem_ops divergence initial ops i st))).
Proof.
  induction ops as [|o ops IH]; intros i st; [apply tb_le_refl|].
  cbn [tandem_ops].
  pose proof (tandem_timelines_tb_le o i (length (logs st)) 0 st) as Hle.
  destruct (tandem_timelines divergence initial o i (length (logs st)) 0 st)
    as [st1|st1]; cbn [state_of] in *; [|exact Hle].
  eapply tb_le_trans; [exact Hle|apply IH].
Qed.

Lemma tandem_wf_step N st st1 l' j i n0 :
  tandem_wf (length initial) N st ->
  (j < length initial)%nat ->
  logs st1 = <[j := l']> (logs st) ->
  logOpOffsets st1
  = <[j := <[i := n0]> (logOpOffsets st !!! j)]> (logOpOffsets st) ->
  tandem_wf (length initial) N st1.
Proof.
  intros (Hlen & Hlen' & Hrows) Hj Hl Ho. unfold tandem_wf.
  rewrite Hl, Ho, !length_insert. split; [done|]. split; [done|].
  apply Forall_insert; [done|]. rewrite length_insert.
  apply (Forall_lookup_total_1 _ _ _ Hrows). lia.
Qed.

(* The inner loop from timeline [j] >= 1 on: a timeline before which, and on
   which, the operation returned is compared with timeline 0, whatever the
   later timelines do. *)
Lemma tandem_timelines_reports o i N base0 seg0 : forall n j st k cs,
  (i < N)%nat ->
  tandem_wf (length initial) N st ->
  (j + n = length initial)%nat ->
  (0 < j)%nat ->
  (exists l0, logs st !! 0%nat = Some l0 /\ history l0 = base0 ++ seg0
              /\ (logOpOffsets st !!! 0%nat) !!! i = length base0) ->
  fst (timeline_trace o (drop j initial) (heap st)) !! k = Some cs ->
  Forall (Forall returns)
    (take (Datatypes.S k) (fst (timeline_trace o (drop j initial) (heap st)))) ->
  op_segment i (op_String o) cs <> seg0 ->
  diverged (j + k) i (divergence seg0 (op_segment i (op_String o) cs))
    ∈ output (tb (state_of (tandem_timelines divergence initial o i n j st)))
  /\ failed (tb (state_of (tandem_timelines divergence initial o i n j st))) = true.
Proof.
  induction n as [|n IH]; intros j st k cs Hi Hwf Hn Hj H0 Hk Hr Hne.
  - rewrite drop_ge in Hk by lia. cbn [timeline_trace fst] in Hk.
    by rewrite lookup_nil in Hk.
  - destruct (lookup_lt_is_Some_2 initial j ltac:(lia)) as [s Hs].
    destruct (lookup_lt_is_Some_2 (logs st) j) as [l Hl].
    { destruct Hwf as [-> _]. lia. }
    rewrite (drop_S initial s j Hs), timeline_trace_cons in Hk, Hr.
    cbn [fst take] in Hk, Hr. apply Forall_cons_1 in Hr as [Hr0 Hr].
    destruct (tandem_step_returns o i j st l s N base0 seg0 Hl Hs Hr0 Hwf Hi
                (fun _ => H0))
      as (st1 & Hstep & Hlogs1 & Hoffs1 & Hheap1 & Hle1 & Hrep1).
    cbn zeta in Hrep1. rewrite <- Hheap1 in Hk, Hr.
    cbn [tandem_timelines]. rewrite Hstep.
    destruct k as [|k].
    + cbn in Hk. injection Hk as <-. rewrite Nat.add_0_r.
      destruct (Hrep1 Hj Hne) as [Hin Hf].
      pose proof (tandem_timelines_tb_le o i n (Datatypes.S j) st1) as Hle.
      split; [by eapply tb_le_output|by apply Hle].
    + cbn in Hk. replace (j + Datatypes.S k)%nat with (Datatypes.S j + k)%nat by lia.
      apply IH; try done; try lia.
      * apply (tandem_wf_step N st st1 _ j i _ Hwf ltac:(lia) Hlogs1 Hoffs1).
      * destruct H0 as (l0 & Hl0 & Hh0 & Hoff0). exists l0.
        rewrite Hlogs1, Hoffs1. rewrite list_lookup_insert_ne by lia.
        by rewrite list_lookup_total_insert_ne by lia.
Qed.

(* One pass of the inner loop: the same, from timeline 0 on. *)
Lemma tandem_round_reports o i N st k cs cs0 :
  (i < N)%nat ->
  tandem_wf (length initial) N st ->
  fst (timeline_trace o initial (heap st)) !! 0%nat = Some cs0 ->
  fst (timeline_trace o initial (heap st)) !! k = Some cs ->
  (0 < k)%nat ->
  Forall (Forall returns)
    (take (Datatypes.S k) (fst (timeline_trace o initial (heap st)))) ->
  op_segment i (op_String o) cs <> op_segment i (op_String o) cs0 ->
  diverged k i (divergence (op_segment i (op_String o) cs0)
                           (op_segment i (op_String o) cs))
    ∈ output (tb (state_of (tandem_timelines divergence initial o i
                              (length (logs st)) 0 st)))
  /\ failed (tb (state_of (tandem_timelines divergence initial o i
                             (length (logs st)) 0 st))) = true.
Proof.
  intros Hi Hwf Hk0 Hk Hpos Hr Hne. pose proof Hwf as (Hlen & Hlen' & Hrows).
  pose proof (timeline_trace_length o initial (heap st)) as Htl.
  pose proof (lookup_lt_Some _ _ _ Hk0) as Hnz. rewrite Htl in Hnz.
  destruct (lookup_lt_is_Some_2 initial 0%nat Hnz) as [s0 Hs0].
  destruct (lookup_lt_is_Some_2 (logs st) 0%nat ltac:(lia)) as [l0 Hl0].
  clear Htl. revert Hk0 Hk Hr.
  change (timeline_trace o initial (heap st))
    with (timeline_trace o (drop 0 initial) (heap st)).
  rewrite (drop_S initial s0 0%nat Hs0), timeline_trace_cons. cbn [fst take].
  intros Hk0 Hk Hr. cbn in Hk0. injection Hk0 as <-.
  apply Forall_cons_1 in Hr as [Hr0 Hr].
  destruct (tandem_step_returns o i 0%nat st l0 s0 N [] [] Hl0 Hs0 Hr0 Hwf Hi
              ltac:(lia))
    as (st1 & Hstep & Hlogs1 & Hoffs1 & Hheap1 & Hle1 & _).
  cbn zeta in *. rewrite <- Hheap1 in Hk, Hr.
  rewrite Hlen. destruct (length initial) as [|n] eqn:Hm; [lia|].
  cbn [tandem_timelines]. rewrite Hstep. rewrite <- Hm in *.
  destruct k as [|k]; [lia|]. cbn in Hk.
  apply (tandem_timelines_reports o i N (history l0)
           (op_segment i (op_String o) (fst (op_Run o s0 (heap st))))
           n 1%nat st1 k cs); try done; try lia.
  - apply (tandem_wf_step N st st1 _ 0%nat i _ Hwf ltac:(lia) Hlogs1 Hoffs1).
  - eexists. rewrite Hlogs1, Hoffs1.
    rewrite list_lookup_insert_eq by lia.
    rewrite list_lookup_total_insert_eq by lia.
    rewrite list_lookup_total_insert_eq.
    2:{ rewrite (Forall_lookup_total_1 _ _ _ Hrows) by lia. done. }
    done.
Qed.

(* The outer loop: operation [i + k], before which every operation returned
   on every timeline, on a timeline [j] up to which it returned. *)
Lemma tandem_ops_reports N ops : forall i st k o tr cs0 cs j,
  (i + length ops <= N)%nat ->
  tandem_wf (length initial) N st ->
  ops !! k = Some o ->
  tandem_trace ops initial (heap st) !! k = Some tr ->
  tr !! 0%nat = Some cs0 ->
  tr !! j = Some cs ->
  (0 < j)%nat ->
  Forall (Forall (Forall returns)) (take k (tandem_trace ops initial (heap st))) ->
  Forall (Forall returns) (take (Datatypes.S j) tr) ->
  op_segment (i + k) (op_String o) cs <> op_segment (i + k) (op_String o) cs0 ->
  diverged j (i + k) (divergence (op_segment (i + k) (op_String o) cs0)
                                 (op_segment (i + k) (op_String o) cs))
    ∈ output (tb (state_of (tandem_ops divergence initial ops i st)))
  /\ failed (tb (state_of (tandem_ops divergence initial ops i st))) = true.
Proof.
  induction ops as [|o' ops IH]; intros i st k o tr cs0 cs j HN Hwf Hk Htr Hcs0 Hcs
    Hj Hpre Hr Hne; [by rewrite lookup_nil in Hk|].
  rewrite tandem_trace_cons in Htr, Hpre. cbn [length] in HN. cbn [tandem_ops].
  destruct k as [|k].
  - cbn in Hk, Htr. injection Hk as <-. injection Htr as <-.
    rewrite Nat.add_0_r in *.
    destruct (tandem_round_reports o' i N st j cs cs0 ltac:(lia) Hwf Hcs0 Hcs Hj Hr Hne)
      as [Hin Hf].
    destruct (tandem_timelines divergence initial o' i (length (logs st)) 0 st)
      as [st1|st1]; cbn [state_of] in *; [|done].
    pose proof (tandem_ops_tb_le ops (Datatypes.S i) st1) as Hle.
    split; [by eapply tb_le_output|by apply Hle].
  - cbn in Hk, Htr, Hpre. apply Forall_cons_1 in Hpre as [Ho Hpre].
    destruct (tandem_round_returns o' i N st Ho ltac:(lia) Hwf)
      as (st1 & Hround & Hwf1 & Hheap1 & _).
    rewrite Hround. rewrite <- Hheap1 in Htr, Hpre.
    replace (i + Datatypes.S k)%nat with (Datatypes.S i + k)%nat in * by lia.
    apply (IH (Datatypes.S i) st1 k o tr cs0 cs j); try done. lia.
Qed.

(** C6 (as amended).  Take operation i and a timeline j > 0 such that no
    operation has panicked or called FailNow or Fatal in the run up to and
    including operation i on timeline j.  If the bytes operation i added to
    the log of timeline j differ from those it added to the log of timeline
    0, then, in the state in which RunInTandem returns or exits, the test is
    marked failed and has received the message [state 0 and j diverged at op
    i:] followed by the text of the error made of the two segments:
    whatever the later operations do.  And if no operation panics or calls
    FailNow or Fatal in the whole run, RunInTandem returns and every
    operation has run on every timeline: the log of timeline j is the
    succession of the segments of all the operations on j.  [tandem_trace]
    gives the calls each operation makes on each timeline in the order of
    the run, and [op_segment] the bytes they add to the log. *)
Theorem RunInTandem_reports_divergence t (h : H) ops :
  (forall i j o tr cs0 cs,
      ops !! i = Some o ->
      tandem_trace ops initial h !! i = Some tr ->
      tr !! 0%nat = Some cs0 ->
      tr !! j = Some cs ->
      (0 < j)%nat ->
      Forall (Forall (Forall returns)) (take i (tandem_trace ops initial h)) ->
      Forall (Forall returns) (take (Datatypes.S j) tr) ->
      op_segment i (op_String o) cs <> op_segment i (op_String o) cs0 ->
      diverged j i (divergence (op_segment i (op_String o) cs0)
                               (op_segment i (op_String o) cs))
        ∈ output (tb (state_of (RunInTandem divergence t h initial ops)))
      /\ failed (tb (state_of (RunInTandem divergence t h initial ops))) = true)
  /\ (Forall (Forall (Forall returns)) (tandem_trace ops initial h) ->
      exists st,
        RunInTandem divergence t h initial ops = Returned st
        /\ length (logs st) = length initial
        /\ (forall j l,
              logs st !! j = Some l ->
              history l = concat (segments 0 (map op_String ops)
                                    (timeline_calls j (tandem_trace ops initial h))))).
Proof.
  unfold RunInTandem.
  set (st0 := mkTandem t _ _ h).
  assert (Hwf : tandem_wf (length initial) (length ops) st0).
  { unfold tandem_wf. cbn. rewrite !length_replicate. split; [done|]. split; [done|].
    apply Forall_replicate. by rewrite length_replicate. }
  split.
  - intros i j o tr cs0 cs Hi Htr Hcs0 Hcs Hj Hpre Hr Hne.
    by apply (tandem_ops_reports (length ops) ops 0%nat st0 i o tr cs0 cs j).
  - intros Hna.
    destruct (tandem_ops_returns (length ops) ops 0%nat st0 Hna ltac:(lia) Hwf)
      as (st & Hrun & (Hlen & _) & _ & Hsegs & _).
    exists st. split; [done|]. split; [done|].
    intros j l Hl.
    assert (Hj : (j < length initial)%nat).
    { rewrite <- Hlen. by eapply lookup_lt_Some. }
    destruct (Hsegs j NewLogger) as (l' & Hl' & Hh').
    { cbn. by apply lookup_replicate_2. }
    assert (l' = l) as -> by congruence. by rewrite Hh'.
Qed.
End TandemFacts.

(* Two timelines and three operations.  The second operation logs another
   text on timeline 1, which is in state 1, and the third one calls Fatal
   there: the divergence of the second operation is reported, though the run
   does not return.  Without the third operation the run returns. *)
Lemma RunInTandem_reports_divergence_witness :
  (diverged 1 1 (bracketed (op_segment 1 (B "Dep") [CLog (B "other")])
                           (op_segment 1 (B "Dep") [CLog (B "one")]))
     ∈ output (tb (state_of (RunInTandem bracketed (mkTB false []) tt [0; 1]%nat
                               [get_op; dep_op; fatal_op])))
   /\ failed (tb (state_of (RunInTandem bracketed (mkTB false []) tt [0; 1]%nat
                              [get_op; dep_op; fatal_op]))) = true)
  /\ exists st,
      RunInTandem bracketed (mkTB false []) tt [0; 1]%nat [get_op; dep_op]
      = Returned st
      /\ length (logs st) = length [0; 1]%nat
      /\ (forall j l,
            logs st !! j = Some l ->
            history l = concat (segments 0 (map op_String [get_op; dep_op])
                                  (timeline_calls j
                                     (tandem_trace [get_op; dep_op] [0; 1]%nat tt)))).
Proof.
  split.
  - apply (proj1 (RunInTandem_reports_divergence bracketed [0; 1]%nat (mkTB false [])
                    tt [get_op; dep_op; fatal_op])
             1%nat 1%nat dep_op [[CLog (B "other")]; [CLog (B "one")]]
             [CLog (B "other")] [CLog (B "one")]);
      try reflexivity; try lia; try (repeat constructor).
    cbn. discriminate.
  - apply (proj2 (RunInTandem_reports_divergence bracketed [0; 1]%nat (mkTB false [])
                    tt [get_op; dep_op])).
    repeat constructor.
Defined.

(** C6 (the claim as stated fails).  On timeline 1 the first operation
    calls Fatal, on timeline 0 it logs [ok]: the bytes of operation 0 differ
    between the two timelines, but the goroutine exits inside the operation,
    before the comparison.  The test handle holds the messages of Fatal only,
    no report of a divergence, and the second operation has run on neither
    timeline. *)
Lemma RunInTandem_aborting_op_no_report :
  exists st,
    RunInTandem bracketed (mkTB false []) tt [0; 1]%nat [fatal_op; put_op] = Exited st
    /\ history <$> logs st
       = [B "op      0: Dep = ok" ++ [nl]; B "op      0: Dep = error: boom"]
    /\ output (tb st)
       = [B "boom"; B "History:" ++ [nl; nl] ++ B "op      0: Dep = error: boom"].
Proof. eexists. split; [reflexivity|]. split; reflexivity. Qed.

(** ** The indenting writer *)

Lemma indent_newlines_app (a b : bytes) :
  indent_newlines (a ++ b) = indent_newlines a ++ indent_newlines b.
Proof.
  induction a as [|c a IH]; [done|]. cbn [app indent_newlines].
  destruct (Ascii.eqb c nl); cbn; by rewrite IH.
Qed.

Lemma indent_newlines_length (b : bytes) :
  length (indent_newlines b)
  = (length b + 2 * length (filter (fun c => c = nl) b))%nat.
Proof.
  induction b as [|c b IH]; [done|]. cbn [indent_newlines].
  rewrite filter_cons. destruct (Ascii.eqb_spec c nl) as [->|Hc].
  - rewrite decide_True by done. cbn [length app B list_ascii_of_string].
    rewrite IH. lia.
  - rewrite decide_False by done. cbn [length]. rewrite IH. lia.
Qed.

Lemma indent_newlines_followed (b : bytes) : forall i,
  indent_newlines b !! i = Some nl ->
  indent_newlines b !! Datatypes.S i = Some " "%char
  /\ indent_newlines b !! Datatypes.S (Datatypes.S i) = Some " "%char.
Proof.
  induction b as [|c b IH]; intros i Hi; [done|].
  cbn [indent_newlines] in *. destruct (Ascii.eqb_spec c nl) as [->|Hc].
  - destruct i as [|[|[|i]]]; cbn in *; [done|done|done|by apply IH].
  - destruct i as [|i]; cbn in *; [congruence|by apply IH].
Qed.

(* What bytes.IndexByte finds. *)
Lemma IndexByte_nl (b : bytes) :
  (IndexByte b nl = -1 /\ nl ∉ b)
  \/ (exists pre post,
        b = pre ++ nl :: post /\ (nl ∉ pre)
        /\ IndexByte b nl = Z.of_nat (length pre)).
Proof.
  induction b as [|x b IH]; [left; split; [done|apply not_elem_of_nil]|].
  cbn [IndexByte]. destruct (Ascii.eqb_spec x nl) as [->|Hx].
  - right. exists [], b. split; [done|]. split; [apply not_elem_of_nil|done].
  - destruct IH as [[Hi Hn]|(pre & post & -> & Hn & Hi)].
    + left. rewrite Hi. split; [done|]. by apply not_elem_of_cons.
    + right. exists (x :: pre), post. rewrite Hi. split; [done|].
      split; [by apply not_elem_of_cons|].
      destruct (Z.ltb_spec (Z.of_nat (length pre)) 0); cbn [length]; lia.
Qed.

(* The three ways through one iteration of the loop. *)
Lemma newlineIndentingWriter_loop_empty fuel indent out n :
  newlineIndentingWriter_loop (Datatypes.S fuel) indent [] out n = Some (out, n).
Proof. done. Qed.

Lemma newlineIndentingWriter_loop_rest fuel indent (b out : bytes) n :
  nl ∉ b ->
  newlineIndentingWriter_loop (Datatypes.S fuel) indent b out n
  = Some (out ++ b, n + Z.of_nat (length b)).
Proof.
  intros Hn. destruct b as [|x b].
  { cbn. by rewrite app_nil_r, Z.add_0_r. }
  cbn [newlineIndentingWriter_loop]. change (0 <? length (x :: b))%nat with true.
  cbn match. destruct (IndexByte_nl (x :: b)) as [[-> _]|(pre & post & Hb & _ & _)].
  - done.
  - destruct Hn. rewrite Hb. apply elem_of_app. right. by left.
Qed.

Lemma newlineIndentingWriter_loop_newline fuel indent (pre post out : bytes) n :
  nl ∉ pre ->
  newlineIndentingWriter_loop (Datatypes.S fuel) indent (pre ++ nl :: post) out n
  = newlineIndentingWriter_loop fuel indent post
      ((out ++ pre ++ [nl]) ++ indent)
      (n + Z.of_nat (length (pre ++ [nl])) + Z.of_nat (length indent)).
Proof.
  intros Hn. cbn [newlineIndentingWriter_loop].
  replace (0 <? length (pre ++ nl :: post))%nat with true
    by (symmetry; apply Nat.ltb_lt; rewrite length_app; cbn; lia).
  cbn match.
  destruct (IndexByte_nl (pre ++ nl :: post))
    as [[_ Habs]|(pre' & post' & Hb & Hn' & ->)].
  { destruct Habs. apply elem_of_app. right. by left. }
  assert (Hpre : pre' = pre).
  { clear -Hb Hn Hn'. revert pre' Hb Hn'.
    induction pre as [|x pre IH]; intros [|y pre'] Hb Hn'; cbn in *.
    - done.
    - injection Hb as <- _. destruct Hn'. by left.
    - injection Hb as -> _. destruct Hn. by left.
    - injection Hb as -> Hb. f_equal.
      apply not_elem_of_cons in Hn as [_ Hn].
      apply not_elem_of_cons in Hn' as [_ Hn']. by apply IH. }
  subst pre'.
  replace (0 <=? Z.of_nat (length pre)) with true by (symmetry; apply Z.leb_le; lia).
  replace (Z.to_nat (Z.of_nat (length pre) + 1)) with (length (pre ++ [nl]))
    by (rewrite length_app; cbn; lia).
  rewrite (cons_middle nl pre post), (assoc_L (++) pre [nl] post).
  by rewrite take_app_length, drop_app_length.
Qed.

(* Whenever the loop ends, it has written the indented text. *)
Lemma newlineIndentingWriter_loop_result fuel : forall (b out : bytes) n r,
  newlineIndentingWriter_loop fuel (B "  ") b out n = Some r ->
  r = (out ++ indent_newlines b, n + Z.of_nat (length (indent_newlines b))).
Proof.
  induction fuel as [|fuel IH]; intros b out n r Hr; [done|].
  destruct (IndexByte_nl b) as [[_ Hn]|(pre & post & -> & Hn & _)].
  - rewrite (newlineIndentingWriter_loop_rest _ _ _ _ _ Hn) in Hr.
    rewrite (indent_newlines_plain _ Hn). congruence.
  - rewrite (newlineIndentingWriter_loop_newline _ _ _ _ _ _ Hn) in Hr.
    rewrite (IH _ _ _ _ Hr). rewrite indent_newlines_app.
    rewrite (indent_newlines_plain _ Hn). cbn [indent_newlines].
    change (Ascii.eqb nl nl) with true. cbn match.
    rewrite !length_app. cbn [length B list_ascii_of_string app].
    f_equal; [by rewrite <- !(assoc_L (++))|lia].
Qed.

(* The loop ends: each iteration takes at least one byte of b. *)
Lemma newlineIndentingWriter_loop_ends fuel : forall (b out : bytes) n,
  (length b < fuel)%nat ->
  is_Some (newlineIndentingWriter_loop fuel (B "  ") b out n).
Proof.
  induction fuel as [|fuel IH]; intros b out n Hf; [lia|].
  destruct (IndexByte_nl b) as [[_ Hn]|(pre & post & -> & Hn & _)].
  - by rewrite (newlineIndentingWriter_loop_rest _ _ _ _ _ Hn).
  - rewrite (newlineIndentingWriter_loop_newline _ _ _ _ _ _ Hn).
    apply IH. rewrite length_app in Hf. cbn in Hf. lia.
Qed.

(** X15.  newlineIndentingWriter.Write with the indent of two spaces
    always ends (its loop makes at most len(b) + 1 iterations): what it has
    written to the buffer is b with the indent put in after every newline,
    the text a write through wIndent adds to history, and the count it
    returns is that of the bytes written, len(b) plus two for every newline
    of b, not len(b). *)
Theorem newlineIndentingWriter_Write_indents (b : bytes) (fuel : nat) :
  (length b < fuel)%nat ->
  newlineIndentingWriter_Write fuel (B "  ") b
  = Some (indent_newlines b,
          Z.of_nat (length b) + 2 * Z.of_nat (length (filter (fun c => c = nl) b)))
  /\ forall l, history (wIndent_Write l b)
               = history l ++ indent_newlines b.
Proof.
  intros Hf. split; [|done]. unfold newlineIndentingWriter_Write.
  destruct (newlineIndentingWriter_loop_ends fuel b [] 0 Hf) as [r Hr].
  rewrite Hr. rewrite (newlineIndentingWriter_loop_result _ _ _ _ _ Hr).
  rewrite indent_newlines_length. do 2 f_equal. lia.
Qed.

Lemma newlineIndentingWriter_Write_indents_witness :
  newlineIndentingWriter_Write 4 (B "  ") [nl; "a"%char; nl]
  = Some (indent_newlines [nl; "a"%char; nl],
          Z.of_nat (length [nl; "a"%char; nl])
          + 2 * Z.of_nat (length (filter (fun c => c = nl) [nl; "a"%char; nl])))
  /\ forall l, history (wIndent_Write l [nl; "a"%char; nl])
               = history l ++ indent_newlines [nl; "a"%char; nl].
Proof.
  apply (newlineIndentingWriter_Write_indents [nl; "a"%char; nl] 4). cbn. lia.
Defined.

(** X17.  In what newlineIndentingWriter.Write, with the indent of two
    spaces, has written when it returns, every newline is followed by two
    spaces: no line of the text starts in the first column, the place of the
    op prefixes. *)
Theorem newlineIndentingWriter_Write_newline_indented (b out : bytes) fuel n i :
  newlineIndentingWriter_Write fuel (B "  ") b = Some (out, n) ->
  out !! i = Some nl ->
  out !! Datatypes.S i = Some " "%char
  /\ out !! Datatypes.S (Datatypes.S i) = Some " "%char.
Proof.
  unfold newlineIndentingWriter_Write. intros Hr Hi.
  apply newlineIndentingWriter_loop_result in Hr. injection Hr as -> _.
  by apply indent_newlines_followed.
Qed.

Lemma newlineIndentingWriter_Write_newline_indented_witness :
  (B "a" ++ [nl] ++ B "  b") !! 2%nat = Some " "%char
  /\ (B "a" ++ [nl] ++ B "  b") !! 3%nat = Some " "%char.
Proof.
  apply (newlineIndentingWriter_Write_newline_indented
           (B "a" ++ [nl] ++ B "b") (B "a" ++ [nl] ++ B "  b") 3 5 1);
    reflexivity.
Defined.

(** X16.  Writing a text in two pieces is writing it at once, through
    Write as through Log and Logf: the history, lastByte and logged are the
    same, so the indent does not depend on how the text is cut into calls. *)
Theorem Logger_writes_compose (l : Logger) (a b : bytes) :
  Logger_Write (Logger_Write l a) b = Logger_Write l (a ++ b)
  /\ Logger_Logf (Logger_Logf l a) b = Logger_Logf l (a ++ b).
Proof.
  split.
  - unfold Logger_Write. cbn [history lastByte opNumber op logged].
    rewrite last_app, <- (assoc_L (++)). by destruct (last b), (last a).
  - unfold Logger_Logf, wIndent_Write, set_logged.
    cbn [history lastByte opNumber op logged].
    by rewrite indent_newlines_app, <- (assoc_L (++)).
Qed.

(** ** Aborted runs *)

Lemma run_calls_exits cs : forall l t l' t',
  run_calls cs l t = Exited (l', t') ->
  failed t' = true /\ last (output t') = Some (history_dump l').
Proof.
  induction cs as [|c cs IH]; intros l t l' t' Hr; [done|].
  destruct c; cbn [run_calls Logger_Errorf] in Hr; try (by eapply IH).
  - injection Hr as <- <-. cbn. split; [done|]. by rewrite last_snoc.
  - injection Hr as <- <-. cbn. split; [done|]. by rewrite last_snoc.
  - injection Hr as <- <-. cbn. split; [done|]. by rewrite last_snoc.
Qed.

Lemma Step_exits {S H} l t (h : H) (s : S) (o : Op S H) l' t' h' :
  Step l t h s o = (Exited (l', t'), h') ->
  failed t' = true /\ last (output t') = Some (history_dump l').
Proof.
  unfold Step. destruct (op_Run o s h) as [cs h1].
  destruct (run_calls cs _ t) as [[l3 t3]|[l3 t3]] eqn:Hc; [done|].
  intros [= <- <- <-]. by eapply run_calls_exits.
Qed.

(** X18.  Whenever Run does not return, because an operation panicked or
    called FailNow or Fatal, the test is marked failed and the last message
    handed to it is the history of the run as it stood, headed [History:]. *)
Theorem Run_exit_dumps_history {S H} t (h : H) (s : S) (ops : list (Op S H))
    l' t' h' :
  Run t h s ops = (Exited (l', t'), h') ->
  failed t' = true /\ last (output t') = Some (history_dump l').
Proof.
  unfold Run.
  destruct (Run_loop NewLogger t h s ops) as [[[l1 t1]|[l1 t1]] h1] eqn:Hloop;
    [done|].
  intros [= <- <- <-]. revert Hloop. generalize NewLogger. revert t h.
  induction ops as [|o ops IH]; intros t h l Hloop; [done|].
  cbn [Run_loop] in Hloop.
  destruct (Step l t h s o) as [[[l2 t2]|[l2 t2]] h2] eqn:Hstep.
  - by eapply IH.
  - injection Hloop as <- <- <-. by eapply Step_exits.
Qed.

Lemma Run_exit_dumps_history_witness :
  failed (mkTB true [B "boom"; B "History:" ++ [nl; nl]
                                 ++ B "op      0: Crash = error: boom"]) = true
  /\ last (output (mkTB true [B "boom"; B "History:" ++ [nl; nl]
                                 ++ B "op      0: Crash = error: boom"]))
     = Some (history_dump
               (mkLogger (B "op      0: Crash = error: boom") " "%char 0
                         (B "Crash") true)).
Proof.
  apply (Run_exit_dumps_history (mkTB false []) tt 0%nat [crash_op]
           (mkLogger (B "op      0: Crash = error: boom") " "%char 0 (B "Crash") true)
           (mkTB true [B "boom"; B "History:" ++ [nl; nl]
                                  ++ B "op      0: Crash = error: boom"]) tt).
  reflexivity.
Defined.


Section TandemExits.
Context {S H : Type}.
Implicit Types (o : Op S H) (ops : list (Op S H)) (st : Tandem H).
Variable divergence : bytes -> bytes -> bytes.
Variable initial : list S.

Lemma tandem_step_exits o i j st st' :
  tandem_step divergence initial o i j st = Exited st' ->
  failed (tb st') = true
  /\ exists l, logs st' !! j = Some l
               /\ last (output (tb st')) = Some (history_dump l).
Proof.
  unfold tandem_step. destruct (logs st !! j) as [l|] eqn:Hl; [|done].
  destruct (initial !! j) as [s|]; [|done].
  destruct (op_Run o s (heap st)) as [cs h1].
  destruct (run_calls cs _ (tb st)) as [[l3 t3]|[l3 t3]] eqn:Hc; [done|].
  intros [= <-]. cbn [tb logs]. apply run_calls_exits in Hc as [Hf Hlast].
  split; [done|]. exists l3. split; [|done].
  apply list_lookup_insert_eq. by eapply lookup_lt_Some.
Qed.

Lemma tandem_timelines_exits o i : forall n j st st',
  tandem_timelines divergence initial o i n j st = Exited st' ->
  failed (tb st') = true
  /\ exists j' l, logs st' !! j' = Some l
                  /\ last (output (tb st')) = Some (history_dump l).
Proof.
  induction n as [|n IH]; intros j st st' Hr; [done|].
  cbn [tandem_timelines] in Hr.
  destruct (tandem_step divergence initial o i j st) as [st1|st1] eqn:Hstep.
  - by eapply IH.
  - injection Hr as <-. destruct (tandem_step_exits _ _ _ _ _ Hstep) as [Hf [l Hl]].
    split; [done|]. by exists j, l.
Qed.

Lemma tandem_ops_exits ops : forall i st st',
  tandem_ops divergence initial ops i st = Exited st' ->
  failed (tb st') = true
  /\ exists j l, logs st' !! j = Some l
                 /\ last (output (tb st')) = Some (history_dump l).
Proof.
  induction ops as [|o ops IH]; intros i st st' Hr; [done|].
  cbn [tandem_ops] in Hr.
  destruct (tandem_timelines divergence initial o i (length (logs st)) 0 st)
    as [st1|st1] eqn:Hround.
  - by eapply IH.
  - injection Hr as <-. by eapply tandem_timelines_exits.
Qed.

(** X19.  Whenever RunInTandem does not return, because an operation
    panicked or called FailNow or Fatal on some timeline, the test is marked
    failed and the last message handed to it is the history of one of the
    timelines as it stood, headed [History:]. *)
Theorem RunInTandem_exit_dumps_history t (h : H) ops st :
  RunInTandem divergence t h initial ops = Exited st ->
  failed (tb st) = true
  /\ exists j l, logs st !! j = Some l
                 /\ last (output (tb st)) = Some (history_dump l).
Proof.
  unfold RunInTandem. apply tandem_ops_exits.
Qed.

(** X24.  RunInTandem with no initial state runs nothing: whatever the
    operations, it returns no log and leaves the test handle and the memory
    as they were.  With no operation it returns one Logger per initial state,
    each with an empty history, and the test handle as it was. *)
Theorem RunInTandem_nothing_to_run t (h : H) ops :
  RunInTandem divergence t h [] ops = Returned (mkTandem t [] [] h)
  /\ exists st, RunInTandem divergence t h initial [] = Returned st
                /\ tb st = t /\ heap st = h
                /\ logs st = replicate (length initial) NewLogger
                /\ Forall (fun l => history l = []) (logs st).
Proof.
  split.
  - unfold RunInTandem. cbn [length replicate]. generalize 0%nat at 1.
    induction ops as [|o ops IH]; intros i; [done|]. cbn. apply IH.
  - eexists. split; [reflexivity|]. cbn. split; [done|]. split; [done|].
    split; [done|]. by apply Forall_replicate.
Qed.
End TandemExits.

Lemma RunInTandem_exit_dumps_history_witness :
  failed (mkTB true [B "boom"; B "History:" ++ [nl; nl]
                                 ++ B "op      0: Dep = error: boom"]) = true
  /\ exists j l,
      [mkLogger (B "op      0: Dep = ok" ++ [nl]) nl 0 (B "Dep") true;
       mkLogger (B "op      0: Dep = error: boom") " "%char 0 (B "Dep") true]
        !! j = Some l
      /\ last (output (mkTB true [B "boom"; B "History:" ++ [nl; nl]
                                    ++ B "op      0: Dep = error: boom"]))
         = Some (history_dump l).
Proof.
  apply (RunInTandem_exit_dumps_history bracketed [0; 1]%nat (mkTB false []) tt
           [fatal_op; put_op]
           (mkTandem
              (mkTB true [B "boom"; B "History:" ++ [nl; nl]
                                      ++ B "op      0: Dep = error: boom"])
              [mkLogger (B "op      0: Dep = ok" ++ [nl]) nl 0 (B "Dep") true;
               mkLogger (B "op      0: Dep = error: boom") " "%char 0 (B "Dep") true]
              [[0; 0]; [0; 0]]%nat tt)).
  reflexivity.
Defined.

(** ** What a run tells the test *)

Lemma tb_after_app cs1 : forall cs2 t,
  tb_after (cs1 ++ cs2) t = tb_after cs2 (tb_after cs1 t).
Proof.
  induction cs1 as [|c cs1 IH]; intros cs2 t; [done|].
  destruct c; cbn [app tb_after]; apply IH.
Qed.

Lemma error_texts_app cs1 cs2 :
  error_texts (cs1 ++ cs2) = error_texts cs1 ++ error_texts cs2.
Proof. unfold error_texts. apply omap_app. Qed.

(* The test handle after returning calls: the messages of the Error calls
   are added, in order, and the test is failed as soon as there is one. *)
Lemma tb_after_errors cs : forall t,
  tb_after cs t
  = mkTB (failed t || bool_decide (error_texts cs <> []))
         (output t ++ error_texts cs).
Proof.
  induction cs as [|c cs IH]; intros t.
  - cbn. rewrite orb_false_r, app_nil_r. by destruct t.
  - destruct c; cbn [tb_after]; rewrite IH; try done.
    unfold error_texts. cbn [omap TB_Errorf failed output].
    rewrite orb_true_r. by rewrite <- (assoc_L (++)).
Qed.

Lemma tb_after_quiet cs t : error_texts cs = [] -> tb_after cs t = t.
Proof.
  intros He. rewrite tb_after_errors, He. cbn.
  rewrite orb_false_r, app_nil_r. by destruct t.
Qed.

Section RunReports.
Context {S H : Type}.
Implicit Types (o : Op S H) (ops : list (Op S H)) (l : Logger) (t : TB).
Variable divergence : bytes -> bytes -> bytes.

Lemma Run_loop_tb ops : forall l t (h : H) (s : S),
  Forall (Forall returns) (run_trace ops s h) ->
  exists l' h',
    Run_loop l t h s ops
    = (Returned (l', tb_after (concat (run_trace ops s h)) t), h').
Proof.
  induction ops as [|o ops IH]; intros l t h s Hna.
  - by exists l, h.
  - rewrite run_trace_cons in Hna. apply Forall_cons_1 in Hna as [Ho Hna].
    rewrite run_trace_cons. cbn [Run_loop].
    rewrite (Step_returns l t h s o Ho).
    destruct (op_Run o s h) as [cs h1]. cbn [fst snd concat] in *.
    rewrite tb_after_app. apply IH, Hna.
Qed.

(** X20.  If no operation panics or calls FailNow or Fatal in the run
    ([run_trace] gives the calls each operation makes in it), Run returns
    and the test handle has received the messages of the Error and Errorf
    calls of the operations, in order; the test is failed exactly if it was
    already or if there was such a call; and exactly when it is failed, one
    more message follows: the whole history, done line included, headed
    [History:]. *)
Theorem Run_reports_errors t (h : H) (s : S) ops :
  Forall (Forall returns) (run_trace ops s h) ->
  exists l t' h',
    Run t h s ops = (Returned (l, t'), h')
    /\ failed t'
       = failed t || bool_decide (error_texts (concat (run_trace ops s h)) <> [])
    /\ output t'
       = output t ++ error_texts (concat (run_trace ops s h))
           ++ (if failed t' then [history_dump l] else []).
Proof.
  intros Hna. unfold Run.
  destruct (Run_loop_tb ops NewLogger t h s Hna) as (l & h' & ->).
  eexists _, _, h'. split; [reflexivity|].
  rewrite tb_after_errors. cbn [failed].
  destruct (failed t || bool_decide (error_texts (concat (run_trace ops s h)) <> []));
    cbn [failed output TB_Logf].
  - split; [done|]. by rewrite <- (assoc_L (++)).
  - split; [done|]. by rewrite app_nil_r.
Qed.

(* With one timeline the trace of the tandem run is that of the single
   run. *)
Lemma tandem_trace_single ops : forall (s : S) (h : H),
  tandem_trace ops [s] h = (fun cs => [cs]) <$> run_trace ops s h.
Proof.
  induction ops as [|o ops IH]; intros s h; [done|].
  cbn [tandem_trace timeline_trace run_trace].
  destruct (op_Run o s h) as [cs h1]. cbn [fmap list_fmap]. f_equal. apply IH.
Qed.

(** X21.  If no operation panics or calls FailNow or Fatal when the
    operations are run on the state s ([run_trace] gives the calls each
    operation makes then), RunInTandem on the single initial state s returns
    one Logger, and its history is what Run logs on that state with the same
    operations and memory, without the done line that Run adds. *)
Theorem RunInTandem_single_is_Run t t0 (h : H) (s : S) ops :
  Forall (Forall returns) (run_trace ops s h) ->
  exists st lj l t' h',
    RunInTandem divergence t h [s] ops = Returned st
    /\ logs st = [lj]
    /\ Run t0 h s ops = (Returned (l, t'), h')
    /\ history l = history lj ++ B "done" ++ [nl].
Proof.
  intros Hna. unfold RunInTandem.
  set (st0 := mkTandem t _ _ h).
  assert (Hwf : tandem_wf (length [s]) (length ops) st0).
  { unfold tandem_wf. cbn. split; [done|]. split; [done|].
    repeat constructor. by rewrite length_replicate. }
  assert (Hna1 : Forall (Forall (Forall returns)) (tandem_trace ops [s] (heap st0))).
  { cbn [heap st0]. rewrite tandem_trace_single. apply Forall_fmap.
    eapply Forall_impl; [exact Hna|]. intros cs Hcs. cbn. by constructor. }
  destruct (tandem_ops_returns divergence [s] (length ops) ops 0%nat st0 Hna1
              ltac:(lia) Hwf)
    as (st & Hrun & (Hlen & _) & _ & Hsegs & _).
  destruct (Hsegs 0%nat NewLogger eq_refl) as (lj & Hlj & Hh).
  destruct (Run_returns t0 h s ops Hna) as (l & t' & h' & HR & Hl).
  exists st, lj, l, t', h'. split; [done|]. split.
  - destruct (logs st) as [|x [|y rest]]; cbn in Hlen, Hlj; try done. congruence.
  - split; [done|]. rewrite Hl, Hh. cbn [history heap st0].
    rewrite tandem_trace_single. unfold timeline_calls.
    rewrite <- list_fmap_compose. by rewrite list_fmap_id.
Qed.
End RunReports.

Lemma Run_reports_errors_witness :
  exists l t' h',
    Run (mkTB false []) tt 0%nat
        [get_op; mkOp (B "Check") (fun _ h => ([CError (B "bad")], h))]
    = (Returned (l, t'), h')
    /\ failed t'
       = failed (mkTB false [])
         || bool_decide
              (error_texts
                 (concat (run_trace
                            [get_op; mkOp (B "Check") (fun _ h => ([CError (B "bad")], h))]
                            0%nat tt)) <> [])
    /\ output t'
       = output (mkTB false [])
           ++ error_texts
                (concat (run_trace
                           [get_op; mkOp (B "Check") (fun _ h => ([CError (B "bad")], h))]
                           0%nat tt))
           ++ (if failed t' then [history_dump l] else []).
Proof.
  apply (Run_reports_errors (mkTB false []) tt 0%nat
           [get_op; mkOp (B "Check") (fun _ h => ([CError (B "bad")], h))]).
  repeat constructor.
Defined.

(* The last operation would call Fatal in state 1. *)
Lemma RunInTandem_single_is_Run_witness :
  exists st lj l t' h',
    RunInTandem bracketed (mkTB false []) tt [0%nat] [get_op; fatal_op] = Returned st
    /\ logs st = [lj]
    /\ Run (mkTB false []) tt 0%nat [get_op; fatal_op] = (Returned (l, t'), h')
    /\ history l = history lj ++ B "done" ++ [nl].
Proof.
  apply (RunInTandem_single_is_Run bracketed (mkTB false []) (mkTB false []) tt 0%nat
           [get_op; fatal_op]).
  repeat constructor.
Defined.

(** ** The byte Commentf looks at *)

Lemma logging_keeps_lastByte cs : forall l t l' t',
  Forall (fun c => is_logging c = true) cs ->
  run_calls cs l t = Returned (l', t') ->
  lastByte l' = lastByte l.
Proof.
  induction cs as [|c cs IH]; intros l t l' t' Hlog Hr.
  - by injection Hr as <- _.
  - apply Forall_cons_1 in Hlog as [Hc Hlog].
    destruct c; cbn [run_calls Logger_Errorf] in Hr; try done;
      rewrite (IH _ _ _ _ Hlog Hr); [done| |done].
    unfold Logger_Commentf. by destruct (Ascii.eqb (lastByte l) nl).
Qed.

(** X23.  Only Write moves lastByte.  So after any calls of Log, Logf,
    Error, Errorf and Commentf that returned, Commentf still decides by the
    byte that was last written through Write before them: exactly when that
    byte is no newline, it puts a newline and the indent before the comment,
    whatever was logged last. *)
Theorem Commentf_newline_by_last_Write cs l t l' t' (text : bytes) :
  Forall (fun c => is_logging c = true) cs ->
  run_calls cs l t = Returned (l', t') ->
  lastByte l' = lastByte l
  /\ history (Logger_Commentf l' text)
     = history l'
         ++ (if Ascii.eqb (lastByte l) nl then [] else [nl] ++ B "  ")
         ++ indent_newlines (B "// " ++ text ++ [nl]).
Proof.
  intros Hlog Hr. pose proof (logging_keeps_lastByte _ _ _ _ _ Hlog Hr) as Hlb.
  split; [done|]. unfold Logger_Commentf. rewrite Hlb.
  destruct (Ascii.eqb (lastByte l) nl); unfold Logger_Logf, wIndent_Write, set_logged;
    cbn [history lastByte opNumber op logged]; [done|].
  change (indent_newlines [nl]) with ([nl] ++ B "  ").
  by rewrite <- !(assoc_L (++)).
Qed.

(* After the prefix of an operation, a Log that ends its text with a
   newline: Commentf puts another newline. *)
Lemma Commentf_newline_by_last_Write_witness :
  let l := Logger_Write NewLogger (op_prefix 0 (B "Get")) in
  let l' := Logger_Logf l (B "x" ++ [nl]) in
  lastByte l' = lastByte l
  /\ history (Logger_Commentf l' (B "c"))
     = history l'
         ++ (if Ascii.eqb (lastByte l) nl then [] else [nl] ++ B "  ")
         ++ indent_newlines (B "// " ++ B "c" ++ [nl]).
Proof.
  apply (Commentf_newline_by_last_Write [CLog (B "x" ++ [nl])]
           (Logger_Write NewLogger (op_prefix 0 (B "Get"))) (mkTB false [])
           (Logger_Logf (Logger_Write NewLogger (op_prefix 0 (B "Get"))) (B "x" ++ [nl]))
           (mkTB false []) (B "c")).
  - repeat constructor.
  - reflexivity.
Defined.


(** ** Timelines that agree *)

Section TandemQuiet.
Context {S H : Type}.
Implicit Types (o : Op S H) (ops : list (Op S H)) (st : Tandem H).
Variable divergence : bytes -> bytes -> bytes.
Variable initial : list S.

(* One pass through the body of the inner loop with nothing to report: the
   test has not failed, the operation calls no Error, and the bytes it adds
   are those it added on timeline 0. *)
Lemma tandem_step_quiet o i j st l s N base0 seg0 st' :
  logs st !! j = Some l ->
  initial !! j = Some s ->
  Forall returns (fst (op_Run o s (heap st))) ->
  tandem_wf (length initial) N st ->
  (i < N)%nat ->
  ((0 < j)%nat -> exists l0,
      logs st !! 0%nat = Some l0 /\ history l0 = base0 ++ seg0
      /\ (logOpOffsets st !!! 0%nat) !!! i = length base0) ->
  failed (tb st) = false ->
  error_texts (fst (op_Run o s (heap st))) = [] ->
  ((0 < j)%nat -> op_segment i (op_String o) (fst (op_Run o s (heap st))) = seg0) ->
  tandem_step divergence initial o i j st = Returned st' ->
  tb st' = tb st.
Proof.
  intros Hl Hs Hr (Hlen & Hlen' & Hrows) Hi H0 Hf He Hseg.
  unfold tandem_step. rewrite Hl, Hs.
  destruct (op_Run o s (heap st)) as [cs h']. cbn [fst snd] in *.
  rewrite (run_calls_returns cs _ _ Hr).
  rewrite (tb_after_quiet cs _ He), Hf.
  set (l5 := Logger_Write _ [nl]).
  assert (Hl5 : l5 = mkLogger (history l ++ op_segment i (op_String o) cs) nl i
                       (op_String o) (existsb is_logging cs)).
  { subst l5. unfold after_calls, Logger_Write.
    cbn [history lastByte opNumber op logged orb]. rewrite last_op_prefix.
    unfold op_segment. destruct (existsb is_logging cs);
      cbn [history lastByte opNumber op logged last]; f_equal;
      by rewrite <- ?(assoc_L (++)). }
  clearbody l5. subst l5.
  destruct j as [|j]; [by intros [= <-]|].
  change (0 <? Datatypes.S j)%nat with true. cbn match.
  destruct (H0 ltac:(lia)) as (l0 & Hl0 & Hh0 & Hoff0).
  assert (Hj : (Datatypes.S j < length (logOpOffsets st))%nat).
  { rewrite Hlen', <- Hlen. by eapply lookup_lt_Some. }
  rewrite list_lookup_total_insert_ne by lia.
  rewrite (list_lookup_total_correct _ _ _ Hl0).
  rewrite (list_lookup_total_insert_ne (logOpOffsets st)) by lia.
  rewrite (list_lookup_total_insert_eq (logOpOffsets st)) by lia.
  rewrite list_lookup_total_insert_eq.
  2:{ rewrite (Forall_lookup_total_1 _ _ _ Hrows) by lia. done. }
  unfold compareOpResults. cbn [history]. rewrite Hoff0, Hh0.
  rewrite !drop_app_length. rewrite (Hseg ltac:(lia)).
  rewrite decide_True by done. by intros [= <-].
Qed.

Lemma tandem_timelines_quiet o i N base0 seg0 : forall n j st st',
  Forall (Forall returns) (fst (timeline_trace o (drop j initial) (heap st))) ->
  (i < N)%nat ->
  tandem_wf (length initial) N st ->
  (j + n = length initial)%nat ->
  (0 < j)%nat ->
  (exists l0, logs st !! 0%nat = Some l0 /\ history l0 = base0 ++ seg0
              /\ (logOpOffsets st !!! 0%nat) !!! i = length base0) ->
  failed (tb st) = false ->
  Forall (fun cs => error_texts cs = [] /\ op_segment i (op_String o) cs = seg0)
    (fst (timeline_trace o (drop j initial) (heap st))) ->
  tandem_timelines divergence initial o i n j st = Returned st' ->
  tb st' = tb st.
Proof.
  induction n as [|n IH]; intros j st st' Hr Hi Hwf Hn Hj H0 Hf Hq Hrun.
  - cbn in Hrun. by injection Hrun as <-.
  - destruct (lookup_lt_is_Some_2 initial j ltac:(lia)) as [s Hs].
    destruct (lookup_lt_is_Some_2 (logs st) j) as [l Hl].
    { destruct Hwf as [-> _]. lia. }
    rewrite (drop_S initial s j Hs), timeline_trace_cons in Hr. cbn [fst] in Hr.
    apply Forall_cons_1 in Hr as [Hr0 Hr].
    destruct (tandem_step_returns divergence initial o i j st l s N base0 seg0 Hl Hs Hr0
                Hwf Hi (fun _ => H0))
      as (st1 & Hstep & Hlogs1 & Hoffs1 & Hheap1 & _ & _).
    cbn zeta in *. rewrite <- Hheap1 in Hr.
    cbn [tandem_timelines] in Hrun. rewrite Hstep in Hrun.
    rewrite (drop_S initial s j Hs) in Hq. cbn [timeline_trace] in Hq.
    assert (Htb1 : tb st1 = tb st
                   /\ Forall (fun cs => error_texts cs = []
                                        /\ op_segment i (op_String o) cs = seg0)
                        (fst (timeline_trace o (drop (Datatypes.S j) initial)
                                (heap st1)))).
    { rewrite Hheap1.
      pose proof (tandem_step_quiet o i j st l s N base0 seg0 st1 Hl Hs Hr0
                    Hwf Hi (fun _ => H0) Hf) as Hquiet.
      destruct (op_Run o s (heap st)) as [cs h1]. cbn [fst snd] in *.
      destruct (timeline_trace o (drop (Datatypes.S j) initial) h1) as [tr h2].
      cbn [fst snd] in *. apply Forall_cons_1 in Hq as [[He Hseg] Hq].
      split; [|done]. apply Hquiet; done. }
    destruct Htb1 as [Htb1 Hq1].
    assert (Hwf1 : tandem_wf (length initial) N st1).
    { destruct st1 as [t1 logs1 offs1 hp1]. cbn [logs logOpOffsets heap] in *. subst.
      apply tandem_wf_insert; [done|]. rewrite length_insert.
      destruct Hwf as (Hlen & Hlen' & Hrows).
      apply (Forall_lookup_total_1 _ _ _ Hrows). rewrite Hlen'. lia. }
    destruct H0 as (l0 & Hl0 & Hh0 & Hoff0).
    rewrite <- Htb1.
    apply (IH (Datatypes.S j) st1 st' Hr Hi Hwf1); [lia|lia| |by rewrite Htb1|done|done].
    exists l0. rewrite Hlogs1, Hoffs1.
    rewrite list_lookup_insert_ne by lia.
    rewrite list_lookup_total_insert_ne by lia. done.
Qed.

(* One whole pass of the inner loop with nothing to report. *)
Lemma tandem_round_quiet o i N st st' :
  Forall (Forall returns) (fst (timeline_trace o initial (heap st))) ->
  (i < N)%nat ->
  tandem_wf (length initial) N st ->
  failed (tb st) = false ->
  (forall cs0,
      fst (timeline_trace o initial (heap st)) !! 0%nat = Some cs0 ->
      Forall (fun cs => error_texts cs = []
                        /\ op_segment i (op_String o) cs
                           = op_segment i (op_String o) cs0)
        (fst (timeline_trace o initial (heap st)))) ->
  tandem_timelines divergence initial o i (length (logs st)) 0 st = Returned st' ->
  tb st' = tb st.
Proof.
  intros Hr Hi Hwf Hf Hq. pose proof Hwf as (Hlen & Hlen' & Hrows).
  destruct (decide (length initial = 0%nat)) as [Hz|Hnz].
  { rewrite Hlen, Hz. cbn. by intros [= <-]. }
  destruct (lookup_lt_is_Some_2 initial 0%nat ltac:(lia)) as [s0 Hs0].
  destruct (lookup_lt_is_Some_2 (logs st) 0%nat ltac:(lia)) as [l0 Hl0].
  change (timeline_trace o initial (heap st))
    with (timeline_trace o (drop 0 initial) (heap st)) in Hr.
  rewrite (drop_S initial s0 0%nat Hs0), timeline_trace_cons in Hr. cbn [fst] in Hr.
  apply Forall_cons_1 in Hr as [Hr0 Hr].
  destruct (tandem_step_returns divergence initial o i 0%nat st l0 s0 N [] [] Hl0 Hs0 Hr0
              Hwf Hi ltac:(lia))
    as (st1 & Hstep & Hlogs1 & Hoffs1 & Hheap1 & _ & _).
  cbn zeta in *. rewrite <- Hheap1 in Hr.
  rewrite Hlen. destruct (length initial) as [|n] eqn:Hm; [done|].
  cbn [tandem_timelines]. rewrite Hstep. rewrite <- Hm in *.
  revert Hq.
  change (timeline_trace o initial (heap st))
    with (timeline_trace o (drop 0 initial) (heap st)).
  rewrite (drop_S initial s0 0%nat Hs0). cbn [timeline_trace].
  pose proof (tandem_step_quiet o i 0%nat st l0 s0 N [] [] st1 Hl0 Hs0 Hr0
                Hwf Hi ltac:(lia) Hf) as Hquiet.
  destruct (op_Run o s0 (heap st)) as [cs0 h1] eqn:Hrun. cbn [fst snd] in *.
  destruct (timeline_trace o (drop 1 initial) h1) as [tr h2] eqn:Htr.
  cbn [fst snd]. intros Hq. specialize (Hq cs0 eq_refl).
  apply Forall_cons_1 in Hq as [[He0 _] Hq].
  assert (Htb1 : tb st1 = tb st) by (apply Hquiet; [done|lia|done]).
  assert (Hwf1 : tandem_wf (length initial) N st1).
  { destruct st1 as [t1 logs1 offs1 hp1]. cbn [logs logOpOffsets heap] in *. subst.
    apply tandem_wf_insert; [done|]. rewrite length_insert.
    apply (Forall_lookup_total_1 _ _ _ Hrows). lia. }
  intros Hrun'. rewrite <- Htb1.
  apply (tandem_timelines_quiet o i N (history l0) (op_segment i (op_String o) cs0)
           n 1%nat st1 st' Hr Hi Hwf1); [lia|lia| |by rewrite Htb1| |done].
  - eexists. rewrite Hlogs1, Hoffs1.
    rewrite list_lookup_insert_eq by lia.
    rewrite list_lookup_total_insert_eq by lia.
    rewrite list_lookup_total_insert_eq.
    2:{ rewrite (Forall_lookup_total_1 _ _ _ Hrows) by lia. done. }
    done.
  - by rewrite Hheap1, Htr.
Qed.

Lemma tandem_ops_quiet N ops : forall i st st',
  Forall (Forall (Forall returns)) (tandem_trace ops initial (heap st)) ->
  (i + length ops <= N)%nat ->
  tandem_wf (length initial) N st ->
  failed (tb st) = false ->
  (forall k o tr cs0,
      ops !! k = Some o ->
      tandem_trace ops initial (heap st) !! k = Some tr ->
      tr !! 0%nat = Some cs0 ->
      Forall (fun cs => error_texts cs = []
                        /\ op_segment (i + k) (op_String o) cs
                           = op_segment (i + k) (op_String o) cs0) tr) ->
  tandem_ops divergence initial ops i st = Returned st' ->
  tb st' = tb st.
Proof.
  induction ops as [|o ops IH]; intros i st st' Hna HN Hwf Hf Hq Hrun.
  - cbn in Hrun. by injection Hrun as <-.
  - rewrite tandem_trace_cons in Hna.
    apply Forall_cons_1 in Hna as [Ho Hna]. cbn [length] in HN.
    destruct (tandem_round_returns divergence initial o i N st Ho ltac:(lia) Hwf)
      as (st1 & Hround & Hwf1 & Hheap1 & _).
    rewrite <- Hheap1 in Hna.
    cbn [tandem_ops] in Hrun. rewrite Hround in Hrun.
    assert (Htb1 : tb st1 = tb st).
    { apply (tandem_round_quiet o i N st st1 Ho ltac:(lia) Hwf Hf); [|done].
      intros cs0 Hcs0. specialize (Hq 0%nat o). cbn [tandem_trace] in Hq.
      destruct (timeline_trace o initial (heap st)) as [tr0 h1].
      cbn [fst] in *. rewrite Nat.add_0_r in Hq. by apply (Hq tr0 cs0). }
    rewrite <- Htb1.
    apply (IH (Datatypes.S i) st1 st' Hna ltac:(lia) Hwf1); [by rewrite Htb1| |done].
    intros k o' tr cs0 Hk Htr Hcs0.
    replace (Datatypes.S i + k)%nat with (i + Datatypes.S k)%nat by lia.
    apply (Hq (Datatypes.S k) o' tr cs0); [done| |done].
    cbn [tandem_trace].
    destruct (timeline_trace o initial (heap st)) as [tr0 h1].
    cbn [snd] in Hheap1. by rewrite <- Hheap1.
Qed.

(** X22.  No false alarm: if the test has not failed before and, in the
    run, no operation panics or calls FailNow, Fatal, Error or Errorf and
    every operation adds the same bytes to the log of every timeline as to
    that of timeline 0 ([tandem_trace] gives the calls each operation makes
    on each timeline in the run), then RunInTandem returns and has told the
    test nothing: the test is not failed and has received no message. *)
Theorem RunInTandem_agreeing_timelines_pass t (h : H) ops :
  failed t = false ->
  (forall i o tr cs0,
      ops !! i = Some o ->
      tandem_trace ops initial h !! i = Some tr ->
      tr !! 0%nat = Some cs0 ->
      Forall (fun cs => Forall returns cs
                        /\ error_texts cs = []
                        /\ op_segment i (op_String o) cs
                           = op_segment i (op_String o) cs0) tr) ->
  exists st, RunInTandem divergence t h initial ops = Returned st /\ tb st = t.
Proof.
  intros Hf Hq. unfold RunInTandem.
  set (st0 := mkTandem t _ _ h).
  assert (Hwf : tandem_wf (length initial) (length ops) st0).
  { unfold tandem_wf. cbn. rewrite !length_replicate. split; [done|]. split; [done|].
    apply Forall_replicate. by rewrite length_replicate. }
  assert (Hna : Forall (Forall (Forall returns)) (tandem_trace ops initial (heap st0))).
  { cbn [heap st0]. apply Forall_lookup_2. intros i tr Htr.
    destruct (lookup_lt_is_Some_2 ops i) as [o Ho].
    { rewrite <- (tandem_trace_length initial ops h). by eapply lookup_lt_Some. }
    destruct tr as [|cs0 tr'] eqn:Etr; [constructor|]. rewrite <- Etr in *.
    eapply Forall_impl; [apply (Hq i o tr cs0 Ho Htr); by rewrite Etr|].
    cbn. by intros cs [Hr _]. }
  destruct (tandem_ops_returns divergence initial (length ops) ops 0%nat st0 Hna
              ltac:(lia) Hwf)
    as (st & Hrun & _).
  exists st. split; [done|].
  apply (tandem_ops_quiet (length ops) ops 0%nat st0 st Hna ltac:(lia) Hwf Hf);
    [|done].
  intros k o tr cs0 Hk Htr Hcs0. cbn [Nat.add heap st0] in *.
  eapply Forall_impl; [apply (Hq k o tr cs0 Hk Htr Hcs0)|].
  cbn. by intros cs (_ & He & Hs).
Qed.
End TandemQuiet.

(* Three timelines in the same state, in which the last operation calls
   no Fatal (it would in state 1). *)
Lemma RunInTandem_agreeing_timelines_pass_witness :
  exists st,
    RunInTandem bracketed (mkTB false []) tt [0; 0; 0]%nat [get_op; put_op; fatal_op]
    = Returned st
    /\ tb st = mkTB false [].
Proof.
  apply (RunInTandem_agreeing_timelines_pass bracketed [0; 0; 0]%nat (mkTB false []) tt
           [get_op; put_op; fatal_op]).
  - reflexivity.
  - intros i o tr cs0 Hi Htr Hcs0.
    destruct i as [|[|[|i]]]; cbn in Hi, Htr; [| | |done];
      injection Hi as <-; injection Htr as <-; injection Hcs0 as <-;
      repeat constructor.
Defined.


End MetamorphicFacts.
